(** * GameClient (src/game.js): the client-side state reconciliation pipeline

    A shallow embedding of the enhanced [GameClient] class of [src/game.js]
    (lines 1-886): the entity store and its merge against server messages,
    position interpolation, the eased and clamped camera, animation-frame
    selection, key-repeat and click-to-move input translation, and the
    connection life cycle with its timers; and of the snapping camera of
    the earlier revision of the class that the same file carries
    (lines 887-1413, module [Legacy]).

    Conventions.
    - [this] and the browser resources the class drives (its WebSockets, the
      timers it arms, the messages it hands to [socket.send]) are one record,
      [World]; every method is a function [World -> World] and every browser
      callback is an [event] of the step function [dispatch]; [reachable]
      are the states that sequences of events lead to from [init].
    - JavaScript numbers are modelled by the rationals [Q], i.e. by exact
      arithmetic; [==] is [Qeq]. Where a property turns on the rounding of
      IEEE binary64 -- the interpolation step, the camera easing, the click
      transform, the zoom steps and the animation clock -- the same
      expression is evaluated a second time on Rocq's primitive floats
      (sections [Lerp] and [Binary64]), and the statements say which
      arithmetic they are about. A coordinate that is missing or not a
      number is NaN in the source; exact arithmetic has no NaN, and
      statements about coordinates assume that they are numbers.
    - A dictionary holds its own properties. A lookup [obj[k]] in the source
      also finds the names every object inherits from [Object.prototype]
      ([inheritedNames]); the merge of a move update models this at its
      existence test. Sessions whose messages name an entity or an avatar
      after such a property are otherwise outside the model: statements
      about frames and drawing assume [plainSession].
    - JavaScript objects used as dictionaries are [gmap string _]; [for .. in]
      loops are [map_fold]s, whose iterations are independent here.
    - Canvas drawing, audio and logging have no effect on the modelled state
      and are left out; [drawPlayer], [drawWorldMap], [drawVisualEffects],
      [drawUsernames] and [drawMinimap] return what would be drawn. *)

From Stdlib Require Import PrimFloat SpecFloat FloatOps.
From stdpp Require Import gmap strings list pretty.
From Stdlib Require Import QArith Qround Qabs Qminmax Lqa Lia.

#[local] Set Warnings "-inexact-float,-clear-no-such-hyp".

(** ** JavaScript values and objects *)

(** The JSON scalars that occur as entity fields. A missing field
    ([undefined]) is a failed lookup. *)
Inductive jsval : Type :=
| JNull
| JBool (b : bool)
| JNum (q : Q)
| JStr (s : string).

(** An entity record as it arrives on the wire: field name to value. *)
Abbreviation object := (gmap string jsval).

(** JavaScript truthiness of a (possibly undefined) value. *)
Definition truthy (v : option jsval) : bool :=
  match v with
  | None | Some JNull => false
  | Some (JBool b) => b
  | Some (JNum q) => negb (Qeq_bool q 0)
  | Some (JStr s) => negb (String.eqb s "")
  end.

(** Reading a coordinate. The wire protocol supplies numbers for [x] and [y];
    on any other value the source computes with NaN, which exact arithmetic
    does not represent, and the model reads 0. *)
Definition toNum (v : option jsval) : Q :=
  match v with
  | Some (JNum q) => q
  | _ => 0
  end.

(** [{ ...a, ...b }]: the fields of [b] override those of [a]. *)
Definition spread (a b : object) : object := b ∪ a.

(** The property key JavaScript uses for [obj[k]] when [k] may be [null]. *)
Definition propKey (k : option string) : string := default "null" k.

(** [q] is an integer. *)
Definition integral (q : Q) : bool := (Z.pos (Qden (Qred q)) =? 1)%Z.

(** ToString of a value used as a property key: a string is its own key, a
    missing value is ["undefined"], and an integer is its decimal numeral
    (below 10^21 in magnitude, where JavaScript switches to exponents). The
    key of any other number is its shortest decimal expansion as a binary64,
    which the model does not compute: it stands for it the fraction in
    lowest terms, a key that is likewise different for different numbers. *)
Definition keyOf (v : option jsval) : string :=
  match v with
  | None => "undefined"
  | Some JNull => "null"
  | Some (JBool b) => if b then "true" else "false"
  | Some (JNum q) =>
      if integral q then pretty (Qnum (Qred q))
      else pretty (Qnum (Qred q)) +:+ "/" +:+ pretty (Z.pos (Qden (Qred q)))
  | Some (JStr s) => s
  end.

(** [message.player.id] used as a property key. *)
Definition idOf (player : object) : string := keyOf (player !! "id").

(** The property names every object inherits from [Object.prototype]: with
    one of these as [k], [obj[k]] is a function (for [__proto__], the
    prototype object) and hence truthy, also when [obj] has no own property
    of that name. *)
Definition inheritedNames : list string :=
  [ "__proto__"; "constructor"; "hasOwnProperty"; "isPrototypeOf";
    "propertyIsEnumerable"; "toLocaleString"; "toString"; "valueOf";
    "__defineGetter__"; "__defineSetter__"; "__lookupGetter__"; "__lookupSetter__" ].

Definition inherited (k : string) : bool := bool_decide (k ∈ inheritedNames).

(** ** Data model *)

(** [{ x, y }] *)
Record point : Type := { px : Q; py : Q }.

(** One avatar of the catalog: per facing direction, the frame image sources. *)
Record avatar : Type := { av_name : string; av_frames : gmap string (list string) }.

(** An [Image] element; [complete] is maintained by the browser. *)
Record image : Type := { img_src : string; img_complete : bool }.

(** The [readyState] of a WebSocket. *)
Inductive readyState : Type := CONNECTING | OPEN | CLOSED.

(** What the client hands to [socket.send] (after [JSON.stringify]). *)
Inductive outmsg : Type :=
| JoinGame (username : string)          (* {action:'join_game', username} *)
| MoveDirection (direction : string)    (* {action:'move', direction} *)
| MoveTo (x y : Z)                      (* {action:'move', x, y} *)
| Stop.                                 (* {action:'stop'} *)

(** What [JSON.parse] yields for an inbound payload, by [message.action]. *)
Inductive inmsg : Type :=
| JoinGameSuccess (playerId : string) (players : gmap string object)
    (avatars : gmap string avatar)      (* join_game, success truthy *)
| JoinGameFailure (error : string)      (* join_game, success falsy *)
| PlayersMoved (players : gmap string object)
| PlayerJoined (player : object) (avatar : option avatar)
| PlayerLeft (playerId : string)
| UnknownAction (action : string).

(** The fields of [this] (constructor, lines 3-58), followed by the browser
    resources the class drives: the WebSockets it created (by index, with
    their ready state), the pending [setTimeout] and [setInterval] timers by
    id, the next timer id, and the log of [socket.send] calls. Timer ids are
    positive integers, hence truthy. *)
Record World : Type := {
  canvasWidth : Q;
  canvasHeight : Q;
  worldImage : bool;
  worldWidth : Q;
  worldHeight : Q;
  socket : option nat;
  isConnected : bool;
  playerId : option string;
  players : gmap string object;
  avatars : gmap string avatar;
  myPlayer : option object;
  avatarImages : gmap string (gmap string (list image));
  loadedAvatars : gset string;
  camera : point;
  keysPressed : gmap string bool;
  movementInterval : option positive;
  animationTimer : Q;
  lastFrameTime : Q;
  playerPositions : gmap string point;
  playerTargets : gmap string point;
  showMinimap : bool;
  zoomLevel : Q;
  cameraEasing : Q;
  sockets : list readyState;
  timeouts : list positive;
  intervals : list positive;
  nextTimerId : positive;
  sent : list outmsg
}.

(** Field assignment, [this.f = v]. *)
Definition set_canvasWidth (v : Q) (w : World) : World :=
  {| canvasWidth := v; canvasHeight := canvasHeight w; worldImage := worldImage w;
     worldWidth := worldWidth w; worldHeight := worldHeight w; socket := socket w;
     isConnected := isConnected w; playerId := playerId w; players := players w;
     avatars := avatars w; myPlayer := myPlayer w; avatarImages := avatarImages w;
     loadedAvatars := loadedAvatars w; camera := camera w; keysPressed := keysPressed w;
     movementInterval := movementInterval w; animationTimer := animationTimer w;
     lastFrameTime := lastFrameTime w; playerPositions := playerPositions w;
     playerTargets := playerTargets w; showMinimap := showMinimap w; zoomLevel := zoomLevel w;
     cameraEasing := cameraEasing w; sockets := sockets w; timeouts := timeouts w;
     intervals := intervals w; nextTimerId := nextTimerId w; sent := sent w |}.

Definition set_canvasHeight (v : Q) (w : World) : World :=
  {| canvasWidth := canvasWidth w; canvasHeight := v; worldImage := worldImage w;
     worldWidth := worldWidth w; worldHeight := worldHeight w; socket := socket w;
     isConnected := isConnected w; playerId := playerId w; players := players w;
     avatars := avatars w; myPlayer := myPlayer w; avatarImages := avatarImages w;
     loadedAvatars := loadedAvatars w; camera := camera w; keysPressed := keysPressed w;
     movementInterval := movementInterval w; animationTimer := animationTimer w;
     lastFrameTime := lastFrameTime w; playerPositions := playerPositions w;
     playerTargets := playerTargets w; showMinimap := showMinimap w; zoomLevel := zoomLevel w;
     cameraEasing := cameraEasing w; sockets := sockets w; timeouts := timeouts w;
     intervals := intervals w; nextTimerId := nextTimerId w; sent := sent w |}.

Definition set_worldImage (v : bool) (w : World) : World :=
  {| canvasWidth := canvasWidth w; canvasHeight := canvasHeight w; worldImage := v;
     worldWidth := worldWidth w; worldHeight := worldHeight w; socket := socket w;
     isConnected := isConnected w; playerId := playerId w; players := players w;
     avatars := avatars w; myPlayer := myPlayer w; avatarImages := avatarImages w;
     loadedAvatars := loadedAvatars w; camera := camera w; keysPressed := keysPressed w;
     movementInterval := movementInterval w; animationTimer := animationTimer w;
     lastFrameTime := lastFrameTime w; playerPositions := playerPositions w;
     playerTargets := playerTargets w; showMinimap := showMinimap w; zoomLevel := zoomLevel w;
     cameraEasing := cameraEasing w; sockets := sockets w; timeouts := timeouts w;
     intervals := intervals w; nextTimerId := nextTimerId w; sent := sent w |}.

Definition set_socket (v : option nat) (w : World) : World :=
  {| canvasWidth := canvasWidth w; canvasHeight := canvasHeight w; worldImage := worldImage w;
     worldWidth := worldWidth w; worldHeight := worldHeight w; socket := v;
     isConnected := isConnected w; playerId := playerId w; players := players w;
     avatars := avatars w; myPlayer := myPlayer w; avatarImages := avatarImages w;
     loadedAvatars := loadedAvatars w; camera := camera w; keysPressed := keysPressed w;
     movementInterval := movementInterval w; animationTimer := animationTimer w;
     lastFrameTime := lastFrameTime w; playerPositions := playerPositions w;
     playerTargets := playerTargets w; showMinimap := showMinimap w; zoomLevel := zoomLevel w;
     cameraEasing := cameraEasing w; sockets := sockets w; timeouts := timeouts w;
     intervals := intervals w; nextTimerId := nextTimerId w; sent := sent w |}.

Definition set_isConnected (v : bool) (w : World) : World :=
  {| canvasWidth := canvasWidth w; canvasHeight := canvasHeight w; worldImage := worldImage w;
     worldWidth := worldWidth w; worldHeight := worldHeight w; socket := socket w;
     isConnected := v; playerId := playerId w; players := players w; avatars := avatars w;
     myPlayer := myPlayer w; avatarImages := avatarImages w; loadedAvatars := loadedAvatars w;
     camera := camera w; keysPressed := keysPressed w; movementInterval := movementInterval w;
     animationTimer := animationTimer w; lastFrameTime := lastFrameTime w;
     playerPositions := playerPositions w; playerTargets := playerTargets w;
     showMinimap := showMinimap w; zoomLevel := zoomLevel w; cameraEasing := cameraEasing w;
     sockets := sockets w; timeouts := timeouts w; intervals := intervals w;
     nextTimerId := nextTimerId w; sent := sent w |}.

Definition set_playerId (v : option string) (w : World) : World :=
  {| canvasWidth := canvasWidth w; canvasHeight := canvasHeight w; worldImage := worldImage w;
     worldWidth := worldWidth w; worldHeight := worldHeight w; socket := socket w;
     isConnected := isConnected w; playerId := v; players := players w; avatars := avatars w;
     myPlayer := myPlayer w; avatarImages := avatarImages w; loadedAvatars := loadedAvatars w;
     camera := camera w; keysPressed := keysPressed w; movementInterval := movementInterval w;
     animationTimer := animationTimer w; lastFrameTime := lastFrameTime w;
     playerPositions := playerPositions w; playerTargets := playerTargets w;
     showMinimap := showMinimap w; zoomLevel := zoomLevel w; cameraEasing := cameraEasing w;
     sockets := sockets w; timeouts := timeouts w; intervals := intervals w;
     nextTimerId := nextTimerId w; sent := sent w |}.

Definition set_players (v : gmap string object) (w : World) : World :=
  {| canvasWidth := canvasWidth w; canvasHeight := canvasHeight w; worldImage := worldImage w;
     worldWidth := worldWidth w; worldHeight := worldHeight w; socket := socket w;
     isConnected := isConnected w; playerId := playerId w; players := v; avatars := avatars w;
     myPlayer := myPlayer w; avatarImages := avatarImages w; loadedAvatars := loadedAvatars w;
     camera := camera w; keysPressed := keysPressed w; movementInterval := movementInterval w;
     animationTimer := animationTimer w; lastFrameTime := lastFrameTime w;
     playerPositions := playerPositions w; playerTargets := playerTargets w;
     showMinimap := showMinimap w; zoomLevel := zoomLevel w; cameraEasing := cameraEasing w;
     sockets := sockets w; timeouts := timeouts w; intervals := intervals w;
     nextTimerId := nextTimerId w; sent := sent w |}.

Definition set_avatars (v : gmap string avatar) (w : World) : World :=
  {| canvasWidth := canvasWidth w; canvasHeight := canvasHeight w; worldImage := worldImage w;
     worldWidth := worldWidth w; worldHeight := worldHeight w; socket := socket w;
     isConnected := isConnected w; playerId := playerId w; players := players w; avatars := v;
     myPlayer := myPlayer w; avatarImages := avatarImages w; loadedAvatars := loadedAvatars w;
     camera := camera w; keysPressed := keysPressed w; movementInterval := movementInterval w;
     animationTimer := animationTimer w; lastFrameTime := lastFrameTime w;
     playerPositions := playerPositions w; playerTargets := playerTargets w;
     showMinimap := showMinimap w; zoomLevel := zoomLevel w; cameraEasing := cameraEasing w;
     sockets := sockets w; timeouts := timeouts w; intervals := intervals w;
     nextTimerId := nextTimerId w; sent := sent w |}.

Definition set_myPlayer (v : option object) (w : World) : World :=
  {| canvasWidth := canvasWidth w; canvasHeight := canvasHeight w; worldImage := worldImage w;
     worldWidth := worldWidth w; worldHeight := worldHeight w; socket := socket w;
     isConnected := isConnected w; playerId := playerId w; players := players w;
     avatars := avatars w; myPlayer := v; avatarImages := avatarImages w;
     loadedAvatars := loadedAvatars w; camera := camera w; keysPressed := keysPressed w;
     movementInterval := movementInterval w; animationTimer := animationTimer w;
     lastFrameTime := lastFrameTime w; playerPositions := playerPositions w;
     playerTargets := playerTargets w; showMinimap := showMinimap w; zoomLevel := zoomLevel w;
     cameraEasing := cameraEasing w; sockets := sockets w; timeouts := timeouts w;
     intervals := intervals w; nextTimerId := nextTimerId w; sent := sent w |}.

Definition set_avatarImages (v : gmap string (gmap string (list image))) (w : World) : World :=
  {| canvasWidth := canvasWidth w; canvasHeight := canvasHeight w; worldImage := worldImage w;
     worldWidth := worldWidth w; worldHeight := worldHeight w; socket := socket w;
     isConnected := isConnected w; playerId := playerId w; players := players w;
     avatars := avatars w; myPlayer := myPlayer w; avatarImages := v;
     loadedAvatars := loadedAvatars w; camera := camera w; keysPressed := keysPressed w;
     movementInterval := movementInterval w; animationTimer := animationTimer w;
     lastFrameTime := lastFrameTime w; playerPositions := playerPositions w;
     playerTargets := playerTargets w; showMinimap := showMinimap w; zoomLevel := zoomLevel w;
     cameraEasing := cameraEasing w; sockets := sockets w; timeouts := timeouts w;
     intervals := intervals w; nextTimerId := nextTimerId w; sent := sent w |}.

Definition set_loadedAvatars (v : gset string) (w : World) : World :=
  {| canvasWidth := canvasWidth w; canvasHeight := canvasHeight w; worldImage := worldImage w;
     worldWidth := worldWidth w; worldHeight := worldHeight w; socket := socket w;
     isConnected := isConnected w; playerId := playerId w; players := players w;
     avatars := avatars w; myPlayer := myPlayer w; avatarImages := avatarImages w;
     loadedAvatars := v; camera := camera w; keysPressed := keysPressed w;
     movementInterval := movementInterval w; animationTimer := animationTimer w;
     lastFrameTime := lastFrameTime w; playerPositions := playerPositions w;
     playerTargets := playerTargets w; showMinimap := showMinimap w; zoomLevel := zoomLevel w;
     cameraEasing := cameraEasing w; sockets := sockets w; timeouts := timeouts w;
     intervals := intervals w; nextTimerId := nextTimerId w; sent := sent w |}.

Definition set_camera (v : point) (w : World) : World :=
  {| canvasWidth := canvasWidth w; canvasHeight := canvasHeight w; worldImage := worldImage w;
     worldWidth := worldWidth w; worldHeight := worldHeight w; socket := socket w;
     isConnected := isConnected w; playerId := playerId w; players := players w;
     avatars := avatars w; myPlayer := myPlayer w; avatarImages := avatarImages w;
     loadedAvatars := loadedAvatars w; camera := v; keysPressed := keysPressed w;
     movementInterval := movementInterval w; animationTimer := animationTimer w;
     lastFrameTime := lastFrameTime w; playerPositions := playerPositions w;
     playerTargets := playerTargets w; showMinimap := showMinimap w; zoomLevel := zoomLevel w;
     cameraEasing := cameraEasing w; sockets := sockets w; timeouts := timeouts w;
     intervals := intervals w; nextTimerId := nextTimerId w; sent := sent w |}.

Definition set_keysPressed (v : gmap string bool) (w : World) : World :=
  {| canvasWidth := canvasWidth w; canvasHeight := canvasHeight w; worldImage := worldImage w;
     worldWidth := worldWidth w; worldHeight := worldHeight w; socket := socket w;
     isConnected := isConnected w; playerId := playerId w; players := players w;
     avatars := avatars w; myPlayer := myPlayer w; avatarImages := avatarImages w;
     loadedAvatars := loadedAvatars w; camera := camera w; keysPressed := v;
     movementInterval := movementInterval w; animationTimer := animationTimer w;
     lastFrameTime := lastFrameTime w; playerPositions := playerPositions w;
     playerTargets := playerTargets w; showMinimap := showMinimap w; zoomLevel := zoomLevel w;
     cameraEasing := cameraEasing w; sockets := sockets w; timeouts := timeouts w;
     intervals := intervals w; nextTimerId := nextTimerId w; sent := sent w |}.

Definition set_movementInterval (v : option positive) (w : World) : World :=
  {| canvasWidth := canvasWidth w; canvasHeight := canvasHeight w; worldImage := worldImage w;
     worldWidth := worldWidth w; worldHeight := worldHeight w; socket := socket w;
     isConnected := isConnected w; playerId := playerId w; players := players w;
     avatars := avatars w; myPlayer := myPlayer w; avatarImages := avatarImages w;
     loadedAvatars := loadedAvatars w; camera := camera w; keysPressed := keysPressed w;
     movementInterval := v; animationTimer := animationTimer w;
     lastFrameTime := lastFrameTime w; playerPositions := playerPositions w;
     playerTargets := playerTargets w; showMinimap := showMinimap w; zoomLevel := zoomLevel w;
     cameraEasing := cameraEasing w; sockets := sockets w; timeouts := timeouts w;
     intervals := intervals w; nextTimerId := nextTimerId w; sent := sent w |}.

Definition set_animationTimer (v : Q) (w : World) : World :=
  {| canvasWidth := canvasWidth w; canvasHeight := canvasHeight w; worldImage := worldImage w;
     worldWidth := worldWidth w; worldHeight := worldHeight w; socket := socket w;
     isConnected := isConnected w; playerId := playerId w; players := players w;
     avatars := avatars w; myPlayer := myPlayer w; avatarImages := avatarImages w;
     loadedAvatars := loadedAvatars w; camera := camera w; keysPressed := keysPressed w;
     movementInterval := movementInterval w; animationTimer := v;
     lastFrameTime := lastFrameTime w; playerPositions := playerPositions w;
     playerTargets := playerTargets w; showMinimap := showMinimap w; zoomLevel := zoomLevel w;
     cameraEasing := cameraEasing w; sockets := sockets w; timeouts := timeouts w;
     intervals := intervals w; nextTimerId := nextTimerId w; sent := sent w |}.

Definition set_lastFrameTime (v : Q) (w : World) : World :=
  {| canvasWidth := canvasWidth w; canvasHeight := canvasHeight w; worldImage := worldImage w;
     worldWidth := worldWidth w; worldHeight := worldHeight w; socket := socket w;
     isConnected := isConnected w; playerId := playerId w; players := players w;
     avatars := avatars w; myPlayer := myPlayer w; avatarImages := avatarImages w;
     loadedAvatars := loadedAvatars w; camera := camera w; keysPressed := keysPressed w;
     movementInterval := movementInterval w; animationTimer := animationTimer w;
     lastFrameTime := v; playerPositions := playerPositions w; playerTargets := playerTargets w;
     showMinimap := showMinimap w; zoomLevel := zoomLevel w; cameraEasing := cameraEasing w;
     sockets := sockets w; timeouts := timeouts w; intervals := intervals w;
     nextTimerId := nextTimerId w; sent := sent w |}.

Definition set_playerPositions (v : gmap string point) (w : World) : World :=
  {| canvasWidth := canvasWidth w; canvasHeight := canvasHeight w; worldImage := worldImage w;
     worldWidth := worldWidth w; worldHeight := worldHeight w; socket := socket w;
     isConnected := isConnected w; playerId := playerId w; players := players w;
     avatars := avatars w; myPlayer := myPlayer w; avatarImages := avatarImages w;
     loadedAvatars := loadedAvatars w; camera := camera w; keysPressed := keysPressed w;
     movementInterval := movementInterval w; animationTimer := animationTimer w;
     lastFrameTime := lastFrameTime w; playerPositions := v; playerTargets := playerTargets w;
     showMinimap := showMinimap w; zoomLevel := zoomLevel w; cameraEasing := cameraEasing w;
     sockets := sockets w; timeouts := timeouts w; intervals := intervals w;
     nextTimerId := nextTimerId w; sent := sent w |}.

Definition set_playerTargets (v : gmap string point) (w : World) : World :=
  {| canvasWidth := canvasWidth w; canvasHeight := canvasHeight w; worldImage := worldImage w;
     worldWidth := worldWidth w; worldHeight := worldHeight w; socket := socket w;
     isConnected := isConnected w; playerId := playerId w; players := players w;
     avatars := avatars w; myPlayer := myPlayer w; avatarImages := avatarImages w;
     loadedAvatars := loadedAvatars w; camera := camera w; keysPressed := keysPressed w;
     movementInterval := movementInterval w; animationTimer := animationTimer w;
     lastFrameTime := lastFrameTime w; playerPositions := playerPositions w; playerTargets := v;
     showMinimap := showMinimap w; zoomLevel := zoomLevel w; cameraEasing := cameraEasing w;
     sockets := sockets w; timeouts := timeouts w; intervals := intervals w;
     nextTimerId := nextTimerId w; sent := sent w |}.

Definition set_showMinimap (v : bool) (w : World) : World :=
  {| canvasWidth := canvasWidth w; canvasHeight := canvasHeight w; worldImage := worldImage w;
     worldWidth := worldWidth w; worldHeight := worldHeight w; socket := socket w;
     isConnected := isConnected w; playerId := playerId w; players := players w;
     avatars := avatars w; myPlayer := myPlayer w; avatarImages := avatarImages w;
     loadedAvatars := loadedAvatars w; camera := camera w; keysPressed := keysPressed w;
     movementInterval := movementInterval w; animationTimer := animationTimer w;
     lastFrameTime := lastFrameTime w; playerPositions := playerPositions w;
     playerTargets := playerTargets w; showMinimap := v; zoomLevel := zoomLevel w;
     cameraEasing := cameraEasing w; sockets := sockets w; timeouts := timeouts w;
     intervals := intervals w; nextTimerId := nextTimerId w; sent := sent w |}.

Definition set_zoomLevel (v : Q) (w : World) : World :=
  {| canvasWidth := canvasWidth w; canvasHeight := canvasHeight w; worldImage := worldImage w;
     worldWidth := worldWidth w; worldHeight := worldHeight w; socket := socket w;
     isConnected := isConnected w; playerId := playerId w; players := players w;
     avatars := avatars w; myPlayer := myPlayer w; avatarImages := avatarImages w;
     loadedAvatars := loadedAvatars w; camera := camera w; keysPressed := keysPressed w;
     movementInterval := movementInterval w; animationTimer := animationTimer w;
     lastFrameTime := lastFrameTime w; playerPositions := playerPositions w;
     playerTargets := playerTargets w; showMinimap := showMinimap w; zoomLevel := v;
     cameraEasing := cameraEasing w; sockets := sockets w; timeouts := timeouts w;
     intervals := intervals w; nextTimerId := nextTimerId w; sent := sent w |}.

Definition set_sockets (v : list readyState) (w : World) : World :=
  {| canvasWidth := canvasWidth w; canvasHeight := canvasHeight w; worldImage := worldImage w;
     worldWidth := worldWidth w; worldHeight := worldHeight w; socket := socket w;
     isConnected := isConnected w; playerId := playerId w; players := players w;
     avatars := avatars w; myPlayer := myPlayer w; avatarImages := avatarImages w;
     loadedAvatars := loadedAvatars w; camera := camera w; keysPressed := keysPressed w;
     movementInterval := movementInterval w; animationTimer := animationTimer w;
     lastFrameTime := lastFrameTime w; playerPositions := playerPositions w;
     playerTargets := playerTargets w; showMinimap := showMinimap w; zoomLevel := zoomLevel w;
     cameraEasing := cameraEasing w; sockets := v; timeouts := timeouts w;
     intervals := intervals w; nextTimerId := nextTimerId w; sent := sent w |}.

Definition set_timeouts (v : list positive) (w : World) : World :=
  {| canvasWidth := canvasWidth w; canvasHeight := canvasHeight w; worldImage := worldImage w;
     worldWidth := worldWidth w; worldHeight := worldHeight w; socket := socket w;
     isConnected := isConnected w; playerId := playerId w; players := players w;
     avatars := avatars w; myPlayer := myPlayer w; avatarImages := avatarImages w;
     loadedAvatars := loadedAvatars w; camera := camera w; keysPressed := keysPressed w;
     movementInterval := movementInterval w; animationTimer := animationTimer w;
     lastFrameTime := lastFrameTime w; playerPositions := playerPositions w;
     playerTargets := playerTargets w; showMinimap := showMinimap w; zoomLevel := zoomLevel w;
     cameraEasing := cameraEasing w; sockets := sockets w; timeouts := v;
     intervals := intervals w; nextTimerId := nextTimerId w; sent := sent w |}.

Definition set_intervals (v : list positive) (w : World) : World :=
  {| canvasWidth := canvasWidth w; canvasHeight := canvasHeight w; worldImage := worldImage w;
     worldWidth := worldWidth w; worldHeight := worldHeight w; socket := socket w;
     isConnected := isConnected w; playerId := playerId w; players := players w;
     avatars := avatars w; myPlayer := myPlayer w; avatarImages := avatarImages w;
     loadedAvatars := loadedAvatars w; camera := camera w; keysPressed := keysPressed w;
     movementInterval := movementInterval w; animationTimer := animationTimer w;
     lastFrameTime := lastFrameTime w; playerPositions := playerPositions w;
     playerTargets := playerTargets w; showMinimap := showMinimap w; zoomLevel := zoomLevel w;
     cameraEasing := cameraEasing w; sockets := sockets w; timeouts := timeouts w;
     intervals := v; nextTimerId := nextTimerId w; sent := sent w |}.

Definition set_nextTimerId (v : positive) (w : World) : World :=
  {| canvasWidth := canvasWidth w; canvasHeight := canvasHeight w; worldImage := worldImage w;
     worldWidth := worldWidth w; worldHeight := worldHeight w; socket := socket w;
     isConnected := isConnected w; playerId := playerId w; players := players w;
     avatars := avatars w; myPlayer := myPlayer w; avatarImages := avatarImages w;
     loadedAvatars := loadedAvatars w; camera := camera w; keysPressed := keysPressed w;
     movementInterval := movementInterval w; animationTimer := animationTimer w;
     lastFrameTime := lastFrameTime w; playerPositions := playerPositions w;
     playerTargets := playerTargets w; showMinimap := showMinimap w; zoomLevel := zoomLevel w;
     cameraEasing := cameraEasing w; sockets := sockets w; timeouts := timeouts w;
     intervals := intervals w; nextTimerId := v; sent := sent w |}.

Definition set_sent (v : list outmsg) (w : World) : World :=
  {| canvasWidth := canvasWidth w; canvasHeight := canvasHeight w; worldImage := worldImage w;
     worldWidth := worldWidth w; worldHeight := worldHeight w; socket := socket w;
     isConnected := isConnected w; playerId := playerId w; players := players w;
     avatars := avatars w; myPlayer := myPlayer w; avatarImages := avatarImages w;
     loadedAvatars := loadedAvatars w; camera := camera w; keysPressed := keysPressed w;
     movementInterval := movementInterval w; animationTimer := animationTimer w;
     lastFrameTime := lastFrameTime w; playerPositions := playerPositions w;
     playerTargets := playerTargets w; showMinimap := showMinimap w; zoomLevel := zoomLevel w;
     cameraEasing := cameraEasing w; sockets := sockets w; timeouts := timeouts w;
     intervals := intervals w; nextTimerId := nextTimerId w; sent := v |}.

(** ** Rendering state: interpolation and camera (lines 113-181, 758-781) *)

Section Lerp.
(** [current += (target - current) * lerpSpeed], over any arithmetic. *)
Context {N : Type} (add sub mul : N -> N -> N) (lerpSpeed : N).

Definition lerpWith (current target : N) : N :=
  add current (mul (sub target current) lerpSpeed).
End Lerp.

(** The step in exact arithmetic. *)
Definition lerp (current target : Q) : Q :=
  lerpWith Qplus Qminus Qmult 0.15 current target.

(** The same step in IEEE binary64, the arithmetic of JavaScript numbers. *)
Definition lerp64 (current target : float) : float :=
  lerpWith PrimFloat.add PrimFloat.sub PrimFloat.mul 0.15%float current target.

Definition lerpPoint (current target : point) : point :=
  {| px := lerp (px current) (px target); py := lerp (py current) (py target) |}.

(** [{ x: player.x, y: player.y }] *)
Definition positionOf (player : object) : point :=
  {| px := toNum (player !! "x"); py := toNum (player !! "y") |}.

(** [a.x !== b.x || a.y !== b.y] *)
Definition pointDiffers (a b : point) : bool :=
  negb (Qeq_bool (px a) (px b)) || negb (Qeq_bool (py a) (py b)).

(** One iteration of the loop of [updatePlayerInterpolation] on the pair
    ([playerPositions], [playerTargets]), for an id that is not a name
    inherited from [Object.prototype] (under an inherited name the source
    finds a function in place of a record; those sessions are outside the
    model, see [plainSession]). Reading [playerTargets[playerId].x] with no
    target recorded raises a TypeError in the source; in a plain session the
    two dictionaries always have the same keys, and the model leaves the
    pair alone there. *)
Definition interpolatePlayer (playerId : string) (player : object)
    (acc : gmap string point * gmap string point) : gmap string point * gmap string point :=
  let p := positionOf player in
  let '(positions, targets) :=
    match acc.1 !! playerId with
    | None => (<[playerId := p]> acc.1, <[playerId := p]> acc.2)
    | Some _ => acc
    end in
  match targets !! playerId with
  | None => (positions, targets)
  | Some t =>
      let targets := if pointDiffers t p then <[playerId := p]> targets else targets in
      match positions !! playerId, targets !! playerId with
      | Some current, Some target =>
          (<[playerId := lerpPoint current target]> positions, targets)
      | _, _ => (positions, targets)
      end
  end.

Definition updatePlayerInterpolation (deltaTime : Q) (w : World) : World :=
  let r := map_fold interpolatePlayer (playerPositions w, playerTargets w) (players w) in
  set_playerTargets r.2 (set_playerPositions r.1 w).

(** [Math.max(0, Math.min(v, hi))] *)
Definition clampCamera (v hi : Q) : Q := Qmax 0 (Qmin v hi).

Definition updateCameraSmooth (w : World) : World :=
  match myPlayer w with
  | None => w
  | Some me =>
      let playerPos :=
        match playerPositions w !! propKey (playerId w) with
        | Some p => p
        | None => positionOf me
        end in
      let targetX := (px playerPos - (canvasWidth w / zoomLevel w) / 2)%Q in
      let targetY := (py playerPos - (canvasHeight w / zoomLevel w) / 2)%Q in
      let camX := (px (camera w) + (targetX - px (camera w)) * cameraEasing w)%Q in
      let camY := (py (camera w) + (targetY - py (camera w)) * cameraEasing w)%Q in
      let maxX := (worldWidth w - canvasWidth w / zoomLevel w)%Q in
      let maxY := (worldHeight w - canvasHeight w / zoomLevel w)%Q in
      set_camera {| px := clampCamera camX maxX; py := clampCamera camY maxY |} w
  end.

(** [render(currentTime = 0)]: the state it advances. *)
Definition render (currentTime : Q) (w : World) : World :=
  let deltaTime := (currentTime - lastFrameTime w)%Q in
  let w := set_lastFrameTime currentTime w in
  let w := set_animationTimer (animationTimer w + deltaTime)%Q w in
  if negb (worldImage w) then w
  else updateCameraSmooth (updatePlayerInterpolation deltaTime w).

(** ** Animation frame selection (drawPlayer, lines 205-286) *)

(** [Math.floor(timer / frameSpeed) % numFrames]; [%] truncates like [Z.rem]. *)
Definition animationFrame (player : object) (timer : Q) : Z :=
  if truthy (player !! "isMoving")
  then Z.rem (Qfloor (timer / 200)) 3
  else 0%Z.

(** [player.facing || 'south'] *)
Definition facingOf (player : object) : string :=
  match player !! "facing" with
  | Some (JStr s) => if String.eqb s "" then "south" else s
  | _ => "south"
  end.

(** [frames[i]] for an integer-valued index. *)
Definition frameAt (frames : list image) (i : Z) : option image :=
  if (i <? 0)%Z then None else frames !! Z.to_nat i.

Inductive drawn : Type :=
| Culled                                  (* outside the visible area *)
| Placeholder (isLocal : bool)            (* filled circle *)
| Nothing                                 (* no frame, or still loading *)
| Sprite (direction : string) (frame : Z) (flipHorizontal glow : bool).

Definition isLocalPlayer (w : World) (player : object) : bool :=
  match player !! "id", playerId w with
  | Some (JStr s), Some me => String.eqb s me
  | _, _ => false
  end.

(** [drawPlayer]: what is drawn for one entity. The drawn position is looked
    up under ToString of [player.id]; the avatar under ToString of
    [player.avatar]. *)
Definition drawPlayer (w : World) (player : object) : drawn :=
  let playerPos := default (positionOf player) (playerPositions w !! idOf player) in
  let screenX := (px playerPos - px (camera w))%Q in
  let screenY := (py playerPos - py (camera w))%Q in
  let margin : Q := 200 in
  let lt a b := negb (Qle_bool b a) in
  if lt screenX (- margin)%Q || lt (canvasWidth w / zoomLevel w + margin)%Q screenX
     || lt screenY (- margin)%Q || lt (canvasHeight w / zoomLevel w + margin)%Q screenY
  then Culled
  else
    (* [this.avatarImages[player.avatar]]: an inherited name passes the test
       [!this.avatarImages[avatarName]] and then fails
       [!avatarFrames || !avatarFrames[animationFrame]] *)
    let avatarName := keyOf (player !! "avatar") in
    match avatarImages w !! avatarName with
    | None =>
        if inherited avatarName then Nothing
        else Placeholder (isLocalPlayer w player)
    | Some dirs =>
        let direction := facingOf player in
        let frame := animationFrame player (animationTimer w) in
        let flip := String.eqb direction "west" in
        let direction := if flip then "east" else direction in
        match dirs !! direction with
        | None => Nothing
        | Some frames =>
            match frameAt frames frame with
            | None => Nothing
            | Some img =>
                if img_complete img
                then Sprite direction frame flip (isLocalPlayer w player)
                else Nothing
            end
        end
    end.

(** ** Connection (lines 318-364) *)

(** [this.socket.send(JSON.stringify(message))] *)
Definition socketSend (message : outmsg) (w : World) : World :=
  set_sent (sent w ++ [message]) w.

(** [setTimeout(callback, delay)]: one more pending timer, a fresh id. The
    only callback ever armed this way is [() => this.connectToServer()]. *)
Definition setTimeout (w : World) : World :=
  set_nextTimerId (Pos.succ (nextTimerId w))
    (set_timeouts (timeouts w ++ [nextTimerId w]) w).

(** [this.movementInterval = setInterval(callback, 100)] *)
Definition setMovementInterval (w : World) : World :=
  set_movementInterval (Some (nextTimerId w))
    (set_nextTimerId (Pos.succ (nextTimerId w))
      (set_intervals (intervals w ++ [nextTimerId w]) w)).

(** [clearInterval(id)] *)
Definition clearInterval (id : positive) (w : World) : World :=
  set_intervals (filter (λ j, j ≠ id) (intervals w)) w.

(** [this.socket = new WebSocket(url)] and the assignment of its handlers. *)
Definition connectToServer (w : World) : World :=
  set_socket (Some (length (sockets w))) (set_sockets (sockets w ++ [CONNECTING]) w).

Definition joinGame (w : World) : World :=
  if negb (isConnected w) then w
  else socketSend (JoinGame "Mike") w.

Definition socket_onopen (w : World) : World :=
  joinGame (set_isConnected true w).

Definition socket_onclose (w : World) : World :=
  setTimeout (set_isConnected false w).

(** ** The entity store (lines 366-480) *)

(** The images created for one avatar: an [Image] per frame and direction. *)
Definition newImages (a : avatar) : gmap string (list image) :=
  (λ frames : list string,
     (λ src, {| img_src := src; img_complete := false |}) <$> frames)
    <$> av_frames a.

Definition loadAvatar (avatarName : string) (a : avatar) (w : World) : World :=
  if decide (avatarName ∈ loadedAvatars w) then w
  else set_loadedAvatars ({[avatarName]} ∪ loadedAvatars w)
         (set_avatarImages (<[avatarName := newImages a]> (avatarImages w)) w).

Definition loadAvatarImages (w : World) : World :=
  render 0 (map_fold loadAvatar w (avatars w)).

Definition handleJoinGameSuccess (id : string) (ps : gmap string object)
    (avs : gmap string avatar) (w : World) : World :=
  let w := set_playerId (Some id) w in
  let w := set_players ps w in
  let w := set_avatars avs w in
  let w := set_myPlayer (players w !! propKey (playerId w)) w in
  loadAvatarImages w.

(** The inherited names whose value is a function: all but [__proto__]. *)
Definition inheritedFunction (k : string) : bool :=
  inherited k && negb (String.eqb k "__proto__").

(** One iteration of the loop of [handlePlayersMove]. The existence test
    [if (this.players[playerId])] also succeeds for a name the store only
    inherits: what it finds there is a function, whose spread contributes no
    field, so the assignment stores the supplied fields alone as an own
    property. For [__proto__] the assignment replaces the prototype of the
    store instead and adds no own property. *)
Definition mergePlayer (playerId : string) (fields : object)
    (ps : gmap string object) : gmap string object :=
  match ps !! playerId with
  | Some existing => <[playerId := spread existing fields]> ps
  | None =>
      if inheritedFunction playerId then <[playerId := fields]> ps
      else ps
  end.

Definition handlePlayersMove (moved : gmap string object) (w : World) : World :=
  let w := set_players (map_fold mergePlayer (players w) moved) w in
  let w :=
    match playerId w with
    | Some id =>
        if negb (String.eqb id "") then
          match players w !! id with
          | Some me => set_myPlayer (Some me) w
          | None => w
          end
        else w
    | None => w
    end in
  render 0 w.

Definition handlePlayerJoined (player : object) (av : option avatar) (w : World) : World :=
  let w := set_players (<[idOf player := player]> (players w)) w in
  let w :=
    match av with
    | Some a => set_avatars (<[av_name a := a]> (avatars w)) w
    | None => w
    end in
  render 0 w.

Definition handlePlayerLeft (id : string) (w : World) : World :=
  let w := set_players (delete id (players w)) w in
  let w := set_playerPositions (delete id (playerPositions w)) w in
  let w := set_playerTargets (delete id (playerTargets w)) w in
  render 0 w.

Definition handleServerMessage (message : inmsg) (w : World) : World :=
  match message with
  | JoinGameSuccess id ps avs => handleJoinGameSuccess id ps avs w
  | JoinGameFailure _ => w
  | PlayersMoved moved => handlePlayersMove moved w
  | PlayerJoined player av => handlePlayerJoined player av w
  | PlayerLeft id => handlePlayerLeft id w
  | UnknownAction _ => w
  end.

(** [socket.onmessage]: a payload that [JSON.parse] rejects ([None]) is
    logged and dropped. *)
Definition socket_onmessage (data : option inmsg) (w : World) : World :=
  match data with
  | Some message => handleServerMessage message w
  | None => w
  end.

(** ** Input translation (lines 482-704) *)

Definition keyPriority : list string := ["ArrowUp"; "ArrowDown"; "ArrowLeft"; "ArrowRight"].

Definition keyToDirection : gmap string string :=
  {[ "ArrowUp" := "up"; "ArrowDown" := "down"; "ArrowLeft" := "left"; "ArrowRight" := "right" ]}.

(** [this.keysPressed[key]] as a condition. *)
Definition pressed (w : World) (key : string) : bool :=
  default false (keysPressed w !! key).

Definition sendMoveCommand (key : string) (w : World) : World :=
  if negb (isConnected w) then w
  else
    match keyToDirection !! key with
    | Some direction =>
        if negb (String.eqb direction "") then socketSend (MoveDirection direction) w else w
    | None => w
    end.

(** The [for .. of] loop over the priority list, left at the first hit. *)
Fixpoint sendFirstActive (keys : list string) (w : World) : World :=
  match keys with
  | [] => w
  | key :: rest => if pressed w key then sendMoveCommand key w else sendFirstActive rest w
  end.

Definition sendMoveCommandForActiveKeys (w : World) : World :=
  if negb (isConnected w) then w
  else sendFirstActive keyPriority w.

Definition sendStopCommand (w : World) : World :=
  if negb (isConnected w) then w
  else socketSend Stop w.

Definition startContinuousMovement (w : World) : World :=
  match movementInterval w with
  | Some _ => w
  | None => setMovementInterval (sendMoveCommandForActiveKeys w)
  end.

Definition stopContinuousMovement (w : World) : World :=
  let w :=
    match movementInterval w with
    | Some id => set_movementInterval None (clearInterval id w)
    | None => w
    end in
  sendStopCommand w.

(** [['ArrowUp', 'ArrowDown', 'ArrowLeft', 'ArrowRight'].includes(event.key)] *)
Definition isArrowKey (key : string) : bool := bool_decide (key ∈ keyPriority).

Definition handleKeyDown (key : string) (w : World) : World :=
  if negb (isArrowKey key) then w
  else if pressed w key then w
  else startContinuousMovement (set_keysPressed (<[key := true]> (keysPressed w)) w).

(** [Object.values(this.keysPressed).some(pressed => pressed)] *)
Definition anyKeyPressed (w : World) : bool :=
  existsb snd (map_to_list (keysPressed w)).

Definition handleKeyUp (key : string) (w : World) : World :=
  if negb (isArrowKey key) then w
  else
    let w := set_keysPressed (<[key := false]> (keysPressed w)) w in
    if negb (anyKeyPressed w) then stopContinuousMovement w else w.

(** [switch (event.key.toLowerCase())]: the only keys that lower-case to a
    label are the label itself and, for the letters, its capital. *)
Definition handleKeyboardShortcuts (key : string) (w : World) : World :=
  if bool_decide (key ∈ ["m"; "M"]) then set_showMinimap (negb (showMinimap w)) w
  else if bool_decide (key ∈ ["r"; "R"]) then set_zoomLevel 1.0 w
  else if bool_decide (key ∈ ["+"; "="]) then set_zoomLevel (Qmin (zoomLevel w + 0.2) 3.0) w
  else if bool_decide (key = "-") then set_zoomLevel (Qmax (zoomLevel w - 0.2) 0.5) w
  else w.

(** A click: [event.clientX], [event.clientY] and the canvas' bounding
    rectangle at that moment. *)
Record clickEvent : Type := { clientX : Q; clientY : Q; rectLeft : Q; rectTop : Q }.

(** [Math.max(0, Math.min(v, hi))] on a world coordinate. *)
Definition clampWorld (v hi : Q) : Q := Qmax 0 (Qmin v hi).

Definition handleCanvasClick (ev : clickEvent) (w : World) : World :=
  if negb (isConnected w) || negb (bool_decide (is_Some (myPlayer w))) then w
  else
    let clickX := (clientX ev - rectLeft ev)%Q in
    let clickY := (clientY ev - rectTop ev)%Q in
    let worldX := (clickX / zoomLevel w + px (camera w))%Q in
    let worldY := (clickY / zoomLevel w + py (camera w))%Q in
    let targetX := clampWorld worldX (worldWidth w) in
    let targetY := clampWorld worldY (worldHeight w) in
    socketSend (MoveTo (Qfloor targetX) (Qfloor targetY)) w.

Definition handleMouseWheel (deltaY : Q) (w : World) : World :=
  let w :=
    if negb (Qle_bool 0 deltaY)
    then set_zoomLevel (Qmin (zoomLevel w + 0.1) 3.0) w
    else set_zoomLevel (Qmax (zoomLevel w - 0.1) 0.5) w in
  render 0 w.

Definition resizeCanvas (innerWidth innerHeight : Q) (w : World) : World :=
  let w := set_canvasHeight innerHeight (set_canvasWidth innerWidth w) in
  if worldImage w then render 0 w else w.

(** [this.avatarImages[avatarName][direction][i]] *)
Definition loadingImage (w : World) (avatarName direction : string) (i : nat) : option image :=
  match avatarImages w !! avatarName with
  | Some dirs =>
      match dirs !! direction with
      | Some frames => frames !! i
      | None => None
      end
  | None => None
  end.

(** [img.onload] of an avatar frame: the browser has set [complete]. *)
Definition completeImage (avatarName direction : string) (i : nat) (w : World) : World :=
  set_avatarImages
    (alter (alter (alter (λ img, {| img_src := img_src img; img_complete := true |}) i)
       direction) avatarName (avatarImages w)) w.

(** ** The client as a transition system *)

(** The state [new GameClient()] leaves behind (constructor and [init],
    lines 3-84) in a window of the given inner size: no frame has been
    drawn, the world image is being loaded and the first socket is
    connecting. *)
Definition constructed : World :=
  {| canvasWidth := 0; canvasHeight := 0; worldImage := false;
     worldWidth := 2048; worldHeight := 2048; socket := None; isConnected := false;
     playerId := None; players := ∅; avatars := ∅; myPlayer := None;
     avatarImages := ∅; loadedAvatars := ∅; camera := {| px := 0; py := 0 |};
     keysPressed :=
       {[ "ArrowUp" := false; "ArrowDown" := false; "ArrowLeft" := false; "ArrowRight" := false ]};
     movementInterval := None; animationTimer := 0; lastFrameTime := 0;
     playerPositions := ∅; playerTargets := ∅; showMinimap := true;
     zoomLevel := 1.0; cameraEasing := 0.1;
     sockets := []; timeouts := []; intervals := []; nextTimerId := 1;
     sent := [] |}.

Definition init (innerWidth innerHeight : Q) : World :=
  connectToServer (set_worldImage true (resizeCanvas innerWidth innerHeight constructed)).

(** The callbacks the browser may run. *)
Inductive event : Type :=
| Frame (currentTime : Q)                       (* requestAnimationFrame *)
| Resize (innerWidth innerHeight : Q)
| WorldImageLoad
| AvatarImageLoad (avatarName direction : string) (i : nat)
| KeyDown (key : string)
| KeyUp (key : string)
| Click (ev : clickEvent)
| Wheel (deltaY : Q)
| SocketOpen (s : nat)
| SocketMessage (s : nat) (data : option inmsg)
| SocketError (s : nat)
| SocketClose (s : nat)
| TimeoutFire (id : positive)                   (* the reconnect delay elapsed *)
| IntervalFire (id : positive).                 (* the 100 ms movement repeat *)

Definition setReadyState (s : nat) (r : readyState) (w : World) : World :=
  set_sockets (<[s := r]> (sockets w)) w.

(** One callback, run to completion; [None] when the browser cannot deliver
    the event in this state: a frame's timestamp is not negative, a socket
    opens once, receives only while open and closes once, and a timer fires
    only while it is pending. *)
Definition dispatch (w : World) (e : event) : option World :=
  match e with
  | Frame t => if Qle_bool 0 t then Some (render t w) else None
  | Resize iw ih => Some (resizeCanvas iw ih w)
  | WorldImageLoad => Some (render 0 w)
  | AvatarImageLoad a d i =>
      match loadingImage w a d i with
      | Some _ => Some (render 0 (completeImage a d i w))
      | None => None
      end
  | KeyDown key => Some (handleKeyboardShortcuts key (handleKeyDown key w))
  | KeyUp key => Some (handleKeyUp key w)
  | Click ev => Some (handleCanvasClick ev w)
  | Wheel dy => Some (handleMouseWheel dy w)
  | SocketOpen s =>
      match sockets w !! s with
      | Some CONNECTING => Some (socket_onopen (setReadyState s OPEN w))
      | _ => None
      end
  | SocketMessage s data =>
      match sockets w !! s with
      | Some OPEN => Some (socket_onmessage data w)
      | _ => None
      end
  | SocketError s =>
      match sockets w !! s with
      | Some CONNECTING | Some OPEN => Some w
      | _ => None
      end
  | SocketClose s =>
      match sockets w !! s with
      | Some CONNECTING | Some OPEN => Some (socket_onclose (setReadyState s CLOSED w))
      | _ => None
      end
  | TimeoutFire id =>
      if bool_decide (id ∈ timeouts w)
      then Some (connectToServer (set_timeouts (filter (λ j, j ≠ id) (timeouts w)) w))
      else None
  | IntervalFire id =>
      if bool_decide (id ∈ intervals w)
      then Some (sendMoveCommandForActiveKeys w)
      else None
  end.

(** A sequence of callbacks, each one run to completion before the next. *)
Fixpoint run (w : World) (es : list event) : option World :=
  match es with
  | [] => Some w
  | e :: es => w' ← dispatch w e; run w' es
  end.

(** The states the client can be in, in a window of any size. *)
Definition reachable (w : World) : Prop :=
  ∃ iw ih es, run (init iw ih) es = Some w.

(** ** What a frame draws besides the players (lines 183-203, 288-316, 783-801, 833-879) *)



(** A filled circle: centre, radius, and whether it is drawn in the colour of
    the local player. *)
Record circle : Type := { circleX : Q; circleY : Q; radius : Q; isLocal : bool }.

(** The trails: one circle per interpolation record whose entity is in the
    store and moving, keyed by the id. *)
Definition drawVisualEffects (w : World) : gmap string circle :=
  map_imap
    (λ playerId pos,
       match players w !! playerId with
       | Some player =>
           if truthy (player !! "isMoving")
           then Some {| circleX := px pos - px (camera w); circleY := py pos - py (camera w);
                        radius := 8; isLocal := isLocalPlayer w player |}
           else None
       | None => None
       end)
    (playerPositions w).

(** [drawPlayers]: what is drawn for each entity of the store. *)
Definition drawPlayers (w : World) : gmap string drawn := drawPlayer w <$> players w.





(** [drawUsernames] (lines 288-316): the label of each entity whose stored
    position is within 100 pixels of the canvas, 40 pixels above it. *)
Record label : Type := { text : option jsval; labelX : Q; labelY : Q }.

Definition drawUsernames (w : World) : gmap string label :=
  omap
    (λ player,
       let screenX := (toNum (player !! "x") - px (camera w))%Q in
       let screenY := (toNum (player !! "y") - py (camera w))%Q in
       let lt a b := negb (Qle_bool b a) in
       if lt screenX (- (100))%Q || lt (canvasWidth w + 100)%Q screenX
          || lt screenY (- (100))%Q || lt (canvasHeight w + 100)%Q screenY
       then None
       else Some {| text := player !! "username"; labelX := screenX;
                    labelY := screenY - 40 |})
    (players w).

(** ** The earlier revision of the class (lines 887-1413) *)

(** The same file carries the revision the enhanced class grew out of. Its
    camera does not ease and knows no zoom: it snaps to the local player's
    stored position. *)
Module Legacy.

Definition updateCamera (w : World) : World :=
  match myPlayer w with
  | None => w
  | Some me =>
      let camX := (toNum (me !! "x") - canvasWidth w / 2)%Q in
      let camY := (toNum (me !! "y") - canvasHeight w / 2)%Q in
      set_camera
        {| px := Qmax 0 (Qmin camX (worldWidth w - canvasWidth w));
           py := Qmax 0 (Qmin camY (worldHeight w - canvasHeight w)) |} w
  end.

End Legacy.

(** ** The numeric expressions over any arithmetic, and in binary64 *)

(** The expressions whose rounding matters, written once over an arbitrary
    arithmetic. The handlers above are their instances over [Q] (lemmas
    [updateCameraSmooth_axis], [handleCanvasClick_axis], [wheel_zoom],
    [render_clock]); the definitions that follow evaluate them in IEEE
    binary64, the arithmetic the class runs on. *)
Section Expressions.
Context {N : Type} (add sub mul div max min : N → N → N).

(** One axis of [updateCameraSmooth]: the target that centres [pos], the
    easing step, and the clamp to [[0, world - visible]]. *)
Definition cameraAxisWith (zero two cam pos canvas zoom world easing : N) : N :=
  let target := sub pos (div (div canvas zoom) two) in
  let eased := add cam (mul (sub target cam) easing) in
  let maxv := sub world (div canvas zoom) in
  max zero (min eased maxv).

(** One axis of [handleCanvasClick], before [Math.floor]. *)
Definition clickAxisWith (zero client edge zoom cam world : N) : N :=
  max zero (min (add (div (sub client edge) zoom) cam) world).

(** [Math.min(this.zoomLevel + step, top)], [Math.max(this.zoomLevel - step, bottom)] *)
Definition zoomInWith (step top z : N) : N := min (add z step) top.

Definition zoomOutWith (step bottom z : N) : N := max (sub z step) bottom.

(** [this.animationTimer += currentTime - this.lastFrameTime] *)
Definition clockWith (timer last currentTime : N) : N := add timer (sub currentTime last).
End Expressions.

Module Binary64.

(** [Math.max] and [Math.min] (the sign of a zero is not looked at). *)
Definition max (a b : float) : float :=
  if is_nan a || is_nan b then nan else if (a <? b)%float then b else a.

Definition min (a b : float) : float :=
  if is_nan a || is_nan b then nan else if (b <? a)%float then b else a.

(** The value of a finite binary64, [m * 2^e], as an integer numerator. *)
Definition signed (s : bool) (m : positive) : Z := if s then Z.neg m else Z.pos m.

(** [Math.floor], where the result is a number. *)
Definition floor (x : float) : option Z :=
  match Prim2SF x with
  | S754_zero _ => Some 0%Z
  | S754_finite s m e =>
      Some (if (0 <=? e)%Z then signed s m * 2 ^ e else signed s m / 2 ^ (- e))%Z
  | S754_infinity _ | S754_nan => None
  end.


Definition cameraAxis (cam pos canvas zoom world easing : float) : float :=
  cameraAxisWith PrimFloat.add PrimFloat.sub PrimFloat.mul PrimFloat.div max min
    0%float 2%float cam pos canvas zoom world easing.

(** The coordinate [handleCanvasClick] sends. *)
Definition clickAxis (client edge zoom cam world : float) : option Z :=
  floor (clickAxisWith PrimFloat.add PrimFloat.sub PrimFloat.div max min
           0%float client edge zoom cam world).


Definition zoomOut (z : float) : float := zoomOutWith PrimFloat.sub max 0.1%float 0.5%float z.

Definition clock (timer last currentTime : float) : float :=
  clockWith PrimFloat.add PrimFloat.sub timer last currentTime.

(** [Math.floor(this.animationTimer / 200) % 3] for a moving entity; [%]
    truncates like [Z.rem]. *)
Definition animationFrame (timer : float) : option Z :=
  (λ elapsed, Z.rem elapsed 3) <$> floor (timer / 200)%float.

End Binary64.

(** The exact instances. *)
Definition cameraAxis (cam pos canvas zoom world easing : Q) : Q :=
  cameraAxisWith Qplus Qminus Qmult Qdiv Qmax Qmin 0 2 cam pos canvas zoom world easing.

Definition clickAxis (client edge zoom cam world : Q) : Z :=
  Qfloor (clickAxisWith Qplus Qminus Qdiv Qmax Qmin 0 client edge zoom cam world).

(** ** Auxiliary definitions used in the statements below *)

(** *** Views: groups of fields that handlers leave alone *)

(** The fields a frame does not write. *)
Definition outsideFrame (w : World) :=
  (canvasWidth w, canvasHeight w, worldImage w, worldWidth w, worldHeight w,
   socket w, isConnected w, playerId w, players w, avatars w, myPlayer w,
   avatarImages w, loadedAvatars w, keysPressed w, movementInterval w,
   showMinimap w, zoomLevel w, cameraEasing w,
   sockets w, timeouts w, intervals w, nextTimerId w, sent w).

(** The timer resources and the one handle the client keeps. *)
Definition timerView (w : World) :=
  (sockets w, timeouts w, intervals w, movementInterval w).

(** The fields the viewport arithmetic reads besides the canvas size. *)
Definition viewportView (w : World) :=
  (worldImage w, worldWidth w, worldHeight w, cameraEasing w, zoomLevel w).

(** The connection state. *)
Definition connView (w : World) := (isConnected w, socket w, sockets w, timeouts w).

(** The interpolation records. *)
Definition interpView (w : World) := (playerPositions w, playerTargets w).

(** The animation clock. *)
Definition animView (w : World) := (animationTimer w, lastFrameTime w).

(** [w'] differs from [w] in none of the last four, nor in the entity store. *)
Definition quiet (w w' : World) : Prop :=
  viewportView w' = viewportView w ∧ connView w' = connView w ∧
  interpView w' = interpView w ∧ players w' = players w ∧
  animView w' = animView w.

(** *** Invariants of the reachable states *)

#[global] Instance readyState_eq_dec : EqDecision readyState.
Proof. solve_decision. Defined.

(** The sockets that have not closed yet. *)
Definition liveSockets (w : World) : nat :=
  length (filter (λ r, r ≠ CLOSED) (sockets w)).

(** The movement-repeat timers are exactly the one the handle names, and
    there is either one socket that has not closed or one reconnect timer. *)
Definition timersInv (w : World) : Prop :=
  intervals w = option_list (movementInterval w) ∧
  (liveSockets w + length (timeouts w) = 1)%nat.

(** [this.socket] is the socket created last, every earlier socket has
    closed, the session is flagged connected only while that socket is
    open, and a reconnect timer is pending only once it has closed. *)
Definition connInv (w : World) : Prop :=
  ∃ s, socket w = Some s ∧ length (sockets w) = S s ∧
       (∀ i, (i < s)%nat → sockets w !! i = Some CLOSED) ∧
       (isConnected w = true → sockets w !! s = Some OPEN) ∧
       (timeouts w ≠ [] → sockets w !! s = Some CLOSED).

(** The zoom stays within its limits and the world, the easing factor and
    the world image are what the constructor and [init] made them. *)
Definition viewInv (w : World) : Prop :=
  worldImage w = true ∧
  (1 # 2 <= zoomLevel w <= 3 ∧ worldWidth w == 2048 ∧ worldHeight w == 2048 ∧
   cameraEasing w == 1 # 10)%Q.

(** The animation timer is the timestamp of the last frame, and not negative. *)
Definition animInv (w : World) : Prop :=
  (animationTimer w == lastFrameTime w ∧ 0 <= lastFrameTime w)%Q.

(** An entity with a drawn position has a target, and conversely. *)
Definition keysAgree (w : World) : Prop :=
  ∀ id, is_Some (playerPositions w !! id) ↔ is_Some (playerTargets w !! id).

(** No interpolation record without an entity. *)
Definition noDangling (w : World) : Prop :=
  ∀ id, players w !! id = None →
        playerPositions w !! id = None ∧ playerTargets w !! id = None.

(** *** Interpolation *)

(** What one frame does to the interpolation record of a player that is in
    the store: the pair ([playerPositions[id]], [playerTargets[id]]) after
    the iteration of that player. *)
Definition interpolateEntry (player : object) (e : option point * option point)
    : option point * option point :=
  let p := positionOf player in
  match e.1, e.2 with
  | None, _ => (Some (lerpPoint p p), Some p)
  | Some c, None => (Some c, None)
  | Some c, Some t =>
      let t' := if pointDiffers t p then p else t in
      (Some (lerpPoint c t'), Some t')
  end.

(** [x] lies between [a] and [b], whichever is the larger. *)
Definition between (a b x : Q) : Prop := (a <= x <= b ∨ b <= x <= a)%Q.

(** Squared Euclidean distance of two points. *)
Definition dist2 (a b : point) : Q :=
  ((px a - px b) * (px a - px b) + (py a - py b) * (py a - py b))%Q.

(** [next] is one exact step from [current] toward [target]: the offset to
    the target shrinks by the factor 0.85 on each axis, the distance
    strictly decreases wherever it is not zero, and [next] does not pass
    the target. *)
Definition stepsToward (current target next : point) : Prop :=
  (px target - px next == (85 # 100) * (px target - px current))%Q ∧
  (py target - py next == (85 # 100) * (py target - py current))%Q ∧
  (¬ px current == px target →
     Qabs (px next - px target) < Qabs (px current - px target))%Q ∧
  (¬ py current == py target →
     Qabs (py next - py target) < Qabs (py current - py target))%Q ∧
  (¬ (px current == px target ∧ py current == py target) →
     dist2 next target < dist2 current target)%Q ∧
  between (px current) (px target) (px next) ∧
  between (py current) (py target) (py next).

(** In binary64: is one step from [current] strictly closer to [target]? *)
Definition closer64 (current target : float) : bool :=
  (abs (lerp64 current target - target) <? abs (current - target))%float.

(** *** Camera *)

(** Frames drawn in a row, at the given timestamps. *)
Definition frames (ts : list Q) (w : World) : World :=
  fold_left (λ w t, render t w) ts w.

(** [visibleWidth = canvasWidth / zoom], and the same for the height. *)
Definition visibleWidth (w : World) : Q := (canvasWidth w / zoomLevel w)%Q.

Definition visibleHeight (w : World) : Q := (canvasHeight w / zoomLevel w)%Q.

(** The top-left corner of the viewport that has [p] at its centre. *)
Definition centreOn (w : World) (p : point) : point :=
  {| px := px p - visibleWidth w / 2; py := py p - visibleHeight w / 2 |}.

(** Easing a coordinate [c] toward [t] by the factor [e]. *)
Definition easeToward (e c t : Q) : Q := (c + (t - c) * e)%Q.


(** The position the camera follows: the local player's interpolated one,
    or its stored one while no interpolation record exists. *)
Definition followed (w : World) (me : object) : point :=
  default (positionOf me) (playerPositions w !! propKey (playerId w)).

(** (9/10)^n *)
Fixpoint decay (n : nat) : Q :=
  match n with
  | O => 1
  | S n => ((9 # 10) * decay n)%Q
  end.

(** Zoom 1, an 800x600 viewport on the 2048x2048 world, easing 0.1. *)
Definition standardView (w : World) : Prop :=
  (canvasWidth w == 800 ∧ canvasHeight w == 600 ∧ zoomLevel w == 1 ∧
   worldWidth w == 2048 ∧ worldHeight w == 2048 ∧ cameraEasing w == 1 # 10)%Q.

(** *** Input *)

(** The direction of the highest-priority pressed key, in the fixed order
    Up > Down > Left > Right (the wording of the specification). *)
Definition priorityDirection (up down left right : bool) : option string :=
  if up then Some "up"
  else if down then Some "down"
  else if left then Some "left"
  else if right then Some "right"
  else None.


(** *** Sample entities, states and runs *)

Definition peer (id : string) (x y : Q) : object :=
  {[ "id" := JStr id; "x" := JNum x; "y" := JNum y; "username" := JStr id ]}.

(** A moving entity whose store position is (100, 40), and a state in which
    its drawn position is still on its way there. *)
Definition walker : object :=
  {[ "id" := JStr "a"; "x" := JNum 100; "y" := JNum 40; "isMoving" := JBool true ]}.

Definition walking : World :=
  set_playerTargets {[ "a" := {| px := 100; py := 40 |} ]}
    (set_playerPositions {[ "a" := {| px := 0; py := 40 |} ]}
      (set_players {[ "a" := walker ]} (init 800 600))).

(** A session that joins with two peers in the world, loses its connection
    and joins again after the second peer has left in the meantime. *)
Definition rejoin : list event :=
  [ SocketOpen 0;
    SocketMessage 0 (Some (JoinGameSuccess "p1"
      {[ "p1" := peer "p1" 100 200; "p2" := peer "p2" 10 20 ]} ∅));
    Frame 16;
    SocketClose 0;
    TimeoutFire 1;
    SocketOpen 1;
    SocketMessage 1 (Some (JoinGameSuccess "p1" {[ "p1" := peer "p1" 100 200 ]} ∅));
    Frame 3200 ].

(** Up is pressed, then Left as well; the repeat timer fires twice; Up is
    released; the timer fires again. *)
Definition upThenLeft : list event :=
  [ SocketOpen 0; KeyDown "ArrowUp"; KeyDown "ArrowLeft"; IntervalFire 1;
    IntervalFire 1; KeyUp "ArrowUp"; IntervalFire 1 ].

(** A session that has joined as [me], drawn a frame, and zoomed in by two
    wheel notches. *)
Definition joining : list event :=
  [ SocketOpen 0;
    SocketMessage 0 (Some (JoinGameSuccess "me" {[ "me" := peer "me" 1000 700 ]} ∅));
    Frame 16; Wheel (-1); Wheel (-1) ].

Definition playing : World := default (init 800 600) (run (init 800 600) joining).

(** A loaded avatar, and a peer that faces west wearing it. *)
Definition knightImages : gmap string (gmap string (list image)) :=
  {[ "knight" := {[ "east" := [ {| img_src := "e0.png"; img_complete := true |} ] ]} ]}.

Definition westward : object :=
  {[ "id" := JStr "p3"; "x" := JNum 100; "y" := JNum 100; "facing" := JStr "west";
     "avatar" := JStr "knight" ]}.

(** *** Further views and invariants *)

(** The fields no server message writes. *)
Definition outsideStore (w : World) :=
  (canvasWidth w, canvasHeight w, worldImage w, worldWidth w, worldHeight w,
   socket w, isConnected w, keysPressed w, movementInterval w, showMinimap w,
   zoomLevel w, cameraEasing w, sockets w, timeouts w, intervals w, nextTimerId w,
   sent w).

(** The input state. *)
Definition inputView (w : World) := (keysPressed w, movementInterval w).

(** Only directional keys are ever recorded as pressed, and the movement
    repeat is armed exactly while one of them is. *)
Definition inputInv (w : World) : Prop :=
  (∀ key, pressed w key = true → key ∈ keyPriority) ∧
  (is_Some (movementInterval w) ↔ ∃ key, pressed w key = true).

(** The directions of the wire protocol. *)
Definition directions : list string := ["up"; "down"; "left"; "right"].

(** The session is open and ArrowUp is being held. *)
Definition holdingUp : World :=
  default (init 800 600) (run (init 800 600) [SocketOpen 0; KeyDown "ArrowUp"]).

(** The session has just opened: the join request is out, nothing else has
    happened. *)
Definition idle : World := default (init 800 600) (run (init 800 600) [SocketOpen 0]).

(** What a callback may hand to the socket: the join request when the socket
    opens, a move in one of the four directions on a key-down or a tick of
    the repeat timer, a stop on a key-up, a move to a point on a click. *)
Definition emits (e : event) (message : outmsg) : Prop :=
  match e, message with
  | SocketOpen _, JoinGame username => username = "Mike"
  | KeyDown _, MoveDirection direction | IntervalFire _, MoveDirection direction =>
      direction ∈ directions
  | KeyUp _, Stop => True
  | Click _, MoveTo _ _ => True
  | _, _ => False
  end.

(** What the client knows of the game and of the keyboard. *)
Definition sessionView (w : World) :=
  (playerId w, players w, avatars w, myPlayer w, avatarImages w, loadedAvatars w,
   playerPositions w, playerTargets w, camera w, keysPressed w, movementInterval w,
   intervals w).

(** (85/100)^n, what [n] interpolation steps leave of an offset. *)
Fixpoint remaining (n : nat) : Q :=
  match n with
  | O => 1
  | S n => ((85 # 100) * remaining n)%Q
  end.

(** The two points have the same coordinates. *)
Definition samePoint (a b : point) : Prop := (px a == px b ∧ py a == py b)%Q.

(** Two partial updates folded into one: for an entity both name, the fields
    of the second laid over those of the first. *)
Definition mergeUpdates (first second : gmap string object) : gmap string object :=
  union_with (λ fields later, Some (spread fields later)) first second.








(** The position [drawPlayer] draws an entity at. *)
Definition drawnAt (w : World) (player : object) : point :=
  default (positionOf player) (playerPositions w !! idOf player).

(** *** Plain sessions *)

(** No key of the dictionary is a name inherited from [Object.prototype]. *)
Definition plainKeys {A} (m : gmap string A) : bool :=
  forallb (λ k, negb (bool_decide (is_Some (m !! k)))) inheritedNames.

(** The ids and avatar names a message files something under are not
    inherited names. *)
Definition plainMessage (message : inmsg) : bool :=
  match message with
  | JoinGameSuccess id ps avs => negb (inherited id) && plainKeys ps && plainKeys avs
  | PlayersMoved moved => plainKeys moved
  | PlayerJoined player av =>
      negb (inherited (idOf player)) &&
      match av with
      | Some a => negb (inherited (av_name a))
      | None => true
      end
  | JoinGameFailure _ | PlayerLeft _ | UnknownAction _ => true
  end.

Definition plainEvent (e : event) : bool :=
  match e with
  | SocketMessage _ (Some message) => plainMessage message
  | _ => true
  end.

(** The states of the sessions in which no server message names an entity
    or an avatar after a property of [Object.prototype]. *)
Definition plainSession (w : World) : Prop :=
  ∃ iw ih es, forallb plainEvent es = true ∧ run (init iw ih) es = Some w.

(** An update for an id the store does not hold, named after an inherited
    function. *)
Definition hijack : gmap string object := {[ "toString" := {[ "x" := JNum 1 ]} ]}.

(** A state that holds one entity, [alice]. *)
Definition alice : object :=
  {[ "id" := JStr "a"; "x" := JNum 10; "y" := JNum 20; "username" := JStr "alice" ]}.

Definition withAlice : World := set_players {[ "a" := alice ]} (init 800 600).

(** An update for [alice] and for an id the store does not hold. *)
Definition westbound : gmap string object :=
  {[ "a" := {[ "x" := JNum 15 ]}; "b" := {[ "x" := JNum 1 ]} ]}.

(** *** A standing player *)

(** The local player stands at ([X], [Y]): those are the numbers the store
    holds as its coordinates. It has interpolation records, wherever they
    are, and frames are being drawn. *)
Definition standingAt (w : World) (X Y : Q) : Prop :=
  worldImage w = true ∧
  ∃ id me player current target x y,
    playerId w = Some id ∧ myPlayer w = Some me ∧
    players w !! id = Some player ∧
    playerPositions w !! id = Some current ∧
    playerTargets w !! id = Some target ∧
    player !! "x" = Some (JNum x) ∧ player !! "y" = Some (JNum y) ∧
    (x == X ∧ y == Y)%Q.

(** The drawn position of the local player. *)
Definition localDrawn (w : World) : point :=
  default {| px := 0; py := 0 |} (playerPositions w !! propKey (playerId w)).

(** How far the camera is from [goal] on one axis, plus twice the distance
    the drawn position still has to go: the quantity every frame shrinks. *)
Definition lag (cam goal drawn stored : Q) : Q :=
  (Qabs (cam - goal) + 2 * Qabs (stored - drawn))%Q.

(** The local player joins at (400, 1700), is drawn, and is then moved by
    the server to (1000, 2000), where it stays. *)
Definition arrival : list event :=
  [ SocketOpen 0;
    SocketMessage 0 (Some (JoinGameSuccess "me" {[ "me" := peer "me" 400 1700 ]} ∅));
    Frame 16;
    SocketMessage 0 (Some (PlayersMoved {[ "me" := {[ "x" := JNum 1000; "y" := JNum 2000 ]} ]})) ].

Definition arriving : World := default (init 800 600) (run (init 800 600) arrival).

(** The fields of the object itself, without the resources of the browser:
    whatever the class remembers is in here. *)
Definition thisView (w : World) :=
  (canvasWidth w, canvasHeight w, worldImage w, worldWidth w, worldHeight w,
   socket w, isConnected w, playerId w, players w, avatars w, myPlayer w,
   avatarImages w, loadedAvatars w, camera w, keysPressed w, movementInterval w,
   animationTimer w, lastFrameTime w, playerPositions w, playerTargets w,
   showMinimap w, zoomLevel w, cameraEasing w).

(** Two peers have joined and a frame has been drawn. *)
Definition crowd : list event :=
  [ SocketOpen 0;
    SocketMessage 0 (Some (JoinGameSuccess "p1"
      {[ "p1" := peer "p1" 100 200; "p2" := peer "p2" 10 20 ]} ∅));
    Frame 16 ].

Definition crowded : World := default (init 800 600) (run (init 800 600) crowd).

(** The first socket has closed and the second one has opened. *)
Definition reconnection : list event :=
  [ SocketOpen 0; SocketClose 0; TimeoutFire 1; SocketOpen 1 ].

Definition reconnected : World := default (init 800 600) (run (init 800 600) reconnection).

(** The local player has joined while walking. *)
Definition stroll : list event :=
  [ SocketOpen 0;
    SocketMessage 0 (Some (JoinGameSuccess "a" {[ "a" := walker ]} ∅)) ].

Definition strolling : World := default (init 800 600) (run (init 800 600) stroll).

(** The fields of the class that hold the id of a timer: [movementInterval]
    is the only one (constructor, lines 3-58). *)
Definition timerHandles (w : World) : list (option positive) := [movementInterval w].

(** * Properties *)

(** ** Tactics *)

Ltac minmax_step a b spec op :=
  let H := fresh "Hm" in
  let m := fresh "m" in
  pose proof (spec a b) as H; set (m := op a b) in *; clearbody m.

(** Replaces every [Qmin] and [Qmax] by a variable with its specification. *)
Ltac minmax :=
  repeat match goal with
  | |- context [Qmin ?a ?b] => minmax_step a b Q.min_spec Qmin
  | _ : context [Qmin ?a ?b] |- _ => minmax_step a b Q.min_spec Qmin
  | |- context [Qmax ?a ?b] => minmax_step a b Q.max_spec Qmax
  | _ : context [Qmax ?a ?b] |- _ => minmax_step a b Q.max_spec Qmax
  end.

(** ** Property keys *)

Example keyOf_examples :
  keyOf (Some (JStr "p7")) = "p7" ∧ keyOf (Some (JNum 7)) = "7" ∧
  keyOf (Some (JNum (-3))) = "-3" ∧ keyOf None = "undefined" ∧ keyOf (Some JNull) = "null" ∧
  inherited "toString" = true ∧ inherited "p7" = false.
Proof. by vm_compute. Qed.

(** ** Rendering leaves the store, the input state and the host alone *)

Lemma interpolatePlayer_lookup id player acc j :
  ((interpolatePlayer id player acc).1 !! j, (interpolatePlayer id player acc).2 !! j) =
  if decide (j = id) then interpolateEntry player (acc.1 !! id, acc.2 !! id)
  else (acc.1 !! j, acc.2 !! j).
Proof.
  destruct acc as [pos tgt]. unfold interpolatePlayer, interpolateEntry.
  cbn [fst snd].
  destruct (pos !! id) as [c|] eqn:Hc.
  - destruct (tgt !! id) as [t|] eqn:Ht.
    + destruct (pointDiffers t (positionOf player)).
      * rewrite Hc, lookup_insert_eq. cbn [fst snd]. case_decide; subst.
        -- by rewrite !lookup_insert_eq.
        -- by rewrite !lookup_insert_ne.
      * rewrite Hc, Ht. cbn [fst snd]. case_decide; subst.
        -- by rewrite lookup_insert_eq, Ht.
        -- by rewrite lookup_insert_ne.
    + cbn [fst snd]. case_decide; subst; by rewrite ?Hc, ?Ht.
  - rewrite !lookup_insert_eq.
    assert (pointDiffers (positionOf player) (positionOf player) = false) as ->.
    { unfold pointDiffers. by rewrite !Qeq_bool_refl. }
    rewrite !lookup_insert_eq. cbn [fst snd]. case_decide; subst.
    + by rewrite !lookup_insert_eq.
    + by rewrite !lookup_insert_ne.
Qed.

Lemma interpolation_fold_lookup (ps : gmap string object) (pos tgt : gmap string point) j :
  let r := map_fold interpolatePlayer (pos, tgt) ps in
  (r.1 !! j, r.2 !! j) =
  match ps !! j with
  | Some player => interpolateEntry player (pos !! j, tgt !! j)
  | None => (pos !! j, tgt !! j)
  end.
Proof.
  cbv zeta. revert j.
  apply (map_fold_weak_ind (λ r m, ∀ j, (r.1 !! j, r.2 !! j) =
    match m !! j with
    | Some player => interpolateEntry player (pos !! j, tgt !! j)
    | None => (pos !! j, tgt !! j)
    end)).
  - intros j. by rewrite lookup_empty.
  - intros i player m r Hi IH j. rewrite interpolatePlayer_lookup.
    case_decide as Hj.
    + subst j. rewrite lookup_insert_eq.
      specialize (IH i). rewrite Hi in IH. by inversion IH.
    + rewrite lookup_insert_ne by done. apply IH.
Qed.

Lemma updatePlayerInterpolation_lookup dt w j :
  let w' := updatePlayerInterpolation dt w in
  (playerPositions w' !! j, playerTargets w' !! j) =
  match players w !! j with
  | Some player => interpolateEntry player (playerPositions w !! j, playerTargets w !! j)
  | None => (playerPositions w !! j, playerTargets w !! j)
  end.
Proof. apply interpolation_fold_lookup. Qed.

Lemma render_outsideFrame t w : outsideFrame (render t w) = outsideFrame w.
Proof.
  unfold render, updateCameraSmooth, updatePlayerInterpolation.
  cbn. destruct (worldImage w); cbn; [|done].
  by destruct (myPlayer w).
Qed.

Ltac frame_of lem :=
  let H := fresh "Hframe" in
  pose proof lem as H; unfold outsideFrame in H; simplify_eq; congruence.

Lemma render_players t w : players (render t w) = players w.
Proof. frame_of (render_outsideFrame t w). Qed.

(** ** The entity store: partial move updates *)


Lemma mergePlayer_fold_lookup (moved ps : gmap string object) (id : string) :
  map_fold mergePlayer ps moved !! id =
  match ps !! id, moved !! id with
  | Some existing, Some fields => Some (spread existing fields)
  | None, Some fields => if inheritedFunction id then Some fields else None
  | o, None => o
  end.
Proof.
  revert id.
  apply (map_fold_weak_ind (λ r m, ∀ id, r !! id =
    match ps !! id, m !! id with
    | Some existing, Some fields => Some (spread existing fields)
    | None, Some fields => if inheritedFunction id then Some fields else None
    | o, None => o
    end)).
  - intros id. rewrite lookup_empty. by destruct (ps !! id).
  - intros i fields m r Hi IH id. unfold mergePlayer.
    pose proof (IH i) as IHi. rewrite Hi in IHi.
    destruct (decide (id = i)) as [->|Hne].
    + rewrite lookup_insert_eq. rewrite IHi.
      destruct (ps !! i) as [existing|] eqn:Hps.
      * by rewrite lookup_insert_eq.
      * destruct (inheritedFunction i); [by rewrite lookup_insert_eq|done].
    + rewrite (lookup_insert_ne m) by done. rewrite IHi.
      destruct (ps !! i); [rewrite lookup_insert_ne by done; apply IH|].
      destruct (inheritedFunction i); [rewrite lookup_insert_ne by done|]; apply IH.
Qed.

Lemma handlePlayersMove_players moved w :
  players (handlePlayersMove moved w) = map_fold mergePlayer (players w) moved.
Proof.
  unfold handlePlayersMove. rewrite render_players. cbn.
  destruct (playerId w) as [id|]; [|done].
  destruct (negb (String.eqb id "")); [|done].
  by destruct (map_fold mergePlayer (players w) moved !! id).
Qed.



(** C1, the failing run: the socket opens and the server sends a
    [players_moved] update whose only id is [toString], an id the store does
    not hold. The existence test of the merge finds the function every
    object inherits under that name, and the update creates the entity. *)
Theorem inherited_name_update_creates_entity :
  ∃ w w',
    run (init 800 600) [SocketOpen 0] = Some w ∧
    dispatch w (SocketMessage 0 (Some (PlayersMoved hijack))) = Some w' ∧
    players w !! "toString" = None ∧
    players w' !! "toString" = Some {[ "x" := JNum 1 ]} ∧
    ¬ (∀ id, hijack !! id ≠ None → players w !! id = None → players w' !! id = None).
Proof.
  eexists _, _. split; [vm_compute; reflexivity|].
  split; [vm_compute; reflexivity|].
  split; [by vm_compute|]. split; [by vm_compute|].
  intros H. specialize (H "toString"). vm_compute in H.
  by discriminate H.
Qed.



Example handlePlayersMove_example :
  let w' := handlePlayersMove westbound withAlice in
  (players w' !! "a") ≫= (.!! "x") = Some (JNum 15) ∧
  (players w' !! "a") ≫= (.!! "username") = Some (JStr "alice") ∧
  players w' !! "b" = None.
Proof. vm_compute. done. Qed.

(** ** Interpolation toward a fixed target *)

Lemma lerp_offset (current target : Q) :
  (target - lerp current target == (85 # 100) * (target - current))%Q.
Proof. unfold lerp, lerpWith. ring. Qed.

Lemma lerp_closer (current target : Q) :
  (¬ current == target → Qabs (lerp current target - target) < Qabs (current - target))%Q.
Proof.
  intros Hne. pose proof (lerp_offset current target) as Hoff.
  apply Qabs_case; intros H1; apply Qabs_case; intros H2; lra.
Qed.

Lemma lerp_between (current target : Q) : between current target (lerp current target).
Proof.
  pose proof (lerp_offset current target) as Hoff. unfold between.
  destruct (Qlt_le_dec current target); [left|right]; lra.
Qed.

Lemma lerpPoint_dist2 (current target : point) :
  (dist2 (lerpPoint current target) target == (7225 # 10000) * dist2 current target)%Q.
Proof. unfold dist2, lerpPoint, lerp, lerpWith. cbn. ring. Qed.

Lemma square_pos (d : Q) : (¬ d == 0 → 0 < d * d)%Q.
Proof.
  intros Hne. destruct (Qlt_le_dec d 0) as [Hneg|Hpos].
  - assert (d * d == (- d) * (- d))%Q as -> by ring.
    apply Qmult_lt_0_compat; lra.
  - apply Qmult_lt_0_compat; lra.
Qed.

Lemma square_nonneg (d : Q) : (0 <= d * d)%Q.
Proof.
  destruct (Qeq_dec d 0) as [E|N].
  - rewrite E. lra.
  - apply Qlt_le_weak, square_pos, N.
Qed.

Lemma dist2_pos (a b : point) :
  (¬ (px a == px b ∧ py a == py b) → 0 < dist2 a b)%Q.
Proof.
  intros Hne. unfold dist2.
  pose proof (square_nonneg (px a - px b)) as Hx.
  pose proof (square_nonneg (py a - py b)) as Hy.
  destruct (Qeq_dec (px a) (px b)) as [Ex|Nx].
  - destruct (Qeq_dec (py a) (py b)) as [Ey|Ny]; [tauto|].
    assert (0 < (py a - py b) * (py a - py b))%Q by (apply square_pos; lra). lra.
  - assert (0 < (px a - px b) * (px a - px b))%Q by (apply square_pos; lra). lra.
Qed.

Lemma lerpPoint_stepsToward (current target : point) :
  stepsToward current target (lerpPoint current target).
Proof.
  unfold stepsToward. repeat split.
  - apply lerp_offset.
  - apply lerp_offset.
  - apply lerp_closer.
  - apply lerp_closer.
  - intros Hne. rewrite lerpPoint_dist2.
    pose proof (dist2_pos current target Hne). lra.
  - apply lerp_between.
  - apply lerp_between.
Qed.

(** C2 (as amended). For an entity whose interpolation target is fixed (the
    store's position of the entity is the recorded target), a frame leaves
    the target alone and moves the drawn position by one step
    [current + (target - current) * 0.15]. In exact arithmetic that step
    multiplies the offset to the target by 0.85 on each axis: the distance
    strictly decreases on every axis where current differs from target (and
    so does the Euclidean distance), and the new position lies between the
    old one and the target, never beyond it. *)
Theorem interpolation_step_exact (deltaTime : Q) (w : World) (id : string)
    (player : object) (current target : point) :
  players w !! id = Some player →
  playerPositions w !! id = Some current →
  playerTargets w !! id = Some target →
  pointDiffers target (positionOf player) = false →
  playerTargets (updatePlayerInterpolation deltaTime w) !! id = Some target ∧
  ∃ next, playerPositions (updatePlayerInterpolation deltaTime w) !! id = Some next ∧
          stepsToward current target next.
Proof.
  intros Hpl Hc Ht Hfixed.
  pose proof (updatePlayerInterpolation_lookup deltaTime w id) as H.
  cbv zeta in H. rewrite Hpl, Hc, Ht in H.
  unfold interpolateEntry in H. cbn [fst snd] in H. rewrite Hfixed in H.
  inversion H as [[Hpos Htgt]]. split; [done|].
  exists (lerpPoint current target). split; [done|].
  apply lerpPoint_stepsToward.
Qed.

(** C2, an instance: the entity of [walking], drawn at (0, 40) and bound for
    (100, 40). *)
Lemma interpolation_step_exact_witness :
  playerTargets (updatePlayerInterpolation 16 walking) !! "a" = Some {| px := 100; py := 40 |} ∧
  ∃ next, playerPositions (updatePlayerInterpolation 16 walking) !! "a" = Some next ∧
          stepsToward {| px := 0; py := 40 |} {| px := 100; py := 40 |} next.
Proof.
  apply (interpolation_step_exact 16 walking "a" walker); vm_compute; reflexivity.
Defined.

(** In binary64 the same step can be rounded away: three units in the last
    place below 100 the increment is less than half a unit, the position
    stays where it is, and it is not the target. That position is the one
    300 frames reach from 0. *)
Lemma lerp64_stall_point :
  Nat.iter 300 (λ c, lerp64 c 100) 0%float = 0x1.8fffffffffffdp+6%float ∧
  lerp64 0x1.8fffffffffffdp+6 100 = 0x1.8fffffffffffdp+6%float ∧
  (0x1.8fffffffffffdp+6 =? 100)%float = false.
Proof. vm_compute. done. Qed.

(** C2, counterexample: under binary64 rounding it is not true that every
    step from a position different from the target is strictly closer to
    it. *)
Lemma lerp64_not_always_closer :
  ¬ (∀ current target : float,
       (current =? target)%float = false → closer64 current target = true).
Proof.
  intros H. specialize (H 0x1.8fffffffffffdp+6%float 100%float eq_refl).
  vm_compute in H. discriminate.
Qed.

(** ** Interpolation records and the entity store *)

Lemma render_interp_lookup t w j :
  (playerPositions (render t w) !! j, playerTargets (render t w) !! j) =
  if worldImage w then
    match players w !! j with
    | Some player => interpolateEntry player (playerPositions w !! j, playerTargets w !! j)
    | None => (playerPositions w !! j, playerTargets w !! j)
    end
  else (playerPositions w !! j, playerTargets w !! j).
Proof.
  unfold render. cbn [worldImage set_animationTimer set_lastFrameTime].
  destruct (worldImage w); cbn [negb]; [|done].
  match goal with |- context [updatePlayerInterpolation ?dt ?w1] =>
    pose proof (updatePlayerInterpolation_lookup dt w1 j) as H end.
  cbv zeta in H. cbn [players playerPositions playerTargets set_animationTimer
    set_lastFrameTime] in H. rewrite <- H.
  unfold updateCameraSmooth. by destruct (myPlayer _).
Qed.


(** C3, the failing run: after a join, a frame, a dropped connection and a
    second join whose snapshot no longer holds peer [p2], the store has no
    entity [p2] but its drawn position and its target are still recorded,
    and they survive the following frame. *)
Theorem rejoin_keeps_stale_interpolation :
  ∃ w, run (init 800 600) rejoin = Some w ∧
       players w !! "p2" = None ∧
       is_Some (playerPositions w !! "p2") ∧
       is_Some (playerTargets w !! "p2") ∧
       ¬ noDangling w.
Proof.
  eexists. split; [vm_compute; reflexivity|].
  assert (∀ A (x : A), is_Some (Some x)) as Hsome by eauto.
  split; [by vm_compute|]. split; [vm_compute; apply Hsome|].
  split; [vm_compute; apply Hsome|].
  intros Hno. destruct (Hno "p2") as [Hp _]; [by vm_compute|].
  vm_compute in Hp. discriminate.
Qed.





(** ** Reachable states *)

Lemma run_invariant (P : World → Prop) :
  (∀ w e w', P w → dispatch w e = Some w' → P w') →
  ∀ es w w', P w → run w es = Some w' → P w'.
Proof.
  intros Hstep. induction es as [|e es IH]; intros w w' HP Hrun.
  - cbn in Hrun. by simplify_eq.
  - cbn in Hrun. destruct (dispatch w e) as [w1|] eqn:Hd; [|done].
    cbn in Hrun. eapply IH; [|done]. by eapply Hstep.
Qed.

Lemma reachable_invariant (P : World → Prop) :
  (∀ iw ih, P (init iw ih)) →
  (∀ w e w', P w → dispatch w e = Some w' → P w') →
  ∀ w, reachable w → P w.
Proof.
  intros Hinit Hstep w (iw & ih & es & Hrun).
  eapply run_invariant; [exact Hstep|apply Hinit|exact Hrun].
Qed.

(** ** Timers *)

Lemma render_timerView t w : timerView (render t w) = timerView w.
Proof.
  pose proof (render_outsideFrame t w) as H. unfold outsideFrame in H.
  unfold timerView. simplify_eq. congruence.
Qed.

Lemma loadAvatars_timerView w (avs : gmap string avatar) :
  timerView (map_fold loadAvatar w avs) = timerView w.
Proof.
  apply (map_fold_weak_ind (λ r _, timerView r = timerView w)); [done|].
  intros name a m r _ IH. unfold loadAvatar. by case_decide.
Qed.

Lemma handleServerMessage_timerView message w :
  timerView (handleServerMessage message w) = timerView w.
Proof.
  destruct message as [id ps avs|err|moved|player av|id|action]; cbn; try done.
  - unfold handleJoinGameSuccess, loadAvatarImages.
    by rewrite render_timerView, loadAvatars_timerView.
  - unfold handlePlayersMove. rewrite render_timerView. cbn.
    repeat case_match; done.
  - unfold handlePlayerJoined. rewrite render_timerView. by destruct av.
  - unfold handlePlayerLeft. by rewrite render_timerView.
Qed.

Lemma sendMoveCommand_timerView key w : timerView (sendMoveCommand key w) = timerView w.
Proof. unfold sendMoveCommand. repeat case_match; done. Qed.

Lemma sendFirstActive_timerView keys w : timerView (sendFirstActive keys w) = timerView w.
Proof.
  induction keys as [|key keys IH]; cbn; [done|].
  destruct (pressed w key); [apply sendMoveCommand_timerView|done].
Qed.

Lemma sendMoveCommandForActiveKeys_timerView w :
  timerView (sendMoveCommandForActiveKeys w) = timerView w.
Proof.
  unfold sendMoveCommandForActiveKeys. destruct (negb _); [done|].
  apply sendFirstActive_timerView.
Qed.

Lemma sendStopCommand_timerView w : timerView (sendStopCommand w) = timerView w.
Proof. unfold sendStopCommand. by destruct (negb _). Qed.

Lemma handleKeyboardShortcuts_timerView key w :
  timerView (handleKeyboardShortcuts key w) = timerView w.
Proof. unfold handleKeyboardShortcuts. repeat case_match; done. Qed.

Lemma live_insert_live (l : list readyState) s r r' :
  l !! s = Some r → r ≠ CLOSED → r' ≠ CLOSED →
  length (filter (λ x, x ≠ CLOSED) (<[s := r']> l)) = length (filter (λ x, x ≠ CLOSED) l).
Proof.
  revert s. induction l as [|x l IH]; intros [|s] Hs Hr Hr'; try done.
  - cbn in Hs. simplify_eq. change (<[0%nat := r']> (r :: l)) with (r' :: l).
    rewrite !filter_cons. by rewrite !decide_True.
  - cbn in Hs. change (<[S s := r']> (x :: l)) with (x :: <[s := r']> l).
    rewrite !filter_cons.
    destruct (decide (x ≠ CLOSED)); cbn [length]; by rewrite (IH s).
Qed.

Lemma live_insert_closed (l : list readyState) s r :
  l !! s = Some r → r ≠ CLOSED →
  S (length (filter (λ x, x ≠ CLOSED) (<[s := CLOSED]> l))) =
  length (filter (λ x, x ≠ CLOSED) l).
Proof.
  revert s. induction l as [|x l IH]; intros [|s] Hs Hr; try done.
  - cbn in Hs. simplify_eq. change (<[0%nat := CLOSED]> (r :: l)) with (CLOSED :: l).
    rewrite !filter_cons.
    rewrite decide_False by (by intros ?). by rewrite decide_True by done.
  - cbn in Hs. change (<[S s := CLOSED]> (x :: l)) with (x :: <[s := CLOSED]> l).
    rewrite !filter_cons.
    destruct (decide (x ≠ CLOSED)); cbn [length]; by rewrite <- (IH s).
Qed.

Lemma live_connect (l : list readyState) :
  length (filter (λ x, x ≠ CLOSED) (l ++ [CONNECTING])) =
  S (length (filter (λ x, x ≠ CLOSED) l)).
Proof.
  rewrite filter_app, length_app, filter_cons, filter_nil.
  rewrite decide_True by done. cbn. lia.
Qed.

Lemma filter_out_only (id j : positive) :
  filter (λ k, k ≠ id) [j] = if decide (j = id) then [] else [j].
Proof.
  rewrite filter_cons, filter_nil. case_decide; case_decide; done.
Qed.

Lemma startContinuousMovement_timers w :
  intervals w = option_list (movementInterval w) →
  sockets (startContinuousMovement w) = sockets w ∧
  timeouts (startContinuousMovement w) = timeouts w ∧
  intervals (startContinuousMovement w) = option_list (movementInterval (startContinuousMovement w)) ∧
  is_Some (movementInterval (startContinuousMovement w)).
Proof.
  intros Hint. unfold startContinuousMovement.
  destruct (movementInterval w) as [id|] eqn:Hmi.
  - rewrite Hmi. eauto.
  - pose proof (sendMoveCommandForActiveKeys_timerView w) as Hv.
    unfold timerView in Hv. simplify_eq.
    unfold setMovementInterval. cbn.
    repeat split; try congruence; [|eauto].
    replace (intervals (sendMoveCommandForActiveKeys w)) with (intervals w) by congruence.
    by rewrite Hint.
Qed.

Lemma stopContinuousMovement_timers w :
  intervals w = option_list (movementInterval w) →
  sockets (stopContinuousMovement w) = sockets w ∧
  timeouts (stopContinuousMovement w) = timeouts w ∧
  intervals (stopContinuousMovement w) = [] ∧
  movementInterval (stopContinuousMovement w) = None.
Proof.
  intros Hint. unfold stopContinuousMovement.
  match goal with |- context [sendStopCommand ?w1] =>
    pose proof (sendStopCommand_timerView w1) as Hv end.
  unfold timerView in Hv. simplify_eq.
  destruct (movementInterval w) as [id|] eqn:Hmi; cbn in *.
  - repeat split; try congruence.
    rewrite H1, Hint, filter_out_only. by rewrite decide_True.
  - repeat split; congruence.
Qed.

Lemma timersInv_view w w' : timerView w' = timerView w → timersInv w → timersInv w'.
Proof.
  unfold timerView, timersInv, liveSockets. intros Hv [Hint Hone].
  simplify_eq. split; congruence.
Qed.

Lemma resizeCanvas_timerView iw ih w : timerView (resizeCanvas iw ih w) = timerView w.
Proof.
  unfold resizeCanvas. cbn. destruct (worldImage w); [|done].
  by rewrite render_timerView.
Qed.

Lemma handleMouseWheel_timerView dy w : timerView (handleMouseWheel dy w) = timerView w.
Proof. unfold handleMouseWheel. rewrite render_timerView. by destruct (negb _). Qed.

Lemma handleCanvasClick_timerView ev w : timerView (handleCanvasClick ev w) = timerView w.
Proof. unfold handleCanvasClick. by destruct (_ || _). Qed.

Lemma handleKeyDown_timersInv key w : timersInv w → timersInv (handleKeyDown key w).
Proof.
  intros [Hint Hone]. unfold handleKeyDown.
  destruct (negb (isArrowKey key)); [done|]. destruct (pressed w key); [done|].
  match goal with |- context [startContinuousMovement ?w1] =>
    destruct (startContinuousMovement_timers w1 Hint) as (Hs & Ht & Hi & _) end.
  split; [done|]. unfold liveSockets in *. by rewrite Hs, Ht.
Qed.

Lemma handleKeyUp_timersInv key w : timersInv w → timersInv (handleKeyUp key w).
Proof.
  intros [Hint Hone]. unfold handleKeyUp.
  destruct (negb (isArrowKey key)); [done|].
  destruct (negb (anyKeyPressed _)); [|done].
  match goal with |- context [stopContinuousMovement ?w1] =>
    destruct (stopContinuousMovement_timers w1 Hint) as (Hs & Ht & Hi & Hm) end.
  split; [by rewrite Hi, Hm|]. unfold liveSockets in *. by rewrite Hs, Ht.
Qed.

Lemma dispatch_timersInv w e w' :
  timersInv w → dispatch w e = Some w' → timersInv w'.
Proof.
  intros Hinv Hd. destruct e; cbn in Hd.
  - destruct (Qle_bool 0 currentTime); simplify_eq.
    eapply timersInv_view; [apply render_timerView|done].
  - simplify_eq. eapply timersInv_view; [apply resizeCanvas_timerView|done].
  - simplify_eq. eapply timersInv_view; [apply render_timerView|done].
  - destruct (loadingImage w avatarName direction i); simplify_eq.
    eapply timersInv_view; [apply render_timerView|done].
  - simplify_eq.
    eapply timersInv_view; [apply handleKeyboardShortcuts_timerView|].
    by apply handleKeyDown_timersInv.
  - simplify_eq. by apply handleKeyUp_timersInv.
  - simplify_eq. eapply timersInv_view; [apply handleCanvasClick_timerView|done].
  - simplify_eq. eapply timersInv_view; [apply handleMouseWheel_timerView|done].
  - destruct Hinv as [Hint Hone]. unfold timersInv, liveSockets in *.
    destruct (sockets w !! s) as [[]|] eqn:Hs; simplify_eq.
    unfold socket_onopen, joinGame, setReadyState. cbn.
    split; [done|]. by rewrite (live_insert_live _ _ CONNECTING).
  - destruct (sockets w !! s) as [[]|] eqn:Hs; simplify_eq.
    destruct data as [message|]; cbn; [|done].
    eapply timersInv_view; [apply handleServerMessage_timerView|done].
  - destruct (sockets w !! s) as [[]|] eqn:Hs; by simplify_eq.
  - destruct Hinv as [Hint Hone]. unfold timersInv, liveSockets in *.
    destruct (sockets w !! s) as [r|] eqn:Hs; [|done].
    assert (r ≠ CLOSED ∧ w' = socket_onclose (setReadyState s CLOSED w)) as [Hr ->].
    { destruct r; by simplify_eq. }
    unfold socket_onclose, setTimeout, setReadyState. cbn.
    split; [done|]. rewrite length_app. cbn.
    pose proof (live_insert_closed _ _ _ Hs Hr). lia.
  - destruct Hinv as [Hint Hone]. unfold timersInv, liveSockets in *.
    case_bool_decide as Hin; simplify_eq.
    unfold connectToServer. cbn. split; [done|].
    rewrite live_connect.
    destruct (timeouts w) as [|j [|j' l]]; cbn in Hone; try lia.
    + by apply elem_of_nil in Hin.
    + apply list_elem_of_singleton in Hin. subst.
      rewrite filter_out_only, decide_True by done. cbn. lia.
  - case_bool_decide; simplify_eq.
    eapply timersInv_view; [apply sendMoveCommandForActiveKeys_timerView|done].
Qed.

Lemma init_timersInv iw ih : timersInv (init iw ih).
Proof. split; reflexivity. Qed.

Lemma reachable_timersInv w : reachable w → timersInv w.
Proof.
  apply (reachable_invariant timersInv); [apply init_timersInv|].
  intros. by eapply dispatch_timersInv.
Qed.

Lemma live_socket_counted (l : list readyState) s r :
  l !! s = Some r → r ≠ CLOSED → (1 ≤ length (filter (λ x, x ≠ CLOSED) l))%nat.
Proof. intros Hs Hr. pose proof (live_insert_closed l s r Hs Hr). lia. Qed.

(** C5 (as amended). In every reachable state at most one movement-repeat
    timer and at most one reconnect timer are pending. For the
    movement-repeat timer this is by its handle: the pending timers are
    exactly the one [movementInterval] names, starting while the handle is
    set does nothing, and stopping clears the timer and then the handle, so
    that no repeat fires after a stop. The reconnect timer has no handle and
    no guard: it is unique because a socket can only close while no
    reconnect timer is pending, closing arms exactly one, and the next
    socket is created, connecting, only when that timer fires. *)
Theorem timers_at_most_one :
  (∀ w, reachable w →
     (length (intervals w) ≤ 1)%nat ∧ (length (timeouts w) ≤ 1)%nat ∧
     intervals w = option_list (movementInterval w)) ∧
  (∀ w, is_Some (movementInterval w) → startContinuousMovement w = w) ∧
  (∀ w, reachable w →
     movementInterval (stopContinuousMovement w) = None ∧
     intervals (stopContinuousMovement w) = [] ∧
     ∀ id, dispatch (stopContinuousMovement w) (IntervalFire id) = None) ∧
  (∀ w s w', reachable w → dispatch w (SocketClose s) = Some w' →
     timeouts w = [] ∧ ∃ id, timeouts w' = [id]) ∧
  (∀ w id w', reachable w → dispatch w (TimeoutFire id) = Some w' →
     timeouts w' = [] ∧
     ∃ s, socket w' = Some s ∧ sockets w' !! s = Some CONNECTING).
Proof.
  split; [|split; [|split; [|split]]].
  - intros w [Hint Hone]%reachable_timersInv.
    split; [|split; [lia|done]].
    rewrite Hint. destruct (movementInterval w); cbn; lia.
  - intros w [id Hid]. unfold startContinuousMovement. by rewrite Hid.
  - intros w [Hint Hone]%reachable_timersInv.
    destruct (stopContinuousMovement_timers w Hint) as (_ & _ & Hi & Hm).
    split; [done|]. split; [done|].
    intros id. cbn. rewrite Hi. by rewrite bool_decide_eq_false_2 by apply not_elem_of_nil.
  - intros w s w' [Hint Hone]%reachable_timersInv Hd. cbn in Hd.
    destruct (sockets w !! s) as [r|] eqn:Hs; [|done].
    assert (r ≠ CLOSED ∧ w' = socket_onclose (setReadyState s CLOSED w)) as [Hr ->].
    { destruct r; by simplify_eq. }
    pose proof (live_socket_counted _ _ _ Hs Hr) as Hlive.
    unfold liveSockets in Hone.
    assert (timeouts w = []) as Hnone.
    { destruct (timeouts w); [done|]. cbn in Hone. lia. }
    split; [done|]. exists (nextTimerId w).
    unfold socket_onclose, setTimeout, setReadyState. cbn. by rewrite Hnone.
  - intros w id w' [Hint Hone]%reachable_timersInv Hd. cbn in Hd.
    case_bool_decide as Hin; simplify_eq.
    unfold connectToServer. cbn. split.
    + destruct (timeouts w) as [|j [|j' l]]; cbn in Hone; try lia.
      * by apply elem_of_nil in Hin.
      * apply list_elem_of_singleton in Hin. subst.
        by rewrite filter_out_only, decide_True.
    + exists (length (sockets w)). split; [done|].
      by rewrite lookup_app_r, Nat.sub_diag by lia.
Qed.

(** C5, counterexample: a reconnect timer has no handle that a check could
    look at. On the run in which the first socket closes, a reconnect timer
    is pending afterwards, no timer handle of the class names it (the only
    one, [movementInterval], is null), and the handler has written no field
    of the object at all: the value [setTimeout] returns is dropped. *)
Lemma reconnect_timer_keeps_no_handle :
  ∃ w, run (init 800 600) [SocketClose 0] = Some w ∧
       timeouts w = [1%positive] ∧
       Some 1%positive ∉ timerHandles w ∧
       movementInterval w = None ∧
       thisView w = thisView (init 800 600).
Proof.
  eexists. split; [vm_compute; reflexivity|]. split; [by vm_compute|].
  split; [|by vm_compute].
  intros [H|H%elem_of_nil]%elem_of_cons; [|done]. vm_compute in H. discriminate.
Qed.

(** ** What the handlers leave alone *)

Lemma quiet_trans w1 w2 w3 : quiet w1 w2 → quiet w2 w3 → quiet w1 w3.
Proof.
  unfold quiet. intros (? & ? & ? & ? & ?) (? & ? & ? & ? & ?). repeat split; congruence.
Qed.

Lemma render_quiet_outside t w :
  viewportView (render t w) = viewportView w ∧ connView (render t w) = connView w.
Proof.
  pose proof (render_outsideFrame t w) as H. unfold outsideFrame in H.
  unfold viewportView, connView. simplify_eq. split; congruence.
Qed.

Lemma loadAvatars_quiet w (avs : gmap string avatar) : quiet w (map_fold loadAvatar w avs).
Proof.
  apply (map_fold_weak_ind (λ r _, quiet w r)); [done|].
  intros name a m r _ IH. unfold loadAvatar. by case_decide.
Qed.

Lemma sendMoveCommandForActiveKeys_quiet w : quiet w (sendMoveCommandForActiveKeys w).
Proof.
  unfold sendMoveCommandForActiveKeys. destruct (negb _); [done|].
  induction keyPriority as [|key keys IH]; cbn; [done|].
  destruct (pressed w key); [|done].
  unfold sendMoveCommand. repeat case_match; done.
Qed.

Lemma handleKeyDown_quiet key w : quiet w (handleKeyDown key w).
Proof.
  unfold handleKeyDown, startContinuousMovement.
  destruct (negb _); [done|]. destruct (pressed w key); [done|].
  cbn [movementInterval set_keysPressed]. destruct (movementInterval w); [done|].
  set (w1 := set_keysPressed _ w).
  apply (quiet_trans w w1); [done|].
  apply (quiet_trans w1 (sendMoveCommandForActiveKeys w1)); [|done].
  apply sendMoveCommandForActiveKeys_quiet.
Qed.

Lemma handleKeyUp_quiet key w : quiet w (handleKeyUp key w).
Proof.
  unfold handleKeyUp, stopContinuousMovement, sendStopCommand.
  destruct (negb _); [done|]. destruct (negb (anyKeyPressed _)); [|done].
  cbn. destruct (movementInterval w); cbn; by destruct (negb _).
Qed.

Lemma handleCanvasClick_quiet ev w : quiet w (handleCanvasClick ev w).
Proof. unfold handleCanvasClick. by destruct (_ || _). Qed.



Lemma crowded_reachable : reachable crowded.
Proof.
  exists 800, 600, crowd. unfold crowded.
  destruct (run (init 800 600) crowd) eqn:Hrun; [done|].
  vm_compute in Hrun. discriminate.
Qed.



(** ** Viewport limits *)

Lemma viewInv_view w w' : viewportView w' = viewportView w → viewInv w → viewInv w'.
Proof. unfold viewportView, viewInv. intros Hv. simplify_eq. by rewrite H, H0, H1, H2, H3. Qed.

Lemma viewInv_render t w : viewInv w → viewInv (render t w).
Proof. apply viewInv_view, render_quiet_outside. Qed.

Lemma viewInv_zoom z w :
  (1 # 2 <= z <= 3)%Q → viewInv w → viewInv (set_zoomLevel z w).
Proof. intros Hz (Hwi & _ & Hrest). split; [done|]. cbn. tauto. Qed.

Lemma handleKeyboardShortcuts_viewInv key w :
  viewInv w → viewInv (handleKeyboardShortcuts key w).
Proof.
  intros Hinv. pose proof Hinv as (_ & Hz & _). unfold handleKeyboardShortcuts.
  repeat case_match; try done; apply viewInv_zoom; try done.
  - minmax. lra.
  - minmax. lra.
Qed.

Lemma handleMouseWheel_viewInv dy w : viewInv w → viewInv (handleMouseWheel dy w).
Proof.
  intros Hinv. pose proof Hinv as (_ & Hz & _). unfold handleMouseWheel.
  apply viewInv_render. destruct (negb _); apply viewInv_zoom; try done; minmax; lra.
Qed.

Lemma handleServerMessage_outside message w :
  viewportView (handleServerMessage message w) = viewportView w ∧
  connView (handleServerMessage message w) = connView w.
Proof.
  destruct message as [id ps avs|err|moved|player av|id|action]; cbn; try done.
  - unfold handleJoinGameSuccess, loadAvatarImages.
    match goal with |- context [render 0 ?w1] =>
      destruct (render_quiet_outside 0 w1) as [-> ->] end.
    match goal with |- context [map_fold loadAvatar ?w1 ?a] =>
      destruct (loadAvatars_quiet w1 a) as (-> & -> & _) end.
    done.
  - unfold handlePlayersMove.
    match goal with |- context [render 0 ?w1] =>
      destruct (render_quiet_outside 0 w1) as [-> ->] end.
    cbn. repeat case_match; done.
  - unfold handlePlayerJoined.
    match goal with |- context [render 0 ?w1] =>
      destruct (render_quiet_outside 0 w1) as [-> ->] end.
    by destruct av.
  - unfold handlePlayerLeft.
    match goal with |- context [render 0 ?w1] =>
      destruct (render_quiet_outside 0 w1) as [-> ->] end.
    done.
Qed.

Lemma dispatch_viewInv w e w' : viewInv w → dispatch w e = Some w' → viewInv w'.
Proof.
  intros Hinv Hd. destruct e; cbn in Hd.
  - destruct (Qle_bool 0 currentTime); simplify_eq. by apply viewInv_render.
  - simplify_eq. unfold resizeCanvas. cbn. destruct (worldImage w); [|done].
    by apply viewInv_render.
  - simplify_eq. by apply viewInv_render.
  - destruct (loadingImage _ _ _ _); simplify_eq. by apply viewInv_render.
  - simplify_eq. apply handleKeyboardShortcuts_viewInv.
    eapply viewInv_view; [apply handleKeyDown_quiet|done].
  - simplify_eq. eapply viewInv_view; [apply handleKeyUp_quiet|done].
  - simplify_eq. eapply viewInv_view; [apply handleCanvasClick_quiet|done].
  - simplify_eq. by apply handleMouseWheel_viewInv.
  - destruct (sockets w !! s) as [[]|]; simplify_eq. done.
  - destruct (sockets w !! s) as [[]|]; simplify_eq.
    destruct data; cbn; [|done].
    eapply viewInv_view; [apply handleServerMessage_outside|done].
  - destruct (sockets w !! s) as [[]|]; by simplify_eq.
  - destruct (sockets w !! s) as [[]|]; by simplify_eq.
  - case_bool_decide; by simplify_eq.
  - case_bool_decide; simplify_eq.
    eapply viewInv_view; [apply sendMoveCommandForActiveKeys_quiet|done].
Qed.

Lemma reachable_viewInv w : reachable w → viewInv w.
Proof.
  apply (reachable_invariant viewInv).
  - intros iw ih. split; [done|]. cbn. repeat split; by apply Qle_bool_imp_le.
  - intros. by eapply dispatch_viewInv.
Qed.

(** ** The connection *)

Lemma connInv_view w w' : connView w' = connView w → connInv w → connInv w'.
Proof.
  unfold connView, connInv. intros Hv (s & Hs). simplify_eq.
  exists s. by rewrite H, H0, H1, H2.
Qed.

Lemma connInv_current w s r :
  connInv w → sockets w !! s = Some r → r ≠ CLOSED → socket w = Some s.
Proof.
  intros (s0 & Hs0 & Hlen & Hold & _) Hs Hr.
  destruct (decide (s < s0)%nat) as [Hlt|Hge].
  - rewrite (Hold s Hlt) in Hs. by simplify_eq.
  - apply lookup_lt_Some in Hs. rewrite Hs0. f_equal. lia.
Qed.

Lemma dispatch_sessionInv w e w' :
  timersInv w ∧ connInv w → dispatch w e = Some w' → timersInv w' ∧ connInv w'.
Proof.
  intros [Htim Hconn] Hd. split; [by eapply dispatch_timersInv|].
  destruct e; cbn in Hd.
  - destruct (Qle_bool 0 currentTime); simplify_eq.
    eapply connInv_view; [apply render_quiet_outside|done].
  - simplify_eq. unfold resizeCanvas. cbn. destruct (worldImage w); [|done].
    eapply connInv_view; [apply render_quiet_outside|done].
  - simplify_eq. eapply connInv_view; [apply render_quiet_outside|done].
  - destruct (loadingImage _ _ _ _); simplify_eq.
    eapply connInv_view; [apply render_quiet_outside|done].
  - simplify_eq. eapply connInv_view; [|eapply connInv_view; [apply handleKeyDown_quiet|done]].
    unfold handleKeyboardShortcuts. repeat case_match; done.
  - simplify_eq. eapply connInv_view; [apply handleKeyUp_quiet|done].
  - simplify_eq. eapply connInv_view; [apply handleCanvasClick_quiet|done].
  - simplify_eq. unfold handleMouseWheel.
    eapply connInv_view; [apply render_quiet_outside|]. by destruct (negb _).
  - destruct (sockets w !! s) as [r|] eqn:Hs; [|done].
    destruct r; simplify_eq.
    pose proof (connInv_current w s CONNECTING Hconn Hs) as Hcur.
    destruct Hconn as (s0 & Hs0 & Hlen & Hold & Hopen & Hpending).
    rewrite Hcur in Hs0 by done. simplify_eq.
    exists s0. unfold socket_onopen, joinGame, setReadyState. cbn.
    split; [by apply Hcur|]. split; [by rewrite length_insert|].
    split; [|split].
    + intros i Hi. rewrite list_lookup_insert_ne by lia. by apply Hold.
    + intros _. apply list_lookup_insert_eq. lia.
    + intros Hne. specialize (Hpending Hne). congruence.
  - destruct (sockets w !! s) as [[]|]; simplify_eq.
    destruct data; cbn; [|done].
    eapply connInv_view; [apply handleServerMessage_outside|done].
  - destruct (sockets w !! s) as [[]|]; by simplify_eq.
  - destruct (sockets w !! s) as [r|] eqn:Hs; [|done].
    assert (r ≠ CLOSED ∧ w' = socket_onclose (setReadyState s CLOSED w)) as [Hr ->].
    { destruct r; by simplify_eq. }
    pose proof (connInv_current w s r Hconn Hs Hr) as Hcur.
    destruct Hconn as (s0 & Hs0 & Hlen & Hold & Hopen & Hpending).
    rewrite Hcur in Hs0. simplify_eq.
    exists s0. unfold socket_onclose, setTimeout, setReadyState. cbn.
    split; [done|]. split; [by rewrite length_insert|].
    split; [|split].
    + intros i Hi. rewrite list_lookup_insert_ne by lia. by apply Hold.
    + done.
    + intros _. apply list_lookup_insert_eq. lia.
  - case_bool_decide as Hin; simplify_eq.
    destruct Htim as [_ Hone].
    destruct Hconn as (s0 & Hs0 & Hlen & Hold & Hopen & Hpending).
    assert (sockets w !! s0 = Some CLOSED) as Hclosed.
    { apply Hpending. intros Hnil. rewrite Hnil in Hin. by apply elem_of_nil in Hin. }
    exists (S s0). unfold connectToServer. cbn.
    split; [by rewrite Hlen|]. split; [rewrite length_app, Hlen; cbn; lia|].
    split; [|split].
    + intros i Hi. rewrite lookup_app_l by lia.
      destruct (decide (i = s0)) as [->|Hne]; [done|]. apply Hold. lia.
    + intros Hc. specialize (Hopen Hc). congruence.
    + intros Hne. exfalso. apply Hne.
      destruct (timeouts w) as [|j [|j' l]]; cbn in Hone; try lia.
      * by apply elem_of_nil in Hin.
      * apply list_elem_of_singleton in Hin. subst.
        by rewrite filter_out_only, decide_True.
  - case_bool_decide; simplify_eq.
    eapply connInv_view; [apply sendMoveCommandForActiveKeys_quiet|done].
Qed.

Lemma reachable_sessionInv w : reachable w → timersInv w ∧ connInv w.
Proof.
  apply (reachable_invariant (λ w, timersInv w ∧ connInv w)).
  - intros iw ih. split; [apply init_timersInv|].
    exists 0%nat. repeat split; try done. intros i Hi. lia.
  - apply dispatch_sessionInv.
Qed.

(** X3. In every reachable state in which the session is flagged connected,
    [this.socket] is the socket created last, that socket is OPEN, so that
    [this.socket.send] does not throw, and every socket created before it
    has closed. *)
Theorem connected_socket_open w :
  reachable w → isConnected w = true →
  ∃ s, socket w = Some s ∧ length (sockets w) = S s ∧ sockets w !! s = Some OPEN ∧
       ∀ i, (i < s)%nat → sockets w !! i = Some CLOSED.
Proof.
  intros [_ (s & Hs & Hlen & Hclosed & Hopen & _)]%reachable_sessionInv Hc.
  exists s. auto.
Qed.

(** ** Interpolation records come in pairs *)

Lemma keysAgree_view w w' : interpView w' = interpView w → keysAgree w → keysAgree w'.
Proof. unfold interpView, keysAgree. intros Hv. simplify_eq. by rewrite H, H0. Qed.

Lemma render_keysAgree t w : keysAgree w → keysAgree (render t w).
Proof.
  intros Hk id. pose proof (render_interp_lookup t w id) as H.
  specialize (Hk id).
  destruct (worldImage w); [|injection H as -> ->; done].
  destruct (players w !! id) as [player|]; [|injection H as -> ->; done].
  unfold interpolateEntry in H. cbn [fst snd] in H.
  destruct (playerPositions w !! id) as [c|], (playerTargets w !! id) as [tg|];
    injection H as -> ->; done.
Qed.

Lemma handleServerMessage_keysAgree message w :
  keysAgree w → keysAgree (handleServerMessage message w).
Proof.
  intros Hk.
  destruct message as [id ps avs|err|moved|player av|id|action]; cbn; try done.
  - unfold handleJoinGameSuccess, loadAvatarImages. apply render_keysAgree.
    eapply keysAgree_view; [apply loadAvatars_quiet|]. done.
  - unfold handlePlayersMove. apply render_keysAgree.
    eapply keysAgree_view; [|done]. cbn. repeat case_match; done.
  - unfold handlePlayerJoined. apply render_keysAgree.
    eapply keysAgree_view; [|done]. by destruct av.
  - unfold handlePlayerLeft. apply render_keysAgree. intros j. cbn.
    destruct (decide (j = id)) as [->|Hne].
    + by rewrite !lookup_delete_eq.
    + rewrite !lookup_delete_ne by done. apply Hk.
Qed.

Lemma dispatch_keysAgree w e w' : keysAgree w → dispatch w e = Some w' → keysAgree w'.
Proof.
  intros Hinv Hd. destruct e; cbn in Hd.
  - destruct (Qle_bool 0 currentTime); simplify_eq. by apply render_keysAgree.
  - simplify_eq. unfold resizeCanvas. cbn. destruct (worldImage w); [|done].
    by apply render_keysAgree.
  - simplify_eq. by apply render_keysAgree.
  - destruct (loadingImage _ _ _ _); simplify_eq. by apply render_keysAgree.
  - simplify_eq. eapply keysAgree_view; [|eapply keysAgree_view; [apply handleKeyDown_quiet|done]].
    unfold handleKeyboardShortcuts. repeat case_match; done.
  - simplify_eq. eapply keysAgree_view; [apply handleKeyUp_quiet|done].
  - simplify_eq. eapply keysAgree_view; [apply handleCanvasClick_quiet|done].
  - simplify_eq. unfold handleMouseWheel. apply render_keysAgree. by destruct (negb _).
  - destruct (sockets w !! s) as [[]|]; simplify_eq. done.
  - destruct (sockets w !! s) as [[]|]; simplify_eq.
    destruct data; cbn; [|done]. by apply handleServerMessage_keysAgree.
  - destruct (sockets w !! s) as [[]|]; by simplify_eq.
  - destruct (sockets w !! s) as [[]|]; by simplify_eq.
  - case_bool_decide; by simplify_eq.
  - case_bool_decide; simplify_eq.
    eapply keysAgree_view; [apply sendMoveCommandForActiveKeys_quiet|done].
Qed.

Lemma reachable_keysAgree w : reachable w → keysAgree w.
Proof.
  apply (reachable_invariant keysAgree).
  - intros iw ih id. cbn. by rewrite !lookup_empty.
  - intros. by eapply dispatch_keysAgree.
Qed.

Lemma plainSession_reachable w : plainSession w → reachable w.
Proof. intros (iw & ih & es & _ & Hrun). by exists iw, ih, es. Qed.

(** X4. In every state of a session in which no server message names an
    entity or an avatar after a property of [Object.prototype], an entity has
    a drawn position exactly when it has a target: the read of
    [playerTargets[playerId].x] in [updatePlayerInterpolation] never meets
    [undefined]. *)
Theorem interp_keys_agree w : plainSession w → keysAgree w.
Proof. intros Hr%plainSession_reachable. by apply reachable_keysAgree. Qed.

(** ** The camera *)


#[local] Instance clampCamera_proper : Proper (Qeq ==> Qeq ==> Qeq) clampCamera.
Proof.
  intros v1 v2 Hv h1 h2 Hh. unfold clampCamera. minmax. lra.
Qed.

#[local] Instance easeToward_proper : Proper (Qeq ==> Qeq ==> Qeq ==> Qeq) easeToward.
Proof. intros e1 e2 He c1 c2 Hc t1 t2 Ht. unfold easeToward. by rewrite He, Hc, Ht. Qed.

Lemma clamp_contracts (c p e hi : Q) :
  (e == 1 # 10 → 0 <= hi →
   Qabs (clampCamera (easeToward e c p) hi - clampCamera p hi)
     <= (9 # 10) * Qabs (c - clampCamera p hi))%Q.
Proof.
  intros He Hhi. unfold clampCamera, easeToward.
  assert ((p - c) * e == (p - c) * (1 # 10))%Q as Hpe by (rewrite He; reflexivity).
  set (d := ((p - c) * e)%Q) in *. clearbody d.
  minmax.
  apply Qabs_case; intros; apply Qabs_case; intros; lra.
Qed.

Lemma decay_pos n : (0 < decay n)%Q.
Proof. induction n; cbn [decay]; [reflexivity|]. apply Qmult_lt_0_compat; [reflexivity|done]. Qed.

(** Bernoulli: (9/10)^n (9 + n) <= 9. *)
Lemma decay_bound n : (decay n * (9 + inject_Z (Z.of_nat n)) <= 9)%Q.
Proof.
  induction n as [|n IH].
  - by apply Qle_bool_imp_le.
  - cbn [decay]. pose proof (decay_pos n) as Hp.
    rewrite Nat2Z.inj_succ. unfold Z.succ. rewrite inject_Z_plus.
    assert (0 <= inject_Z (Z.of_nat n))%Q as Hn.
    { change 0%Q with (inject_Z 0). rewrite <- Zle_Qle. lia. }
    set (k := inject_Z (Z.of_nat n)) in *. clearbody k.
    set (p := decay n) in *. clearbody p.
    assert (0 <= p * k)%Q by (apply Qmult_le_0_compat; lra).
    change (inject_Z 1) with 1%Q.
    assert ((9 # 10) * p * (9 + (k + 1)) == p * (9 + k) - (1 # 10) * (p * k))%Q as -> by ring.
    lra.
Qed.

Lemma decay_small (D eps : Q) :
  (0 <= D → 0 < eps → ∃ n, ∀ m, (n ≤ m)%nat → decay m * D < eps)%Q.
Proof.
  intros HD Heps.
  exists (Z.to_nat (Qceiling (9 * D / eps))). intros m Hm.
  pose proof (decay_bound m) as Hb. pose proof (decay_pos m) as Hp.
  assert (9 * D / eps <= inject_Z (Z.of_nat m))%Q as Hk.
  { eapply Qle_trans; [apply Qle_ceiling|]. rewrite <- Zle_Qle. lia. }
  set (k := inject_Z (Z.of_nat m)) in *. clearbody k.
  set (p := decay m) in *. clearbody p.
  assert (9 * D == (9 * D / eps) * eps)%Q as E by (field; lra).
  assert ((9 * D / eps) * eps <= k * eps)%Q as Hk' by (apply Qmult_le_compat_r; lra).
  assert (p * (9 * D) <= p * (k * eps))%Q as A1 by (apply Qmult_le_l; lra).
  assert (p * (9 + k) == 9 * p + p * k)%Q as E2 by ring.
  assert ((p * k) * eps <= (9 - 9 * p) * eps)%Q as A2 by (apply Qmult_le_compat_r; lra).
  assert (0 < p * eps)%Q as A3 by (apply Qmult_lt_0_compat; lra).
  lra.
Qed.

(** The camera after a frame: eased from its old place toward the point that
    centres the position the frame has just interpolated, then clamped. *)
Lemma render_camera t w me :
  worldImage w = true → myPlayer w = Some me →
  camera (render t w) =
  {| px := clampCamera (easeToward (cameraEasing w) (px (camera w))
                          (px (centreOn w (followed (render t w) me))))
             (worldWidth w - visibleWidth w);
     py := clampCamera (easeToward (cameraEasing w) (py (camera w))
                          (py (centreOn w (followed (render t w) me))))
             (worldHeight w - visibleHeight w) |}.
Proof.
  intros Hwi Hme.
  unfold render, updateCameraSmooth, updatePlayerInterpolation, followed, centreOn,
    visibleWidth, visibleHeight, easeToward.
  cbn. rewrite Hwi. cbn. rewrite Hme. cbn.
  by destruct (_.1 !! default "null" (playerId w)).
Qed.

Lemma lerp_at_rest (c t X : Q) : (c == X → t == X → lerp c t == X)%Q.
Proof. intros Hc Ht. unfold lerp, lerpWith. rewrite Hc, Ht. ring. Qed.

Lemma pointDiffers_samePoint (a b : point) : pointDiffers a b = false → samePoint a b.
Proof.
  unfold pointDiffers, samePoint. intros [Hx Hy]%orb_false_elim.
  apply negb_false_iff in Hx, Hy. by apply Qeq_bool_iff in Hx, Hy.
Qed.

Lemma retarget_samePoint (target p : point) :
  samePoint (if pointDiffers target p then p else target) p.
Proof.
  destruct (pointDiffers target p) eqn:Hd; [by split|]. by apply pointDiffers_samePoint.
Qed.

Lemma clamp_tracks (c p q e hi : Q) :
  (e == 1 # 10 → 0 <= hi →
   Qabs (clampCamera (easeToward e c q) hi - clampCamera p hi)
     <= (9 # 10) * Qabs (c - clampCamera p hi) + (1 # 10) * Qabs (q - p))%Q.
Proof.
  intros He Hhi. unfold clampCamera, easeToward.
  assert ((q - c) * e == (q - c) * (1 # 10))%Q as Hqe by (rewrite He; reflexivity).
  set (d := ((q - c) * e)%Q) in *. clearbody d.
  minmax.
  apply Qabs_case; intros; apply Qabs_case; intros; apply Qabs_case; intros; lra.
Qed.

Lemma lag_shrinks (c c' G p p' X : Q) :
  (X - p' == (85 # 100) * (X - p) →
   Qabs (c' - G) <= (9 # 10) * Qabs (c - G) + (1 # 10) * Qabs (p' - X) →
   lag c' G p' X <= (9 # 10) * lag c G p X)%Q.
Proof.
  unfold lag. intros Hp Hc.
  assert (Qabs (X - p') == (85 # 100) * Qabs (X - p))%Q as E1.
  { rewrite Hp, Qabs_Qmult. reflexivity. }
  assert (Qabs (p' - X) == Qabs (X - p'))%Q as E2.
  { rewrite <- (Qabs_opp (p' - X)). apply Qabs_wd. ring. }
  pose proof (Qabs_nonneg (X - p)). lra.
Qed.

Lemma render_standing t w X Y :
  standingAt w X Y → standardView w →
  standingAt (render t w) X Y ∧ standardView (render t w) ∧
  (lag (px (camera (render t w))) (clampCamera (X - 400) 1248)
       (px (localDrawn (render t w))) X
     <= (9 # 10) * lag (px (camera w)) (clampCamera (X - 400) 1248) (px (localDrawn w)) X)%Q ∧
  (lag (py (camera (render t w))) (clampCamera (Y - 300) 1448)
       (py (localDrawn (render t w))) Y
     <= (9 # 10) * lag (py (camera w)) (clampCamera (Y - 300) 1448) (py (localDrawn w)) Y)%Q.
Proof.
  intros (Hwi & id & me & player & c & tg & x & y & Hid & Hme & Hpl & Hc & Ht & Hx & Hy
          & [Hpx Hpy])
         (Hcw & Hch & Hz & Hww & Hwh & He).
  assert (positionOf player = {| px := x; py := y |}) as Hposition.
  { unfold positionOf. by rewrite Hx, Hy. }
  pose proof (render_outsideFrame t w) as Hout. unfold outsideFrame in Hout.
  simplify_eq.
  pose proof (render_interp_lookup t w id) as Hint.
  rewrite Hwi, Hpl, Hc, Ht in Hint. unfold interpolateEntry in Hint.
  cbn [fst snd] in Hint.
  destruct (retarget_samePoint tg (positionOf player)) as [Htx Hty].
  set (tg' := if pointDiffers tg (positionOf player) then positionOf player else tg) in *.
  rewrite Hposition in Htx, Hty. cbn [px py] in Htx, Hty.
  injection Hint as Hpos Htgt.
  assert (localDrawn w = c) as Hold.
  { unfold localDrawn. rewrite Hid. change (propKey (Some id)) with id. by rewrite Hc. }
  assert (localDrawn (render t w) = lerpPoint c tg') as Hnew.
  { unfold localDrawn. replace (playerId (render t w)) with (Some id) by congruence.
    change (propKey (Some id)) with id. by rewrite Hpos. }
  assert (followed (render t w) me = lerpPoint c tg') as Hf.
  { unfold followed. replace (playerId (render t w)) with (Some id) by congruence.
    change (propKey (Some id)) with id. by rewrite Hpos. }
  split; [|split].
  - split; [congruence|].
    exists id, me, player, (lerpPoint c tg'), tg', x, y.
    repeat split; try congruence; done.
  - unfold standardView. repeat split; congruence.
  - rewrite Hold, Hnew, (render_camera t w me Hwi Hme), Hf.
    unfold centreOn, visibleWidth, visibleHeight. cbn [px py lerpPoint].
    pose proof (lerp_offset (px c) (px tg')) as Hox.
    pose proof (lerp_offset (py c) (py tg')) as Hoy.
    split.
    + apply lag_shrinks; [lra|].
      assert (lerp (px c) (px tg') - canvasWidth w / zoomLevel w / 2
              == lerp (px c) (px tg') - 400)%Q as ->.
      { rewrite Hcw, Hz. field. }
      assert (worldWidth w - canvasWidth w / zoomLevel w == 1248)%Q as ->.
      { rewrite Hww, Hcw, Hz. reflexivity. }
      assert (lerp (px c) (px tg') - X == lerp (px c) (px tg') - 400 - (X - 400))%Q as ->
        by ring.
      apply clamp_tracks; [done|]. by apply Qle_bool_imp_le.
    + apply lag_shrinks; [lra|].
      assert (lerp (py c) (py tg') - canvasHeight w / zoomLevel w / 2
              == lerp (py c) (py tg') - 300)%Q as ->.
      { rewrite Hch, Hz. field. }
      assert (worldHeight w - canvasHeight w / zoomLevel w == 1448)%Q as ->.
      { rewrite Hwh, Hch, Hz. reflexivity. }
      assert (lerp (py c) (py tg') - Y == lerp (py c) (py tg') - 300 - (Y - 300))%Q as ->
        by ring.
      apply clamp_tracks; [done|]. by apply Qle_bool_imp_le.
Qed.


Lemma decay_step (d a b c : Q) :
  (0 < d → a <= d * b → b <= (9 # 10) * c → a <= (9 # 10) * d * c)%Q.
Proof.
  intros Hd Ha Hb.
  assert (d * b <= d * ((9 # 10) * c))%Q as H by (by apply Qmult_le_l).
  assert (d * ((9 # 10) * c) == (9 # 10) * d * c)%Q as E by ring.
  lra.
Qed.

Lemma frames_standing ts w X Y :
  standingAt w X Y → standardView w →
  (lag (px (camera (frames ts w))) (clampCamera (X - 400) 1248)
       (px (localDrawn (frames ts w))) X
     <= decay (length ts)
        * lag (px (camera w)) (clampCamera (X - 400) 1248) (px (localDrawn w)) X)%Q ∧
  (lag (py (camera (frames ts w))) (clampCamera (Y - 300) 1448)
       (py (localDrawn (frames ts w))) Y
     <= decay (length ts)
        * lag (py (camera w)) (clampCamera (Y - 300) 1448) (py (localDrawn w)) Y)%Q.
Proof.
  revert w. induction ts as [|t ts IH]; intros w Hst Hview.
  - cbn. split; lra.
  - destruct (render_standing t w X Y Hst Hview) as (Hst' & Hview' & Hx & Hy).
    destruct (IH (render t w) Hst' Hview') as [IHx IHy].
    pose proof (decay_pos (length ts)) as Hd.
    change (frames (t :: ts) w) with (frames ts (render t w)).
    cbn [length decay]. split; eapply decay_step; eauto.
Qed.

Lemma camera_within_lag (cam goal drawn stored : Q) :
  (Qabs (cam - goal) <= lag cam goal drawn stored)%Q.
Proof. unfold lag. pose proof (Qabs_nonneg (stored - drawn)). lra. Qed.

Lemma lag_nonneg (cam goal drawn stored : Q) : (0 <= lag cam goal drawn stored)%Q.
Proof.
  unfold lag. pose proof (Qabs_nonneg (stored - drawn)). pose proof (Qabs_nonneg (cam - goal)).
  lra.
Qed.

(** The camera of the model is the exact instance of [cameraAxisWith]. *)
Lemma updateCameraSmooth_axis w me :
  myPlayer w = Some me →
  camera (updateCameraSmooth w) =
  {| px := cameraAxis (px (camera w)) (px (followed w me)) (canvasWidth w) (zoomLevel w)
             (worldWidth w) (cameraEasing w);
     py := cameraAxis (py (camera w)) (py (followed w me)) (canvasHeight w) (zoomLevel w)
             (worldHeight w) (cameraEasing w) |}.
Proof.
  intros Hme. unfold updateCameraSmooth, followed. rewrite Hme. cbn.
  by destruct (playerPositions w !! default "null" (playerId w)).
Qed.


Lemma arriving_standing : standingAt arriving 1000 2000 ∧ standardView arriving.
Proof.
  split.
  - split; [reflexivity|].
    exists "me", (default ∅ (myPlayer arriving)), (default ∅ (players arriving !! "me")),
      (localDrawn arriving), (default (localDrawn arriving) (playerTargets arriving !! "me")),
      1000, 2000.
    repeat split; vm_compute; reflexivity.
  - repeat split; vm_compute; reflexivity.
Qed.



(** ** Key-repeat movement *)

Lemma sendMoveCommand_connected key direction w :
  isConnected w = true → keyToDirection !! key = Some direction → direction ≠ "" →
  sendMoveCommand key w = socketSend (MoveDirection direction) w.
Proof.
  intros Hc Hk Hd. unfold sendMoveCommand. rewrite Hc, Hk. cbn.
  by rewrite (proj2 (String.eqb_neq direction "")).
Qed.

Lemma emission_by_priority w :
  isConnected w = true →
  sendMoveCommandForActiveKeys w =
  match priorityDirection (pressed w "ArrowUp") (pressed w "ArrowDown")
          (pressed w "ArrowLeft") (pressed w "ArrowRight") with
  | Some direction => socketSend (MoveDirection direction) w
  | None => w
  end.
Proof.
  intros Hc. unfold sendMoveCommandForActiveKeys, keyPriority, priorityDirection.
  rewrite Hc. cbn [negb sendFirstActive].
  destruct (pressed w "ArrowUp"); [by apply sendMoveCommand_connected|].
  destruct (pressed w "ArrowDown"); [by apply sendMoveCommand_connected|].
  destruct (pressed w "ArrowLeft"); [by apply sendMoveCommand_connected|].
  destruct (pressed w "ArrowRight"); [by apply sendMoveCommand_connected|].
  done.
Qed.

Lemma anyKeyPressed_true w key : pressed w key = true → anyKeyPressed w = true.
Proof.
  unfold pressed, anyKeyPressed. intros Hk.
  destruct (keysPressed w !! key) as [b|] eqn:Hl; cbn in Hk; [subst b|done].
  apply existsb_exists. exists (key, true). split; [|done].
  apply list_elem_of_In. by apply elem_of_map_to_list.
Qed.

Lemma anyKeyPressed_false w :
  (∀ key, pressed w key = false) → anyKeyPressed w = false.
Proof.
  intros Hall. unfold anyKeyPressed.
  destruct (existsb snd (map_to_list (keysPressed w))) eqn:He; [|done].
  apply existsb_exists in He as ([key b] & Hin & Hb). cbn in Hb. subst b.
  apply list_elem_of_In, elem_of_map_to_list in Hin.
  specialize (Hall key). unfold pressed in Hall. by rewrite Hin in Hall.
Qed.

Lemma release_up_with_left_held w :
  isConnected w = true →
  pressed w "ArrowDown" = false → pressed w "ArrowLeft" = true →
  sendMoveCommandForActiveKeys (handleKeyUp "ArrowUp" w) =
  socketSend (MoveDirection "left") (set_keysPressed (<["ArrowUp" := false]> (keysPressed w)) w).
Proof.
  intros Hc Hdown Hleft. unfold handleKeyUp.
  change (negb (isArrowKey "ArrowUp")) with false. cbv iota.
  set (w1 := set_keysPressed _ w).
  assert (pressed w1 "ArrowUp" = false) as Hu by (unfold pressed, w1; cbn; by rewrite lookup_insert_eq).
  assert (pressed w1 "ArrowDown" = false) as Hd by (unfold pressed, w1 in *; cbn; by rewrite lookup_insert_ne).
  assert (pressed w1 "ArrowLeft" = true) as Hl by (unfold pressed, w1 in *; cbn; by rewrite lookup_insert_ne).
  rewrite (anyKeyPressed_true w1 "ArrowLeft" Hl). cbn [negb].
  rewrite emission_by_priority by done. by rewrite Hu, Hd, Hl.
Qed.

(** C6 (as amended). While the session is connected, a movement emission with at least
    one directional key held sends exactly one move action, for the
    highest-priority pressed key in the order Up > Down > Left > Right (and
    nothing when no key is held). In particular, with Up and Left held it
    sends only [up], and once Up is released with Left still held the next
    emission sends [left]. *)
Theorem emission_sends_highest_priority :
  (∀ w, isConnected w = true →
     sendMoveCommandForActiveKeys w =
     match priorityDirection (pressed w "ArrowUp") (pressed w "ArrowDown")
             (pressed w "ArrowLeft") (pressed w "ArrowRight") with
     | Some direction => socketSend (MoveDirection direction) w
     | None => w
     end) ∧
  (∀ w, isConnected w = true →
     pressed w "ArrowUp" = true → pressed w "ArrowLeft" = true →
     sent (sendMoveCommandForActiveKeys w) = sent w ++ [MoveDirection "up"]) ∧
  (∀ w, isConnected w = true →
     pressed w "ArrowDown" = false → pressed w "ArrowLeft" = true →
     sent (sendMoveCommandForActiveKeys (handleKeyUp "ArrowUp" w)) =
     sent w ++ [MoveDirection "left"]) ∧
  sent <$> run (init 800 600) upThenLeft =
    Some [ JoinGame "Mike"; MoveDirection "up"; MoveDirection "up"; MoveDirection "up";
           MoveDirection "left" ].
Proof.
  split; [exact emission_by_priority|]. split; [|split].
  - intros w Hc Hup _. rewrite emission_by_priority by done. by rewrite Hup.
  - intros w Hc Hdown Hleft. by rewrite release_up_with_left_held.
  - vm_compute. reflexivity.
Qed.

(** C6, counterexample: ArrowUp goes down before the socket has opened. The
    key is recorded and the repeat timer is armed, and when the timer ticks
    with the key held the emission sends nothing. *)
Lemma disconnected_emission_sends_nothing :
  ∃ w w', run (init 800 600) [KeyDown "ArrowUp"] = Some w ∧
          pressed w "ArrowUp" = true ∧
          dispatch w (IntervalFire 1) = Some w' ∧
          sent w' = [].
Proof. eexists _, _. split; [vm_compute; reflexivity|]. by vm_compute. Qed.

(** ** Click-to-move *)




Lemma playing_reachable : reachable playing.
Proof.
  exists 800, 600, joining. unfold playing.
  destruct (run (init 800 600) joining) eqn:Hrun; [done|].
  vm_compute in Hrun. discriminate.
Qed.



(** The coordinates the model sends are the exact instances of
    [clickAxisWith]. *)
Lemma handleCanvasClick_axis ev w :
  isConnected w = true → is_Some (myPlayer w) →
  handleCanvasClick ev w =
  socketSend
    (MoveTo (clickAxis (clientX ev) (rectLeft ev) (zoomLevel w) (px (camera w)) (worldWidth w))
            (clickAxis (clientY ev) (rectTop ev) (zoomLevel w) (py (camera w)) (worldHeight w)))
    w.
Proof.
  intros Hc Hme. unfold handleCanvasClick. rewrite Hc.
  by rewrite bool_decide_eq_true_2 by done.
Qed.


(** ** Animation frames *)

Lemma render_anim t w :
  lastFrameTime (render t w) = t ∧
  animationTimer (render t w) = (animationTimer w + (t - lastFrameTime w))%Q.
Proof.
  unfold render, updateCameraSmooth, updatePlayerInterpolation. cbn.
  destruct (worldImage w); cbn; [|done]. by destruct (myPlayer w).
Qed.

Lemma animInv_render t w w1 :
  animView w1 = animView w → (0 <= t)%Q → animInv w → animInv (render t w1).
Proof.
  unfold animView, animInv. intros Hv Ht [Ha Hl]. simplify_eq.
  destruct (render_anim t w1) as [-> ->]. split; [|done].
  rewrite H, H0, Ha. ring.
Qed.

Lemma animInv_view w w1 : animView w1 = animView w → animInv w → animInv w1.
Proof. unfold animView, animInv. intros Hv. simplify_eq. by rewrite H, H0. Qed.

Lemma animInv_quiet w w' : quiet w w' → animInv w → animInv w'.
Proof. intros (_ & _ & _ & _ & Hv). by apply animInv_view. Qed.

Lemma handleServerMessage_animInv message w :
  animInv w → animInv (handleServerMessage message w).
Proof.
  intros Hinv.
  destruct message as [id ps avs|err|moved|player av|id|action]; cbn; try done.
  - unfold handleJoinGameSuccess, loadAvatarImages.
    eapply animInv_render; [|lra|done].
    match goal with |- animView (map_fold loadAvatar ?w1 ?a) = _ =>
      destruct (loadAvatars_quiet w1 a) as (_ & _ & _ & _ & ->) end.
    done.
  - unfold handlePlayersMove. eapply animInv_render; [|lra|done].
    cbn. repeat case_match; done.
  - unfold handlePlayerJoined. eapply animInv_render; [|lra|done]. by destruct av.
  - unfold handlePlayerLeft. by eapply animInv_render; [|lra|done].
Qed.

Lemma dispatch_animInv w e w' : animInv w → dispatch w e = Some w' → animInv w'.
Proof.
  intros Hinv Hd. destruct e; cbn in Hd.
  - destruct (Qle_bool 0 currentTime) eqn:Ht; simplify_eq.
    apply Qle_bool_iff in Ht. by eapply animInv_render.
  - simplify_eq. unfold resizeCanvas. cbn. destruct (worldImage w); [|done].
    by eapply animInv_render; [|lra|done].
  - simplify_eq. by eapply animInv_render; [|lra|done].
  - destruct (loadingImage _ _ _ _); simplify_eq.
    by eapply animInv_render; [|lra|done].
  - simplify_eq. eapply animInv_view; [|eapply animInv_quiet; [apply handleKeyDown_quiet|done]].
    unfold handleKeyboardShortcuts. repeat case_match; done.
  - simplify_eq. eapply animInv_quiet; [apply handleKeyUp_quiet|done].
  - simplify_eq. unfold handleCanvasClick. by destruct (_ || _).
  - simplify_eq. unfold handleMouseWheel.
    eapply animInv_render; [|lra|done]. by destruct (negb _).
  - destruct (sockets w !! s) as [[]|]; simplify_eq. done.
  - destruct (sockets w !! s) as [[]|]; simplify_eq.
    destruct data; cbn; [|done]. by apply handleServerMessage_animInv.
  - destruct (sockets w !! s) as [[]|]; by simplify_eq.
  - destruct (sockets w !! s) as [[]|]; by simplify_eq.
  - case_bool_decide; by simplify_eq.
  - case_bool_decide; simplify_eq.
    eapply animInv_quiet; [apply sendMoveCommandForActiveKeys_quiet|done].
Qed.

Lemma reachable_animInv w : reachable w → animInv w.
Proof.
  apply (reachable_invariant animInv).
  - intros iw ih. unfold animInv. cbn. lra.
  - intros. by eapply dispatch_animInv.
Qed.

Lemma rem_mod_nonneg (a : Z) : (0 ≤ a → Z.rem a 3 = a mod 3)%Z.
Proof. intros Ha. by apply Z.rem_mod_nonneg. Qed.

Lemma elapsed_frames_nonneg (t : Q) : (0 <= t)%Q → (0 ≤ Qfloor (t / 200))%Z.
Proof.
  intros Ht. change 0%Z with (Qfloor 0). apply Qfloor_resp_le.
  apply Qle_shift_div_l; lra.
Qed.

(** The animation clock of the model is the exact instance of [clockWith]. *)
Lemma render_clock t w :
  animationTimer (render t w) = clockWith Qplus Qminus (animationTimer w) (lastFrameTime w) t ∧
  lastFrameTime (render t w) = t.
Proof. destruct (render_anim t w) as [-> ->]. done. Qed.

(** For an animation clock that is not negative, in exact arithmetic, the
    frame index of a moving entity is [floor (elapsed / 200) mod 3], one of
    0, 1, 2 (at 450 ms it is 2); for an entity that is not moving it is 0
    whatever the clock. This is the index [drawPlayer] draws. *)
Lemma animationFrame_cycles :
  (∀ player t, truthy (player !! "isMoving") = true → (0 <= t)%Q →
     animationFrame player t = (Qfloor (t / 200) mod 3)%Z) ∧
  (∀ player, truthy (player !! "isMoving") = true → animationFrame player 450 = 2%Z) ∧
  (∀ player t, truthy (player !! "isMoving") = false → animationFrame player t = 0%Z) ∧
  (∀ w player direction frame flip glow,
     drawPlayer w player = Sprite direction frame flip glow →
     frame = animationFrame player (animationTimer w)).
Proof.
  split; [|split; [|split]].
  - intros player t Hm Ht. unfold animationFrame. rewrite Hm.
    by apply rem_mod_nonneg, elapsed_frames_nonneg.
  - intros player Hm. unfold animationFrame. by rewrite Hm.
  - intros player t Hm. unfold animationFrame. by rewrite Hm.
  - intros w player direction frame flip glow. unfold drawPlayer.
    repeat case_match; intros; simplify_eq; done.
Qed.

(** C8, the failing run: two frames are drawn, at 100.2 ms and at 228.4 ms,
    and then a server message makes its handler call [render()] with no
    timestamp, which subtracts the last timestamp from the clock. In
    binary64 the three additions leave the clock slightly below zero, the
    floor of the quotient is -1, and [%] keeps the sign: the index is -1,
    where the formula of the claim gives (-1) mod 3 = 2. No frame has
    index -1, so nothing is drawn for a moving entity. *)
Theorem untimed_redraw_selects_no_frame :
  let timer :=
    Binary64.clock (Binary64.clock (Binary64.clock 0 0 100.2) 100.2 228.4) 228.4 0 in
  (timer <? 0)%float = true ∧
  Binary64.floor (timer / 200)%float = Some (-1)%Z ∧
  Binary64.animationFrame timer = Some (-1)%Z ∧
  ((-1) mod 3 = 2)%Z ∧
  ∀ frames, frameAt frames (-1) = None.
Proof. cbv zeta. repeat split; by vm_compute. Qed.

Example animationFrame_walker :
  animationFrame walker 450 = 2%Z ∧ animationFrame walker 600 = 0%Z ∧
  animationFrame (peer "idle" 0 0) 450 = 0%Z.
Proof. vm_compute. done. Qed.

(** ** Sending while not connected, and the unconditional stop *)

Lemma sent_handleKeyDown_disconnected key w :
  isConnected w = false →
  sent (handleKeyDown key w) = sent w ∧ isConnected (handleKeyDown key w) = false.
Proof.
  intros Hc. unfold handleKeyDown, startContinuousMovement.
  destruct (negb _); [done|]. destruct (pressed w key); [done|].
  cbn. destruct (movementInterval w); [done|].
  unfold sendMoveCommandForActiveKeys. cbn. by rewrite Hc.
Qed.

Lemma sent_handleKeyUp_disconnected key w :
  isConnected w = false →
  sent (handleKeyUp key w) = sent w ∧ isConnected (handleKeyUp key w) = false.
Proof.
  intros Hc. unfold handleKeyUp, stopContinuousMovement, sendStopCommand.
  destruct (negb _); [done|]. destruct (negb (anyKeyPressed _)); [|done].
  cbn. destruct (movementInterval w); cbn; by rewrite Hc.
Qed.

(** C9. While the session is not connected, every send of an outbound
    action (a directional move, the move for the active keys, a stop, a
    click-to-move) returns the state it was given: nothing is handed to the
    socket, nothing is recorded for later, and no error is raised. The key
    handlers that lead to such sends leave the log of sent messages as it
    was. *)
Theorem send_disconnected_noop (w : World) :
  isConnected w = false →
  (∀ key, sendMoveCommand key w = w) ∧
  sendMoveCommandForActiveKeys w = w ∧
  sendStopCommand w = w ∧
  (∀ ev, handleCanvasClick ev w = w) ∧
  (∀ key, sent (handleKeyDown key w) = sent w) ∧
  (∀ key, sent (handleKeyUp key w) = sent w) ∧
  (∀ id w', dispatch w (IntervalFire id) = Some w' → w' = w).
Proof.
  intros Hc. repeat split.
  - intros key. unfold sendMoveCommand. by rewrite Hc.
  - unfold sendMoveCommandForActiveKeys. by rewrite Hc.
  - unfold sendStopCommand. by rewrite Hc.
  - intros ev. unfold handleCanvasClick. by rewrite Hc.
  - intros key. by apply sent_handleKeyDown_disconnected.
  - intros key. by apply sent_handleKeyUp_disconnected.
  - intros id w' Hd. cbn in Hd. case_bool_decide; simplify_eq.
    unfold sendMoveCommandForActiveKeys. by rewrite Hc.
Qed.

(** C9, an instance: the state right after construction, not yet connected. *)
Lemma send_disconnected_noop_witness :
  (∀ key, sendMoveCommand key (init 800 600) = init 800 600) ∧
  sendMoveCommandForActiveKeys (init 800 600) = init 800 600 ∧
  sendStopCommand (init 800 600) = init 800 600 ∧
  (∀ ev, handleCanvasClick ev (init 800 600) = init 800 600) ∧
  (∀ key, sent (handleKeyDown key (init 800 600)) = sent (init 800 600)) ∧
  (∀ key, sent (handleKeyUp key (init 800 600)) = sent (init 800 600)) ∧
  (∀ id w', dispatch (init 800 600) (IntervalFire id) = Some w' → w' = init 800 600).
Proof. apply (send_disconnected_noop (init 800 600)). reflexivity. Defined.

Lemma stray_keyup_sends_stop key w :
  isConnected w = true → isArrowKey key = true →
  (∀ k, pressed w k = false) → movementInterval w = None →
  handleKeyUp key w = socketSend Stop (set_keysPressed (<[key := false]> (keysPressed w)) w).
Proof.
  intros Hc Hk Hnone Hmi. unfold handleKeyUp. rewrite Hk. cbn [negb].
  set (w1 := set_keysPressed _ w).
  rewrite (anyKeyPressed_false w1).
  - cbn [negb]. unfold stopContinuousMovement.
    change (movementInterval w1) with (movementInterval w). rewrite Hmi.
    unfold sendStopCommand. change (isConnected w1) with (isConnected w). by rewrite Hc.
  - intros k. unfold pressed, w1. cbn.
    destruct (decide (k = key)) as [->|Hne].
    + by rewrite lookup_insert_eq.
    + rewrite lookup_insert_ne by done. apply Hnone.
Qed.

Lemma constructed_keys_released k :
  default false (keysPressed constructed !! k) = false.
Proof.
  unfold constructed. cbn [keysPressed].
  destruct (decide (k = "ArrowUp")) as [->|H1]; [done|].
  destruct (decide (k = "ArrowDown")) as [->|H2]; [done|].
  destruct (decide (k = "ArrowLeft")) as [->|H3]; [done|].
  destruct (decide (k = "ArrowRight")) as [->|H4]; [done|].
  by rewrite !lookup_insert_ne, lookup_singleton_ne by done.
Qed.

(** C10. There is a run in which a directional key-up arrives while the
    session is connected, no directional key is held and no movement repeat
    is running, and the client still sends one stop action: after the
    socket has opened, a stray key-up adds exactly [Stop] to what was sent.
    In every such state a directional key-up sends exactly one stop. *)
Theorem stray_keyup_still_sends_stop :
  (∃ w w',
     run (init 800 600) [SocketOpen 0] = Some w ∧
     isConnected w = true ∧ movementInterval w = None ∧
     (∀ k, pressed w k = false) ∧
     dispatch w (KeyUp "ArrowLeft") = Some w' ∧
     sent w' = sent w ++ [Stop]) ∧
  (∀ w key,
     isConnected w = true → isArrowKey key = true →
     (∀ k, pressed w k = false) → movementInterval w = None →
     sent (handleKeyUp key w) = sent w ++ [Stop]).
Proof.
  split.
  - exists (socket_onopen (setReadyState 0 OPEN (init 800 600))),
      (handleKeyUp "ArrowLeft" (socket_onopen (setReadyState 0 OPEN (init 800 600)))).
    split; [by vm_compute|]. split; [by vm_compute|]. split; [by vm_compute|].
    split; [apply constructed_keys_released|]. split; [by vm_compute|].
    by vm_compute.
  - intros w key Hc Hk Hnone Hmi. by rewrite stray_keyup_sends_stop.
Qed.

(** ** Further properties of the specification *)

Lemma reconnected_reachable : reachable reconnected.
Proof.
  exists 800, 600, reconnection. unfold reconnected.
  destruct (run (init 800 600) reconnection) eqn:Hrun; [done|].
  vm_compute in Hrun. discriminate.
Qed.

(** X3, an instance: [reconnected], whose second socket is the open one. *)
Lemma connected_socket_open_witness :
  ∃ s, socket reconnected = Some s ∧ length (sockets reconnected) = S s ∧
       sockets reconnected !! s = Some OPEN ∧
       ∀ i, (i < s)%nat → sockets reconnected !! i = Some CLOSED.
Proof. apply (connected_socket_open reconnected reconnected_reachable). reflexivity. Defined.

Lemma playing_plain : plainSession playing.
Proof.
  exists 800, 600, joining. split; [by vm_compute|]. unfold playing.
  destruct (run (init 800 600) joining) eqn:Hrun; [done|].
  vm_compute in Hrun. discriminate.
Qed.

(** X4, an instance: the local player of [playing]. *)
Lemma interp_keys_agree_witness :
  is_Some (playerPositions playing !! "me") ↔ is_Some (playerTargets playing !! "me").
Proof. apply (interp_keys_agree playing playing_plain "me"). Defined.

(** X5. In every reachable state the zoom level lies in [[0.5, 3]], the world
    is 2048 x 2048 and the camera easing factor is 0.1. *)
Theorem zoom_within_limits w :
  reachable w →
  (1 # 2 <= zoomLevel w <= 3 ∧ worldWidth w == 2048 ∧ worldHeight w == 2048 ∧
   cameraEasing w == 1 # 10)%Q.
Proof. by intros [_ H]%reachable_viewInv. Qed.

(** X5, an instance: [playing], zoomed to 1.2. *)
Lemma zoom_within_limits_witness :
  (1 # 2 <= zoomLevel playing <= 3 ∧ worldWidth playing == 2048 ∧
   worldHeight playing == 2048 ∧ cameraEasing playing == 1 # 10)%Q.
Proof. apply (zoom_within_limits playing playing_reachable). Defined.

(** X6. Whatever [drawPlayer] draws for an entity that faces west is a frame
    of the east set with the horizontal mirror flag set; for every other
    facing it is a frame of that facing's set, not mirrored. *)
Theorem west_draws_mirrored_east w player direction frame flip glow :
  drawPlayer w player = Sprite direction frame flip glow →
  (facingOf player = "west" → direction = "east" ∧ flip = true) ∧
  (facingOf player ≠ "west" → direction = facingOf player ∧ flip = false).
Proof.
  unfold drawPlayer. intros Hdraw.
  destruct (String.eqb (facingOf player) "west") eqn:Hw.
  - apply String.eqb_eq in Hw. split; [|done]. intros _.
    repeat case_match; simplify_eq; done.
  - apply String.eqb_neq in Hw. split; [done|]. intros _.
    repeat case_match; simplify_eq; done.
Qed.

(** X6, an instance: [westward] with its avatar loaded is drawn as the
    mirrored first east frame. *)
Lemma west_draws_mirrored_east_witness :
  (facingOf westward = "west" → "east" = "east" ∧ true = true) ∧
  (facingOf westward ≠ "west" → "east" = facingOf westward ∧ true = false).
Proof.
  apply (west_draws_mirrored_east (set_avatarImages knightImages (init 800 600))
           westward "east" 0 true false).
  vm_compute. reflexivity.
Defined.

(** ** The key-repeat state machine *)

Lemma sendMoveCommandForActiveKeys_cases w :
  sendMoveCommandForActiveKeys w = w ∨
  ∃ direction, direction ∈ directions ∧ isConnected w = true ∧
               sendMoveCommandForActiveKeys w = socketSend (MoveDirection direction) w.
Proof.
  destruct (isConnected w) eqn:Hc.
  - rewrite emission_by_priority by done. unfold priorityDirection, directions.
    repeat case_match; simplify_eq; [right; eexists; split; [|done]; set_solver..|by left].
  - left. unfold sendMoveCommandForActiveKeys. by rewrite Hc.
Qed.

Lemma sendStopCommand_cases w :
  sendStopCommand w = w ∨ (isConnected w = true ∧ sendStopCommand w = socketSend Stop w).
Proof.
  unfold sendStopCommand. destruct (isConnected w); [by right|by left].
Qed.

Lemma anyKeyPressed_some w : anyKeyPressed w = true → ∃ key, pressed w key = true.
Proof.
  unfold anyKeyPressed, pressed. intros ([key b] & Hin & Hb)%existsb_exists.
  cbn in Hb. subst b. apply list_elem_of_In, elem_of_map_to_list in Hin.
  exists key. by rewrite Hin.
Qed.

Lemma inputInv_view w w' : inputView w' = inputView w → inputInv w → inputInv w'.
Proof.
  unfold inputView, inputInv, pressed. intros Hv. simplify_eq. by rewrite H, H0.
Qed.

Lemma render_inputView t w : inputView (render t w) = inputView w.
Proof.
  pose proof (render_outsideFrame t w) as H. unfold outsideFrame in H.
  unfold inputView. simplify_eq. congruence.
Qed.

Lemma loadAvatars_outsideStore w (avs : gmap string avatar) :
  outsideStore (map_fold loadAvatar w avs) = outsideStore w.
Proof.
  apply (map_fold_weak_ind (λ r _, outsideStore r = outsideStore w)); [done|].
  intros name a m r _ IH. unfold loadAvatar. by case_decide.
Qed.

Lemma render_outsideStore t w : outsideStore (render t w) = outsideStore w.
Proof.
  pose proof (render_outsideFrame t w) as H. unfold outsideFrame in H.
  unfold outsideStore. simplify_eq. congruence.
Qed.

Lemma handleServerMessage_outsideStore message w :
  outsideStore (handleServerMessage message w) = outsideStore w.
Proof.
  destruct message as [id ps avs|err|moved|player av|id|action]; cbn; try done.
  - unfold handleJoinGameSuccess, loadAvatarImages.
    by rewrite render_outsideStore, loadAvatars_outsideStore.
  - unfold handlePlayersMove. rewrite render_outsideStore. cbn.
    repeat case_match; done.
  - unfold handlePlayerJoined. rewrite render_outsideStore. by destruct av.
  - unfold handlePlayerLeft. by rewrite render_outsideStore.
Qed.

Lemma handleServerMessage_inputView message w :
  inputView (handleServerMessage message w) = inputView w.
Proof.
  pose proof (handleServerMessage_outsideStore message w) as H.
  unfold outsideStore in H. unfold inputView. simplify_eq. congruence.
Qed.

Lemma sendMoveCommandForActiveKeys_inputView w :
  inputView (sendMoveCommandForActiveKeys w) = inputView w.
Proof.
  destruct (sendMoveCommandForActiveKeys_cases w) as [->|(d & _ & _ & ->)]; done.
Qed.

Lemma startContinuousMovement_input w :
  keysPressed (startContinuousMovement w) = keysPressed w ∧
  is_Some (movementInterval (startContinuousMovement w)).
Proof.
  unfold startContinuousMovement. destruct (movementInterval w) eqn:Hmi.
  - rewrite Hmi. eauto.
  - pose proof (sendMoveCommandForActiveKeys_inputView w) as Hs.
    unfold inputView in Hs. unfold setMovementInterval. cbn. simplify_eq. eauto.
Qed.

Lemma handleKeyDown_inputInv key w : inputInv w → inputInv (handleKeyDown key w).
Proof.
  intros [Harrow Hrun]. unfold handleKeyDown.
  destruct (isArrowKey key) eqn:Hk; [|done]. cbn [negb].
  destruct (pressed w key) eqn:Hp; [done|].
  apply bool_decide_eq_true in Hk.
  set (w1 := set_keysPressed _ w).
  assert (∀ k, pressed w1 k = true → k = key ∨ pressed w k = true) as Hw1.
  { intros k. unfold pressed, w1. cbn. destruct (decide (k = key)) as [->|Hne]; [by left|].
    rewrite lookup_insert_ne by done. by right. }
  assert (pressed w1 key = true) as Hkey.
  { unfold pressed, w1. cbn. by rewrite lookup_insert_eq. }
  destruct (startContinuousMovement_input w1) as [Hkeys Hsome].
  split.
  - intros k. unfold pressed. rewrite Hkeys. intros [->|Hk']%Hw1; [done|by apply Harrow].
  - split; [|done]. intros _. exists key. unfold pressed. by rewrite Hkeys.
Qed.

Lemma handleKeyUp_inputInv key w : inputInv w → inputInv (handleKeyUp key w).
Proof.
  intros [Harrow Hrun]. unfold handleKeyUp.
  destruct (isArrowKey key) eqn:Hk; [|done]. cbn [negb].
  set (w1 := set_keysPressed _ w).
  assert (∀ k, pressed w1 k = true → k ≠ key ∧ pressed w k = true) as Hw1.
  { intros k. unfold pressed, w1. cbn. destruct (decide (k = key)) as [->|Hne].
    - by rewrite lookup_insert_eq.
    - by rewrite lookup_insert_ne. }
  destruct (anyKeyPressed w1) eqn:Hany; cbn [negb].
  - split.
    + intros k [_ Hp]%Hw1. by apply Harrow.
    + change (movementInterval w1) with (movementInterval w). split.
      * intros _. by apply anyKeyPressed_some.
      * intros [k [_ Hp]%Hw1]. apply Hrun. eauto.
  - assert (∀ k, pressed w1 k = false) as Hnone.
    { intros k. destruct (pressed w1 k) eqn:Hp; [|done].
      by rewrite (anyKeyPressed_true w1 k Hp) in Hany. }
    assert (inputView (stopContinuousMovement w1) = (keysPressed w1, None)) as Hv.
    { unfold stopContinuousMovement. destruct (movementInterval w1) eqn:Hmi.
      - match goal with |- context [sendStopCommand ?w2] =>
          destruct (sendStopCommand_cases w2) as [->|[_ ->]] end; done.
      - destruct (sendStopCommand_cases w1) as [->|[_ ->]];
          unfold inputView; cbn [keysPressed movementInterval socketSend set_sent];
          by rewrite Hmi. }
    unfold inputView in Hv. simplify_eq. split.
    + intros k. unfold pressed. rewrite H. intros Hp. change (pressed w1 k = true) in Hp.
      by rewrite Hnone in Hp.
    + rewrite H0. split; [by intros [? ?]|].
      intros [k Hp]. unfold pressed in Hp. rewrite H in Hp.
      change (pressed w1 k = true) in Hp. by rewrite Hnone in Hp.
Qed.

Lemma dispatch_inputInv w e w' : inputInv w → dispatch w e = Some w' → inputInv w'.
Proof.
  intros Hinv Hd. destruct e; cbn in Hd.
  - destruct (Qle_bool 0 currentTime); simplify_eq.
    eapply inputInv_view; [apply render_inputView|done].
  - simplify_eq. unfold resizeCanvas. cbn. destruct (worldImage w); [|done].
    eapply inputInv_view; [apply render_inputView|done].
  - simplify_eq. eapply inputInv_view; [apply render_inputView|done].
  - destruct (loadingImage _ _ _ _); simplify_eq.
    eapply inputInv_view; [apply render_inputView|done].
  - simplify_eq. eapply inputInv_view; [|by apply handleKeyDown_inputInv].
    unfold handleKeyboardShortcuts. repeat case_match; done.
  - simplify_eq. by apply handleKeyUp_inputInv.
  - simplify_eq. unfold handleCanvasClick. by destruct (_ || _).
  - simplify_eq. unfold handleMouseWheel.
    eapply inputInv_view; [apply render_inputView|]. by destruct (negb _).
  - destruct (sockets w !! s) as [[]|]; simplify_eq. done.
  - destruct (sockets w !! s) as [[]|]; simplify_eq.
    destruct data; cbn; [|done].
    eapply inputInv_view; [apply handleServerMessage_inputView|done].
  - destruct (sockets w !! s) as [[]|]; by simplify_eq.
  - destruct (sockets w !! s) as [[]|]; by simplify_eq.
  - case_bool_decide; by simplify_eq.
  - case_bool_decide; simplify_eq.
    eapply inputInv_view; [apply sendMoveCommandForActiveKeys_inputView|done].
Qed.

Lemma reachable_inputInv w : reachable w → inputInv w.
Proof.
  apply (reachable_invariant inputInv).
  - intros iw ih. split.
    + intros key Hp. change (default false (keysPressed constructed !! key) = true) in Hp.
      by rewrite constructed_keys_released in Hp.
    + split; [by intros [? ?]|]. intros [key Hp].
      change (default false (keysPressed constructed !! key) = true) in Hp.
      by rewrite constructed_keys_released in Hp.
  - intros. by eapply dispatch_inputInv.
Qed.

Lemma holdingUp_reachable : reachable holdingUp.
Proof.
  exists 800, 600, [SocketOpen 0; KeyDown "ArrowUp"]. unfold holdingUp.
  destruct (run (init 800 600) _) eqn:Hrun; [done|].
  vm_compute in Hrun. discriminate.
Qed.

(** X7. In every reachable state the movement-repeat timer is armed exactly
    while some arrow key is recorded as pressed, only the four arrow keys
    are ever recorded as pressed, and the timer the handle names is the only
    repeat timer there is. *)
Theorem repeat_armed_while_key_held w :
  reachable w →
  (is_Some (movementInterval w) ↔ ∃ key, key ∈ keyPriority ∧ pressed w key = true) ∧
  (∀ key, pressed w key = true → key ∈ keyPriority) ∧
  intervals w = option_list (movementInterval w).
Proof.
  intros Hr. destruct (reachable_inputInv w Hr) as [Harrow Hrun].
  destruct (reachable_timersInv w Hr) as [Hint _].
  split; [|done]. rewrite Hrun. split.
  - intros [key Hp]. eauto.
  - intros (key & _ & Hp). eauto.
Qed.

(** X7, an instance: ArrowUp held in an open session. *)
Lemma repeat_armed_while_key_held_witness :
  (is_Some (movementInterval holdingUp) ↔
     ∃ key, key ∈ keyPriority ∧ pressed holdingUp key = true) ∧
  (∀ key, pressed holdingUp key = true → key ∈ keyPriority) ∧
  intervals holdingUp = option_list (movementInterval holdingUp).
Proof. apply (repeat_armed_while_key_held holdingUp holdingUp_reachable). Defined.

Lemma held_key_direction w key :
  key ∈ keyPriority → pressed w key = true →
  ∃ direction, direction ∈ directions ∧
    priorityDirection (pressed w "ArrowUp") (pressed w "ArrowDown")
      (pressed w "ArrowLeft") (pressed w "ArrowRight") = Some direction.
Proof.
  unfold keyPriority, priorityDirection, directions. intros Hk Hp.
  repeat (apply elem_of_cons in Hk as [->|Hk]; [rewrite ?Hp; clear Hp|]);
    [| | | |by apply elem_of_nil in Hk];
    repeat case_match; eexists; (split; [|done]); set_solver.
Qed.

(** X8. In a reachable state of a connected session every tick of the
    movement-repeat timer hands exactly one message to the socket, a move in
    one of the four directions, and changes nothing else. *)
Theorem repeat_tick_sends_one_move w id w' :
  reachable w → isConnected w = true → dispatch w (IntervalFire id) = Some w' →
  ∃ direction, direction ∈ directions ∧ w' = socketSend (MoveDirection direction) w.
Proof.
  intros Hr Hc Hd. cbn in Hd. case_bool_decide as Hid; simplify_eq.
  destruct (reachable_inputInv w Hr) as [Harrow Hrun].
  destruct (reachable_timersInv w Hr) as [Hint _].
  assert (is_Some (movementInterval w)) as Hsome.
  { destruct (movementInterval w); [done|]. rewrite Hint in Hid. by apply elem_of_nil in Hid. }
  apply Hrun in Hsome as [key Hp].
  destruct (held_key_direction w key (Harrow key Hp) Hp) as (direction & Hdir & Hprio).
  exists direction. split; [done|]. by rewrite emission_by_priority, Hprio.
Qed.

(** X8, an instance: the first tick while ArrowUp is held. *)
Lemma repeat_tick_sends_one_move_witness :
  ∃ direction, direction ∈ directions ∧
    sendMoveCommandForActiveKeys holdingUp = socketSend (MoveDirection direction) holdingUp.
Proof.
  apply (repeat_tick_sends_one_move holdingUp 1 _ holdingUp_reachable); reflexivity.
Defined.

Lemma idle_reachable : reachable idle.
Proof.
  exists 800, 600, [SocketOpen 0]. unfold idle.
  destruct (run (init 800 600) _) eqn:Hrun; [done|].
  vm_compute in Hrun. discriminate.
Qed.

Lemma arrow_not_shortcut key w :
  key ∈ keyPriority → handleKeyboardShortcuts key w = w.
Proof.
  unfold keyPriority. intros Hk.
  repeat (apply elem_of_cons in Hk as [->|Hk]); [done..|by apply elem_of_nil in Hk].
Qed.

Lemma keyToDirection_arrow key direction :
  keyToDirection !! key = Some direction →
  (key, direction) ∈ [("ArrowUp", "up"); ("ArrowDown", "down"); ("ArrowLeft", "left");
                      ("ArrowRight", "right")].
Proof.
  unfold keyToDirection. rewrite !lookup_insert_Some, lookup_singleton_Some.
  intros H. destruct_or?; destruct_and?; simplify_eq; set_solver.
Qed.

Lemma keydown_from_idle w key direction :
  isConnected w = true → movementInterval w = None → (∀ k, pressed w k = false) →
  keyToDirection !! key = Some direction →
  handleKeyDown key w =
  setMovementInterval
    (socketSend (MoveDirection direction) (set_keysPressed (<[key := true]> (keysPressed w)) w)).
Proof.
  intros Hc Hmi Hnone Hk. apply keyToDirection_arrow in Hk.
  assert (key ∈ keyPriority) as Harrow.
  { unfold keyPriority. set_solver. }
  unfold handleKeyDown, isArrowKey.
  rewrite (bool_decide_eq_true_2 _ Harrow), Hnone. cbn [negb].
  set (w1 := set_keysPressed _ w).
  unfold startContinuousMovement. change (movementInterval w1) with (movementInterval w).
  rewrite Hmi, emission_by_priority by done.
  assert (∀ k, pressed w1 k = bool_decide (k = key)) as Hw1.
  { intros k. unfold pressed, w1. cbn. case_bool_decide as Hkk.
    - subst k. by rewrite lookup_insert_eq.
    - rewrite lookup_insert_ne by done. apply Hnone. }
  rewrite !Hw1.
  assert (priorityDirection (bool_decide ("ArrowUp" = key)) (bool_decide ("ArrowDown" = key))
            (bool_decide ("ArrowLeft" = key)) (bool_decide ("ArrowRight" = key))
          = Some direction) as ->; [|done].
  repeat (apply elem_of_cons in Hk as [Hk|Hk]; [by simplify_eq|]).
  by apply elem_of_nil in Hk.
Qed.

Lemma tap_from_idle w key direction :
  isConnected w = true → movementInterval w = None → (∀ k, pressed w k = false) →
  keyToDirection !! key = Some direction →
  handleKeyUp key (handleKeyboardShortcuts key (handleKeyDown key w)) =
  socketSend Stop
    (set_movementInterval None
      (clearInterval (nextTimerId w)
        (set_keysPressed (<[key := false]> (<[key := true]> (keysPressed w)))
          (setMovementInterval
            (socketSend (MoveDirection direction)
              (set_keysPressed (<[key := true]> (keysPressed w)) w)))))).
Proof.
  intros Hc Hmi Hnone Hk.
  rewrite (keydown_from_idle w key direction) by done.
  apply keyToDirection_arrow in Hk.
  assert (key ∈ keyPriority) as Harrow.
  { unfold keyPriority. set_solver. }
  rewrite arrow_not_shortcut by done.
  unfold handleKeyUp, isArrowKey.
  rewrite (bool_decide_eq_true_2 _ Harrow). cbn [negb]. cbv zeta.
  set (w2 := setMovementInterval _).
  change (keysPressed w2) with (<[key := true]> (keysPressed w)).
  set (w3 := set_keysPressed _ w2).
  rewrite (anyKeyPressed_false w3);
    [cbn [negb]; unfold stopContinuousMovement, sendStopCommand;
     change (movementInterval w3) with (Some (nextTimerId w)); cbv iota;
     change (isConnected (set_movementInterval None (clearInterval (nextTimerId w) w3)))
       with (isConnected w); by rewrite Hc|].
  intros k. unfold pressed, w3. cbn. destruct (decide (k = key)) as [->|Hne].
  - by rewrite lookup_insert_eq.
  - rewrite !lookup_insert_ne by done. apply Hnone.
Qed.

(** X9. A tap on an arrow key in a connected, idle, reachable state -- the
    key goes down and up again with no other callback in between -- hands
    the socket the move in that key's direction followed by one stop, and
    leaves the client idle again: no key recorded as pressed and no repeat
    timer armed or pending. *)
Theorem tap_sends_move_then_stop w key direction w' :
  reachable w → isConnected w = true → movementInterval w = None →
  keyToDirection !! key = Some direction →
  run w [KeyDown key; KeyUp key] = Some w' →
  sent w' = sent w ++ [MoveDirection direction; Stop] ∧
  movementInterval w' = None ∧ intervals w' = [] ∧ (∀ k, pressed w' k = false).
Proof.
  intros Hr Hc Hmi Hk Hrun.
  destruct (reachable_inputInv w Hr) as [_ Hrunning].
  destruct (reachable_timersInv w Hr) as [Hint _].
  rewrite Hmi in Hint, Hrunning. cbn in Hint.
  assert (∀ k, pressed w k = false) as Hnone.
  { intros k. destruct (pressed w k) eqn:Hp; [|done].
    destruct (proj2 Hrunning (ex_intro _ k Hp)) as [? ?]. discriminate. }
  change (Some (handleKeyUp key (handleKeyboardShortcuts key (handleKeyDown key w))) = Some w')
    in Hrun.
  rewrite (tap_from_idle w key direction) in Hrun by done. simplify_eq.
  cbn [sent socketSend set_sent set_movementInterval clearInterval set_intervals
       set_keysPressed setMovementInterval set_nextTimerId movementInterval intervals].
  rewrite Hint, <- (assoc_L (++)). split; [done|]. split; [done|]. split.
  - cbn. by rewrite decide_False by (by intros ?).
  - intros k. unfold pressed. cbn. destruct (decide (k = key)) as [->|Hne].
    + by rewrite lookup_insert_eq.
    + rewrite !lookup_insert_ne by done. apply Hnone.
Qed.

(** X9, an instance: a tap on ArrowLeft right after the socket opened. *)
Lemma tap_sends_move_then_stop_witness :
  sent (handleKeyUp "ArrowLeft" (handleKeyDown "ArrowLeft" idle)) =
    sent idle ++ [MoveDirection "left"; Stop] ∧
  movementInterval (handleKeyUp "ArrowLeft" (handleKeyDown "ArrowLeft" idle)) = None ∧
  intervals (handleKeyUp "ArrowLeft" (handleKeyDown "ArrowLeft" idle)) = [] ∧
  (∀ k, pressed (handleKeyUp "ArrowLeft" (handleKeyDown "ArrowLeft" idle)) k = false).
Proof.
  apply (tap_sends_move_then_stop idle "ArrowLeft" "left" _ idle_reachable); reflexivity.
Defined.

(** ** What reaches the socket *)

Lemma render_sent t w : sent (render t w) = sent w.
Proof.
  pose proof (render_outsideStore t w) as H. unfold outsideStore in H. by simplify_eq.
Qed.

Lemma handleServerMessage_sent message w : sent (handleServerMessage message w) = sent w.
Proof.
  pose proof (handleServerMessage_outsideStore message w) as H.
  unfold outsideStore in H. by simplify_eq.
Qed.

Lemma handleKeyboardShortcuts_sent key w : sent (handleKeyboardShortcuts key w) = sent w.
Proof. unfold handleKeyboardShortcuts. by repeat case_match. Qed.

Lemma handleKeyDown_sent key w :
  sent (handleKeyDown key w) = sent w ∨
  ∃ direction, direction ∈ directions ∧ isConnected w = true ∧
               sent (handleKeyDown key w) = sent w ++ [MoveDirection direction].
Proof.
  unfold handleKeyDown. destruct (negb _); [by left|]. destruct (pressed w key); [by left|].
  set (w1 := set_keysPressed _ w). unfold startContinuousMovement.
  destruct (movementInterval w1); [by left|].
  destruct (sendMoveCommandForActiveKeys_cases w1) as [Hs|(d & Hd & Hc & Hs)]; rewrite Hs.
  - by left.
  - right. by exists d.
Qed.

Lemma handleKeyUp_sent key w :
  sent (handleKeyUp key w) = sent w ∨
  (isConnected w = true ∧ sent (handleKeyUp key w) = sent w ++ [Stop]).
Proof.
  unfold handleKeyUp. destruct (negb _); [by left|]. cbv zeta.
  set (w1 := set_keysPressed _ w). destruct (negb _); [|by left].
  unfold stopContinuousMovement.
  match goal with |- context [sendStopCommand ?w2] =>
    destruct (sendStopCommand_cases w2) as [Hs|[Hc Hs]]; rewrite Hs;
    [left|right; split; [revert Hc|]] end;
    by destruct (movementInterval w1).
Qed.

(** X10. A callback hands at most one message to the socket, and only of the
    kind that belongs to it: the join request when the socket opens, a move
    in one of the four directions on a key-down or a repeat tick, a stop on
    a key-up, a point on a click. Frames, resizes, image loads, wheel
    turns, server messages, socket errors and closes and the reconnect
    timer send nothing, and while the session is not flagged connected
    nothing but the opening of the socket sends. *)
Theorem callback_sends_at_most_one w e w' :
  dispatch w e = Some w' →
  sent w' = sent w ∨
  ∃ message, sent w' = sent w ++ [message] ∧ emits e message ∧
             (isConnected w = true ∨ ∃ s, e = SocketOpen s).
Proof.
  intros Hd. destruct e; cbn in Hd.
  - destruct (Qle_bool 0 currentTime); simplify_eq. left. apply render_sent.
  - simplify_eq. left. unfold resizeCanvas. cbn. destruct (worldImage w); [|done].
    by rewrite render_sent.
  - simplify_eq. left. apply render_sent.
  - destruct (loadingImage _ _ _ _); simplify_eq. left. by rewrite render_sent.
  - simplify_eq. rewrite handleKeyboardShortcuts_sent.
    destruct (handleKeyDown_sent key w) as [Hs|(d & Hdir & Hc & Hs)]; rewrite Hs; [by left|].
    right. exists (MoveDirection d). auto.
  - simplify_eq. destruct (handleKeyUp_sent key w) as [Hs|[Hc Hs]]; rewrite Hs; [by left|].
    right. exists Stop. cbn. auto.
  - simplify_eq. unfold handleCanvasClick.
    destruct (isConnected w) eqn:Hc; [|by left]. cbn [negb orb].
    destruct (negb _); [by left|]. right. eexists (MoveTo _ _). cbn. auto.
  - simplify_eq. left. unfold handleMouseWheel. rewrite render_sent. by destruct (negb _).
  - destruct (sockets w !! s) as [[]|]; simplify_eq.
    right. exists (JoinGame "Mike"). cbn. eauto.
  - destruct (sockets w !! s) as [[]|]; simplify_eq. left.
    destruct data; [apply handleServerMessage_sent|done].
  - left. destruct (sockets w !! s) as [[]|]; by simplify_eq.
  - left. destruct (sockets w !! s) as [[]|]; by simplify_eq.
  - left. case_bool_decide; by simplify_eq.
  - case_bool_decide; simplify_eq.
    destruct (sendMoveCommandForActiveKeys_cases w) as [Hs|(d & Hdir & Hc & Hs)];
      rewrite Hs; [by left|].
    right. exists (MoveDirection d). auto.
Qed.

(** X10, an instance: ArrowLeft goes down in an idle session. *)
Lemma callback_sends_at_most_one_witness :
  sent (handleKeyboardShortcuts "ArrowLeft" (handleKeyDown "ArrowLeft" idle)) = sent idle ∨
  ∃ message,
    sent (handleKeyboardShortcuts "ArrowLeft" (handleKeyDown "ArrowLeft" idle)) =
      sent idle ++ [message] ∧
    emits (KeyDown "ArrowLeft") message ∧
    (isConnected idle = true ∨ ∃ s, KeyDown "ArrowLeft" = SocketOpen s).
Proof. apply (callback_sends_at_most_one idle (KeyDown "ArrowLeft")). reflexivity. Defined.

(** ** Reconnection *)

Lemma closing_socket_is_current w s :
  connInv w → timersInv w →
  (sockets w !! s = Some CONNECTING ∨ sockets w !! s = Some OPEN) →
  socket w = Some s ∧ length (sockets w) = S s ∧ timeouts w = [].
Proof.
  intros (s0 & Hs0 & Hlen & Hclosed & _ & Htimer) [_ Hone] Hlive.
  assert (s = s0) as ->.
  { assert (s < length (sockets w))%nat.
    { apply lookup_lt_is_Some. destruct Hlive as [->| ->]; eauto. }
    destruct (decide (s < s0)%nat) as [Hlt|]; [|lia].
    rewrite (Hclosed s Hlt) in Hlive. by destruct Hlive. }
  split; [done|]. split; [done|].
  destruct (timeouts w) eqn:Ht; [done|].
  rewrite Htimer in Hlive by done. by destruct Hlive.
Qed.

(** X11. When the socket of a reachable state closes, exactly one reconnect
    timer is pending and the session is flagged disconnected; once that
    timer has fired and the socket it creates has opened, the session is
    connected again on the new socket, exactly one further message, the
    join request, has been sent, and everything the client knew of the game
    and of the keyboard -- its player id, the entity store, the avatars,
    the interpolation records, the keys held and the repeat timer -- is
    what it was before the socket closed. *)
Theorem reconnect_rejoins_with_state w s w1 :
  reachable w → dispatch w (SocketClose s) = Some w1 →
  ∃ id w3,
    timeouts w1 = [id] ∧ isConnected w1 = false ∧
    run w1 [TimeoutFire id; SocketOpen (S s)] = Some w3 ∧
    socket w3 = Some (S s) ∧ sockets w3 !! S s = Some OPEN ∧ isConnected w3 = true ∧
    timeouts w3 = [] ∧ sent w3 = sent w ++ [JoinGame "Mike"] ∧
    sessionView w3 = sessionView w.
Proof.
  intros [Htimers Hconn]%reachable_sessionInv Hd. cbn in Hd.
  assert (sockets w !! s = Some CONNECTING ∨ sockets w !! s = Some OPEN) as Hlive.
  { destruct (sockets w !! s) as [[]|]; simplify_eq; auto. }
  destruct (closing_socket_is_current w s Hconn Htimers Hlive) as (Hs & Hlen & Hnone).
  assert (w1 = socket_onclose (setReadyState s CLOSED w)) as ->.
  { destruct Hlive as [Hl|Hl]; rewrite Hl in Hd; by simplify_eq. }
  clear Hd. exists (nextTimerId w).
  assert (timeouts (socket_onclose (setReadyState s CLOSED w)) = [nextTimerId w]) as Ht.
  { cbn. by rewrite Hnone. }
  set (w1 := socket_onclose _) in *.
  set (w2 := connectToServer (set_timeouts [] w1)).
  assert (dispatch w1 (TimeoutFire (nextTimerId w)) = Some w2) as Hfire.
  { cbn [dispatch]. rewrite Ht. rewrite bool_decide_eq_true_2 by set_solver.
    cbn [filter list_filter]. by rewrite decide_False by (by intros ?). }
  assert (sockets w2 = <[s := CLOSED]> (sockets w) ++ [CONNECTING]) as Hsockets by done.
  assert (sockets w2 !! S s = Some CONNECTING) as Hnew.
  { rewrite Hsockets, lookup_app_r; rewrite length_insert, Hlen; [|done].
    by rewrite Nat.sub_diag. }
  exists (socket_onopen (setReadyState (S s) OPEN w2)).
  split; [done|]. split; [done|]. split.
  { cbn [run]. rewrite Hfire. cbn [mbind option_bind dispatch]. by rewrite Hnew. }
  split.
  { cbn. by rewrite length_insert, Hlen. }
  split.
  { cbn. rewrite list_lookup_insert_eq; [done|].
    rewrite length_app, length_insert, Hlen. cbn. lia. }
  done.
Qed.

(** X11, an instance: the first socket of an idle session closes. *)
Lemma reconnect_rejoins_with_state_witness :
  ∃ id w3,
    timeouts (socket_onclose (setReadyState 0 CLOSED idle)) = [id] ∧
    isConnected (socket_onclose (setReadyState 0 CLOSED idle)) = false ∧
    run (socket_onclose (setReadyState 0 CLOSED idle)) [TimeoutFire id; SocketOpen 1]
      = Some w3 ∧
    socket w3 = Some 1%nat ∧ sockets w3 !! 1%nat = Some OPEN ∧ isConnected w3 = true ∧
    timeouts w3 = [] ∧ sent w3 = sent idle ++ [JoinGame "Mike"] ∧
    sessionView w3 = sessionView idle.
Proof.
  apply (reconnect_rejoins_with_state idle 0 _ idle_reachable). reflexivity.
Defined.

(** ** The interpolation records after a frame *)

(** X13. After any frame drawn in a session in which no server message names
    an entity or an avatar after a property of [Object.prototype], every
    entity of the store whose coordinates are numbers has a drawn position
    and a target, the target is the entity's position in the store, and an
    entity seen for the first time is drawn at its store position right
    away. *)
Theorem frame_records_every_entity w t id player x y :
  plainSession w → players w !! id = Some player →
  player !! "x" = Some (JNum x) → player !! "y" = Some (JNum y) →
  ∃ current target,
    playerPositions (render t w) !! id = Some current ∧
    playerTargets (render t w) !! id = Some target ∧
    samePoint target {| px := x; py := y |} ∧
    (playerPositions w !! id = None → samePoint current {| px := x; py := y |}).
Proof.
  intros Hr%plainSession_reachable Hp Hx Hy.
  assert (positionOf player = {| px := x; py := y |}) as Hpos.
  { unfold positionOf. by rewrite Hx, Hy. }
  destruct (reachable_viewInv w Hr) as [Hwi _].
  pose proof (reachable_keysAgree w Hr id) as Hagree.
  pose proof (render_interp_lookup t w id) as Hint.
  rewrite Hwi, Hp in Hint. unfold interpolateEntry in Hint. cbn [fst snd] in Hint.
  rewrite Hpos in Hint.
  destruct (playerPositions w !! id) as [c|] eqn:Hc.
  - destruct (proj1 Hagree (mk_is_Some _ _ eq_refl)) as [tg Htg].
    rewrite Htg in Hint. simplify_eq. eexists _, _.
    split; [done|]. split; [done|]. split; [apply retarget_samePoint|done].
  - simplify_eq. eexists _, _. split; [done|]. split; [done|].
    split; [by split|]. intros _. split; cbn; by apply lerp_at_rest.
Qed.

(** X13, an instance: the local player of [playing], at (1000, 700). *)
Lemma frame_records_every_entity_witness :
  ∃ current target,
    playerPositions (render 40 playing) !! "me" = Some current ∧
    playerTargets (render 40 playing) !! "me" = Some target ∧
    samePoint target {| px := 1000; py := 700 |} ∧
    (playerPositions playing !! "me" = None → samePoint current {| px := 1000; py := 700 |}).
Proof.
  apply (frame_records_every_entity playing 40 "me" (peer "me" 1000 700) 1000 700
           playing_plain); reflexivity.
Defined.

(** ** Interpolation over many frames *)

Lemma remaining_decay n : (0 < remaining n <= decay n)%Q.
Proof.
  induction n as [|n IH]; cbn [remaining decay]; [split; [reflexivity|]|lra].
  by apply Qle_bool_imp_le.
Qed.

Lemma frames_interpolate ts w id player current :
  worldImage w = true → players w !! id = Some player →
  playerPositions w !! id = Some current → is_Some (playerTargets w !! id) →
  ∃ current',
    playerPositions (frames ts w) !! id = Some current' ∧
    (px (positionOf player) - px current' ==
       remaining (length ts) * (px (positionOf player) - px current))%Q ∧
    (py (positionOf player) - py current' ==
       remaining (length ts) * (py (positionOf player) - py current))%Q.
Proof.
  revert w current. induction ts as [|t ts IH]; intros w c Hwi Hp Hc [tg Htg].
  - exists c. split; [done|]. cbn. split; ring.
  - change (frames (t :: ts) w) with (frames ts (render t w)).
    pose proof (render_interp_lookup t w id) as Hint.
    rewrite Hwi, Hp, Hc, Htg in Hint. unfold interpolateEntry in Hint.
    cbn [fst snd] in Hint. injection Hint as Hpos Htgt.
    destruct (retarget_samePoint tg (positionOf player)) as [Hx Hy].
    set (tg' := if pointDiffers tg (positionOf player) then positionOf player else tg) in *.
    assert (worldImage (render t w) = true) as Hwi'.
    { pose proof (render_outsideFrame t w) as Hout. unfold outsideFrame in Hout.
      simplify_eq. congruence. }
    destruct (IH (render t w) (lerpPoint c tg')) as (c' & Hc' & Hcx & Hcy);
      [done|by rewrite render_players|done|by rewrite Htgt|].
    exists c'. split; [done|]. cbn [length remaining].
    pose proof (lerp_offset (px c) (px tg')) as Hox.
    pose proof (lerp_offset (py c) (py tg')) as Hoy.
    cbn [lerpPoint px py] in Hcx, Hcy. rewrite Hcx, Hcy. split.
    + assert (px (positionOf player) - lerp (px c) (px tg')
              == (85 # 100) * (px (positionOf player) - px c))%Q as -> by lra. ring.
    + assert (py (positionOf player) - lerp (py c) (py tg')
              == (85 # 100) * (py (positionOf player) - py c))%Q as -> by lra. ring.
Qed.

(** X14. While frames are drawn and the store does not change, the drawn
    position of an entity that has interpolation records closes in on the
    entity's store position geometrically, whatever target was recorded
    before: after n frames exactly (85/100)^n of the offset is left on each
    axis, so the drawn position converges to the store position (in exact
    arithmetic). *)
Theorem drawn_position_converges w id player current :
  worldImage w = true → players w !! id = Some player →
  playerPositions w !! id = Some current → is_Some (playerTargets w !! id) →
  (∀ ts, ∃ current',
     playerPositions (frames ts w) !! id = Some current' ∧
     (px (positionOf player) - px current' ==
        remaining (length ts) * (px (positionOf player) - px current))%Q ∧
     (py (positionOf player) - py current' ==
        remaining (length ts) * (py (positionOf player) - py current))%Q) ∧
  (∀ eps, (0 < eps)%Q → ∃ n, ∀ ts, (n ≤ length ts)%nat → ∃ current',
     playerPositions (frames ts w) !! id = Some current' ∧
     (Qabs (px (positionOf player) - px current') < eps)%Q ∧
     (Qabs (py (positionOf player) - py current') < eps)%Q).
Proof.
  intros Hwi Hp Hc Ht. split; [intros ts; by apply frames_interpolate|].
  intros eps Heps.
  destruct (decay_small (Qabs (px (positionOf player) - px current)) eps
              (Qabs_nonneg _) Heps) as [n1 H1].
  destruct (decay_small (Qabs (py (positionOf player) - py current)) eps
              (Qabs_nonneg _) Heps) as [n2 H2].
  exists (n1 `max` n2)%nat. intros ts Hts.
  destruct (frames_interpolate ts w id player current Hwi Hp Hc Ht) as (c' & Hc' & Hx & Hy).
  exists c'. split; [done|].
  destruct (remaining_decay (length ts)) as [Hpos Hle].
  rewrite Hx, Hy, !Qabs_Qmult, (Qabs_pos (remaining (length ts))) by lra. split.
  - eapply Qle_lt_trans; [|apply (H1 (length ts)); lia].
    apply Qmult_le_compat_r; [done|apply Qabs_nonneg].
  - eapply Qle_lt_trans; [|apply (H2 (length ts)); lia].
    apply Qmult_le_compat_r; [done|apply Qabs_nonneg].
Qed.

(** X14, an instance: two frames of [walking], from x = 0 toward x = 100. *)
Lemma drawn_position_converges_witness :
  ∃ current',
    playerPositions (frames [16; 33] walking) !! "a" = Some current' ∧
    (px (positionOf walker) - px current' ==
       remaining 2 * (px (positionOf walker) - px {| px := 0; py := 40 |}))%Q ∧
    (py (positionOf walker) - py current' ==
       remaining 2 * (py (positionOf walker) - py {| px := 0; py := 40 |}))%Q.
Proof.
  refine (proj1 (drawn_position_converges walking "a" walker {| px := 0; py := 40 |}
                   _ _ _ _) [16; 33]); try reflexivity.
  by exists {| px := 100; py := 40 |}.
Defined.

(** ** The entity store: composition of updates *)

Lemma mergeUpdates_lookup (first second : gmap string object) id :
  mergeUpdates first second !! id =
  match first !! id, second !! id with
  | Some fields, Some later => Some (spread fields later)
  | Some fields, None => Some fields
  | None, o => o
  end.
Proof.
  unfold mergeUpdates. rewrite lookup_union_with.
  by destruct (first !! id), (second !! id).
Qed.

(** X15. Two [players_moved] updates, neither of which names [__proto__],
    handled one after the other leave the store as the single update does
    that carries, for each entity, the fields of the first overlaid with
    those of the second: partial updates compose, and of two values for the
    same field the later one stays. *)
Theorem handlePlayersMove_composes (first second : gmap string object) w :
  first !! "__proto__" = None → second !! "__proto__" = None →
  players (handlePlayersMove second (handlePlayersMove first w)) =
  players (handlePlayersMove (mergeUpdates first second) w).
Proof.
  intros _ _. apply map_eq. intros id.
  rewrite !handlePlayersMove_players, !mergePlayer_fold_lookup, mergeUpdates_lookup.
  destruct (players w !! id) as [existing|].
  - destruct (first !! id) as [fields|], (second !! id) as [later|]; try done.
    unfold spread. by rewrite (assoc_L (∪)).
  - destruct (first !! id) as [fields|], (second !! id) as [later|]; try done;
      by destruct (inheritedFunction id).
Qed.

(** X15, an instance: [alice] moves in x, then in y and changes her name. *)
Lemma handlePlayersMove_composes_witness :
  players (handlePlayersMove {[ "a" := {[ "y" := JNum 3; "username" := JStr "al" ]} ]}
             (handlePlayersMove {[ "a" := {[ "x" := JNum 15 ]} ]} withAlice)) =
  players (handlePlayersMove
             (mergeUpdates {[ "a" := {[ "x" := JNum 15 ]} ]}
                {[ "a" := {[ "y" := JNum 3; "username" := JStr "al" ]} ]}) withAlice).
Proof. apply handlePlayersMove_composes; reflexivity. Defined.



Lemma render_myPlayer t w : myPlayer (render t w) = myPlayer w.
Proof. frame_of (render_outsideFrame t w). Qed.

(** X17. While the client knows its id and the store holds the entity of that
    id, every [players_moved] update leaves [myPlayer] equal to the store's
    record of the local player, the received fields included. *)
Theorem local_player_refreshed moved w id :
  playerId w = Some id → id ≠ "" → is_Some (players w !! id) →
  is_Some (myPlayer (handlePlayersMove moved w)) ∧
  myPlayer (handlePlayersMove moved w) = players (handlePlayersMove moved w) !! id.
Proof.
  intros Hid Hne [existing Hex].
  rewrite handlePlayersMove_players.
  assert (is_Some (map_fold mergePlayer (players w) moved !! id)) as [me Hme].
  { rewrite mergePlayer_fold_lookup, Hex. by destruct (moved !! id). }
  unfold handlePlayersMove. rewrite render_myPlayer.
  cbn [set_players players playerId].
  rewrite Hid, (proj2 (String.eqb_neq id "") Hne). cbn [negb].
  rewrite Hme. cbn. eauto.
Qed.

(** X17, an instance: an update for the local player of [playing]. *)
Lemma local_player_refreshed_witness :
  is_Some (myPlayer (handlePlayersMove {[ "me" := {[ "x" := JNum 1010 ]} ]} playing)) ∧
  myPlayer (handlePlayersMove {[ "me" := {[ "x" := JNum 1010 ]} ]} playing) =
  players (handlePlayersMove {[ "me" := {[ "x" := JNum 1010 ]} ]} playing) !! "me".
Proof.
  apply (local_player_refreshed _ playing "me"); [reflexivity|discriminate|].
  by exists (peer "me" 1000 700).
Defined.

(** ** Avatar images *)














(** ** What a frame draws *)












Lemma render_position_recorded t w id player :
  reachable w → players w !! id = Some player →
  is_Some (playerPositions (render t w) !! id).
Proof.
  intros Hr Hp.
  destruct (reachable_viewInv w Hr) as [Hwi _].
  pose proof (reachable_keysAgree w Hr id) as Hagree.
  pose proof (render_interp_lookup t w id) as Hint.
  rewrite Hwi, Hp in Hint. unfold interpolateEntry in Hint. cbn [fst snd] in Hint.
  destruct (playerPositions w !! id) as [c|] eqn:Hc.
  - destruct (proj1 Hagree (mk_is_Some _ _ eq_refl)) as [tg Htg].
    rewrite Htg in Hint. by simplify_eq.
  - by simplify_eq.
Qed.

Lemma strolling_plain : plainSession strolling.
Proof.
  exists 800, 600, stroll. split; [by vm_compute|]. unfold strolling.
  destruct (run (init 800 600) stroll) eqn:Hrun; [done|].
  vm_compute in Hrun. discriminate.
Qed.

(** X23. In the frame drawn in a state of a session in which no server
    message names an entity or an avatar after a property of
    [Object.prototype], the trail pass draws a circle exactly for the
    entities of the store that are moving: an interpolation record without
    an entity draws none, and a moving entity has one even when this frame
    is the first to see it. The circle has radius 8 and sits at the entity's
    drawn position relative to the camera. *)
Theorem frame_trails_for_moving_entities w t id :
  plainSession w →
  (is_Some (drawVisualEffects (render t w) !! id) ↔
     ∃ player, players w !! id = Some player ∧ truthy (player !! "isMoving") = true) ∧
  (∀ trail, drawVisualEffects (render t w) !! id = Some trail →
     ∃ pos, playerPositions (render t w) !! id = Some pos ∧
       circleX trail = (px pos - px (camera (render t w)))%Q ∧
       circleY trail = (py pos - py (camera (render t w)))%Q ∧
       radius trail = 8%Q).
Proof.
  intros Hr%plainSession_reachable. unfold drawVisualEffects.
  rewrite map_lookup_imap, render_players.
  split.
  - split.
    + intros [trail Ht].
      destruct (playerPositions (render t w) !! id) as [pos|]; [|done]. cbn in Ht.
      destruct (players w !! id) as [player|]; [|done].
      destruct (truthy (player !! "isMoving")) eqn:Hm; [|done]. eauto.
    + intros (player & Hp & Hm).
      destruct (render_position_recorded t w id player Hr Hp) as [pos ->]. cbn.
      rewrite Hp, Hm. eauto.
  - intros trail Ht.
    destruct (playerPositions (render t w) !! id) as [pos|]; [|done]. cbn in Ht.
    destruct (players w !! id) as [player|]; [|done].
    destruct (truthy (player !! "isMoving")); [|done].
    exists pos. by simplify_eq.
Qed.

(** X23, an instance: the walking local player of [strolling] gets its trail
    in the first frame that sees it. *)
Lemma frame_trails_for_moving_entities_witness :
  (is_Some (drawVisualEffects (render 16 strolling) !! "a") ↔
     ∃ player, players strolling !! "a" = Some player ∧
               truthy (player !! "isMoving") = true) ∧
  is_Some (drawVisualEffects (render 16 strolling) !! "a").
Proof.
  split; [apply (frame_trails_for_moving_entities strolling 16 "a" strolling_plain)|].
  vm_compute. eauto.
Defined.

(** ** The camera of the earlier revision *)

Lemma legacy_camera_standard w me X Y :
  standardView w → myPlayer w = Some me → samePoint (positionOf me) {| px := X; py := Y |} →
  (px (camera (Legacy.updateCamera w)) == clampCamera (X - 400) 1248 ∧
   py (camera (Legacy.updateCamera w)) == clampCamera (Y - 300) 1448)%Q.
Proof.
  intros (Hcw & Hch & _ & Hww & Hwh & _) Hme [Hx Hy]. cbn in Hx, Hy.
  unfold Legacy.updateCamera, clampCamera. rewrite Hme. cbn [camera set_camera px py].
  assert (canvasWidth w / 2 == 400)%Q as Ew by (rewrite Hcw; reflexivity).
  assert (canvasHeight w / 2 == 300)%Q as Eh by (rewrite Hch; reflexivity).
  split; minmax; lra.
Qed.

(** X24. The camera of the earlier revision snaps: with the local player
    known it is put, per axis, at the player's stored coordinate minus half
    the canvas, clamped to [[0, world - canvas]] -- so whenever the canvas is
    no larger than the world the view lies within the world, and the player
    is at the centre of the canvas unless it stands within half a canvas of
    an edge; applying it twice is applying it once; and without a local
    player it does nothing. *)
Theorem legacy_camera_centres_within_world w :
  (myPlayer w = None → Legacy.updateCamera w = w) ∧
  Legacy.updateCamera (Legacy.updateCamera w) = Legacy.updateCamera w ∧
  (∀ me, myPlayer w = Some me →
     (canvasWidth w <= worldWidth w →
        0 <= px (camera (Legacy.updateCamera w)) <= worldWidth w - canvasWidth w ∧
        (canvasWidth w / 2 <= toNum (me !! "x") <= worldWidth w - canvasWidth w / 2 →
           px (camera (Legacy.updateCamera w)) + canvasWidth w / 2 == toNum (me !! "x"))) ∧
     (canvasHeight w <= worldHeight w →
        0 <= py (camera (Legacy.updateCamera w)) <= worldHeight w - canvasHeight w ∧
        (canvasHeight w / 2 <= toNum (me !! "y") <= worldHeight w - canvasHeight w / 2 →
           py (camera (Legacy.updateCamera w)) + canvasHeight w / 2 == toNum (me !! "y"))))%Q.
Proof.
  split; [|split].
  - intros Hnone. unfold Legacy.updateCamera. by rewrite Hnone.
  - unfold Legacy.updateCamera. destruct (myPlayer w) as [me|] eqn:Hme; cbn.
    + by rewrite Hme.
    + by rewrite Hme.
  - intros me Hme. unfold Legacy.updateCamera. rewrite Hme. cbn [camera set_camera px py].
    set (halfW := (canvasWidth w / 2)%Q). set (halfH := (canvasHeight w / 2)%Q).
    assert (canvasWidth w == halfW + halfW)%Q as Ew by (unfold halfW; field).
    assert (canvasHeight w == halfH + halfH)%Q as Eh by (unfold halfH; field).
    split; intros Hfit; (split; [|intros Hin]); minmax; lra.
Qed.

(** X25. In exact arithmetic the eased camera of the enhanced class tends to
    the camera of the earlier revision: for a local player whose position in
    the store stays put (the same numbers in the store and in [myPlayer]),
    wherever it is drawn at the moment, in the standard
    view (zoom 1, 800 x 600 canvas), the eased camera's distance to the
    place where the earlier revision puts the camera is at most (9/10)^n
    times the initial lag after n frames, and so falls below every positive
    bound. *)
Theorem eased_camera_tends_to_legacy_camera w me X Y :
  standingAt w X Y → standardView w → myPlayer w = Some me →
  me !! "x" = Some (JNum X) → me !! "y" = Some (JNum Y) →
  (∀ ts,
     Qabs (px (camera (frames ts w)) - px (camera (Legacy.updateCamera w)))
       <= decay (length ts)
          * lag (px (camera w)) (px (camera (Legacy.updateCamera w))) (px (localDrawn w)) X ∧
     Qabs (py (camera (frames ts w)) - py (camera (Legacy.updateCamera w)))
       <= decay (length ts)
          * lag (py (camera w)) (py (camera (Legacy.updateCamera w))) (py (localDrawn w)) Y)%Q ∧
  (∀ eps, 0 < eps → ∃ n, ∀ ts, (n ≤ length ts)%nat →
     Qabs (px (camera (frames ts w)) - px (camera (Legacy.updateCamera w))) < eps ∧
     Qabs (py (camera (frames ts w)) - py (camera (Legacy.updateCamera w))) < eps)%Q.
Proof.
  intros Hst Hview Hme Hmx Hmy.
  assert (samePoint (positionOf me) {| px := X; py := Y |}) as Hpos.
  { unfold positionOf. rewrite Hmx, Hmy. by split. }
  destruct (legacy_camera_standard w me X Y Hview Hme Hpos) as [Hlx Hly].
  assert (∀ ts,
     Qabs (px (camera (frames ts w)) - px (camera (Legacy.updateCamera w)))
       <= decay (length ts)
          * lag (px (camera w)) (px (camera (Legacy.updateCamera w))) (px (localDrawn w)) X ∧
     Qabs (py (camera (frames ts w)) - py (camera (Legacy.updateCamera w)))
       <= decay (length ts)
          * lag (py (camera w)) (py (camera (Legacy.updateCamera w))) (py (localDrawn w)) Y)%Q
    as Hgeo.
  { intros ts. destruct (frames_standing ts w X Y Hst Hview) as [Hx Hy].
    unfold lag in *. rewrite Hlx, Hly. split.
    - eapply Qle_trans; [|apply Hx]. apply camera_within_lag.
    - eapply Qle_trans; [|apply Hy]. apply camera_within_lag. }
  split; [exact Hgeo|].
  intros eps Heps.
  destruct (decay_small _ eps (lag_nonneg (px (camera w)) (px (camera (Legacy.updateCamera w)))
              (px (localDrawn w)) X) Heps) as [n1 H1].
  destruct (decay_small _ eps (lag_nonneg (py (camera w)) (py (camera (Legacy.updateCamera w)))
              (py (localDrawn w)) Y) Heps) as [n2 H2].
  exists (n1 `max` n2)%nat. intros ts Hts.
  destruct (Hgeo ts) as [Hx Hy]. split.
  - eapply Qle_lt_trans; [apply Hx|]. apply H1. lia.
  - eapply Qle_lt_trans; [apply Hy|]. apply H2. lia.
Qed.

(** X25, an instance: three frames of [arriving], a player still drawn on
    its way to where the server has put it. *)
Lemma eased_camera_tends_to_legacy_camera_witness :
  (Qabs (px (camera (frames [32; 48; 64] arriving))
         - px (camera (Legacy.updateCamera arriving)))
     <= decay 3 * lag (px (camera arriving)) (px (camera (Legacy.updateCamera arriving)))
                      (px (localDrawn arriving)) 1000 ∧
   Qabs (py (camera (frames [32; 48; 64] arriving))
         - py (camera (Legacy.updateCamera arriving)))
     <= decay 3 * lag (py (camera arriving)) (py (camera (Legacy.updateCamera arriving)))
                      (py (localDrawn arriving)) 2000)%Q.
Proof.
  destruct arriving_standing as [Hst Hview].
  refine (proj1 (eased_camera_tends_to_legacy_camera arriving
                   (default ∅ (myPlayer arriving)) 1000 2000 Hst Hview _ _ _) [32; 48; 64]);
    reflexivity.
Defined.

(** ** Labels and sprites *)

Lemma lt_false (a b : Q) : negb (Qle_bool b a) = false → (b <= a)%Q.
Proof. intros H%negb_false_iff. by apply Qle_bool_iff. Qed.

Lemma lt_false_intro (a b : Q) : (b <= a)%Q → negb (Qle_bool b a) = false.
Proof. intros H. apply negb_false_iff. by apply Qle_bool_iff. Qed.

Lemma zoomed_out_sees_more (size zoom : Q) :
  (0 <= size → 0 < zoom <= 1 → size <= size / zoom)%Q.
Proof.
  intros Hs Hz. apply Qle_shift_div_l; [lra|].
  assert (0 <= size * (1 - zoom))%Q as H by (apply Qmult_le_0_compat; lra).
  assert (size * (1 - zoom) == size - size * zoom)%Q as E by ring. lra.
Qed.

(** X26. A name label is drawn 40 pixels above the entity's stored position,
    as seen from the camera. The labels cull by the canvas size with a
    margin of 100 and the sprites by the visible size with a margin of 200,
    so at a zoom of at most 1 an entity that is drawn where the store has
    it and whose label is drawn is never culled itself. *)
Theorem label_drawn_implies_sprite_drawn w id player lab :
  (0 <= canvasWidth w ∧ 0 <= canvasHeight w ∧ 0 < zoomLevel w <= 1)%Q →
  players w !! id = Some player → samePoint (drawnAt w player) (positionOf player) →
  drawUsernames w !! id = Some lab →
  drawPlayer w player ≠ Culled ∧
  text lab = player !! "username" ∧
  (labelX lab == px (drawnAt w player) - px (camera w) ∧
   labelY lab == py (drawnAt w player) - py (camera w) - 40)%Q.
Proof.
  intros (Hcw & Hch & Hz) Hp [Hx Hy] Hlab.
  unfold drawUsernames in Hlab. rewrite lookup_omap, Hp in Hlab.
  cbn [mbind option_bind] in Hlab.
  destruct (_ || _) eqn:Hcull in Hlab; [done|]. injection Hlab as <-.
  apply orb_false_elim in Hcull as [[[H1 H2]%orb_false_elim H3]%orb_false_elim H4].
  apply lt_false in H1, H2, H3, H4.
  pose proof (zoomed_out_sees_more (canvasWidth w) (zoomLevel w) Hcw Hz) as Hw.
  pose proof (zoomed_out_sees_more (canvasHeight w) (zoomLevel w) Hch Hz) as Hh.
  cbn [positionOf px py] in Hx, Hy.
  split; [|split; [done|cbn [labelX labelY]; split; lra]].
  unfold drawPlayer. fold (drawnAt w player). cbv zeta.
  rewrite !lt_false_intro by lra. cbn [orb]. by repeat case_match.
Qed.

(** X26, an instance: the local player of [playing], zoomed back to 1. *)
Lemma label_drawn_implies_sprite_drawn_witness :
  drawPlayer (set_zoomLevel 1 playing) (peer "me" 1000 700) ≠ Culled ∧
  text {| text := Some (JStr "me");
          labelX := 1000 - px (camera playing);
          labelY := 700 - py (camera playing) - 40 |} = peer "me" 1000 700 !! "username" ∧
  (labelX {| text := Some (JStr "me");
             labelX := 1000 - px (camera playing);
             labelY := 700 - py (camera playing) - 40 |}
     == px (drawnAt (set_zoomLevel 1 playing) (peer "me" 1000 700))
        - px (camera (set_zoomLevel 1 playing)) ∧
   labelY {| text := Some (JStr "me");
             labelX := 1000 - px (camera playing);
             labelY := 700 - py (camera playing) - 40 |}
     == py (drawnAt (set_zoomLevel 1 playing) (peer "me" 1000 700))
        - py (camera (set_zoomLevel 1 playing)) - 40)%Q.
Proof.
  apply (label_drawn_implies_sprite_drawn (set_zoomLevel 1 playing) "me").
  - vm_compute. repeat split; congruence.
  - reflexivity.
  - vm_compute. split; reflexivity.
  - vm_compute. reflexivity.
Defined.

(** ** Zoom *)

Lemma render_zoomLevel t w : zoomLevel (render t w) = zoomLevel w.
Proof. frame_of (render_outsideFrame t w). Qed.

(** The zoom of the model after a wheel notch is the exact instance of
    [zoomInWith] or [zoomOutWith]. *)
Lemma wheel_zoom dy w :
  zoomLevel (handleMouseWheel dy w) =
  if negb (Qle_bool 0 dy) then zoomInWith Qplus Qmin 0.1 3.0 (zoomLevel w)
  else zoomOutWith Qminus Qmax 0.1 0.5 (zoomLevel w).
Proof. unfold handleMouseWheel. rewrite render_zoomLevel. by destruct (negb _). Qed.

Lemma wheel_in_steps n w :
  (zoomLevel w <= 3 →
   zoomLevel (Nat.iter n (handleMouseWheel (- (1))) w)
   == Qmin 3 (zoomLevel w + inject_Z (Z.of_nat n) * (1 # 10)))%Q.
Proof.
  intros Hz. induction n as [|n IH].
  - change (Nat.iter 0 (handleMouseWheel (- (1))) w) with w.
    change (inject_Z (Z.of_nat 0)) with 0%Q. minmax; lra.
  - change (Nat.iter (S n) (handleMouseWheel (- (1))) w)
      with (handleMouseWheel (- (1)) (Nat.iter n (handleMouseWheel (- (1))) w)).
    rewrite wheel_zoom. change (negb (Qle_bool 0 (- (1)))) with true. cbv iota.
    unfold zoomInWith.
    rewrite Nat2Z.inj_succ. unfold Z.succ. rewrite inject_Z_plus.
    change (inject_Z 1) with 1%Q.
    set (k := inject_Z (Z.of_nat n)) in *. clearbody k.
    set (z := zoomLevel (Nat.iter n _ w)) in *. clearbody z.
    change (0.1)%Q with (1 # 10)%Q. change (3.0)%Q with (30 # 10)%Q.
    minmax; lra.
Qed.

Lemma wheel_out_steps n w :
  (1 # 2 <= zoomLevel w →
   zoomLevel (Nat.iter n (handleMouseWheel 1) w)
   == Qmax (1 # 2) (zoomLevel w - inject_Z (Z.of_nat n) * (1 # 10)))%Q.
Proof.
  intros Hz. induction n as [|n IH].
  - change (Nat.iter 0 (handleMouseWheel 1) w) with w.
    change (inject_Z (Z.of_nat 0)) with 0%Q. minmax; lra.
  - change (Nat.iter (S n) (handleMouseWheel 1) w)
      with (handleMouseWheel 1 (Nat.iter n (handleMouseWheel 1) w)).
    rewrite wheel_zoom. change (negb (Qle_bool 0 1)) with false. cbv iota.
    unfold zoomOutWith.
    rewrite Nat2Z.inj_succ. unfold Z.succ. rewrite inject_Z_plus.
    change (inject_Z 1) with 1%Q.
    set (k := inject_Z (Z.of_nat n)) in *. clearbody k.
    set (z := zoomLevel (Nat.iter n _ w)) in *. clearbody z.
    change (0.1)%Q with (1 # 10)%Q. change (0.5)%Q with (5 # 10)%Q.
    minmax; lra.
Qed.

(** X27. Zooming saturates: from any reachable state, n wheel notches inward
    leave the zoom at min (3, z + n/10) and n notches outward at
    max (1/2, z - n/10); 26 notches in one direction therefore reach the
    limit from anywhere, and further notches leave the zoom there. *)
Theorem zoom_saturates w n :
  reachable w →
  (zoomLevel (Nat.iter n (handleMouseWheel (- (1))) w)
     == Qmin 3 (zoomLevel w + inject_Z (Z.of_nat n) * (1 # 10)) ∧
   zoomLevel (Nat.iter n (handleMouseWheel 1) w)
     == Qmax (1 # 2) (zoomLevel w - inject_Z (Z.of_nat n) * (1 # 10)))%Q ∧
  ((26 ≤ n)%nat →
   (zoomLevel (Nat.iter n (handleMouseWheel (- (1))) w) == 3 ∧
    zoomLevel (Nat.iter n (handleMouseWheel 1) w) == 1 # 2)%Q).
Proof.
  intros (_ & [Hlo Hhi] & _)%reachable_viewInv.
  pose proof (wheel_in_steps n w Hhi) as Hin.
  pose proof (wheel_out_steps n w Hlo) as Hout.
  split; [done|]. intros Hn. rewrite Hin, Hout.
  assert (26 <= inject_Z (Z.of_nat n))%Q as Hk.
  { change 26%Q with (inject_Z 26). rewrite <- Zle_Qle. lia. }
  set (k := inject_Z (Z.of_nat n)) in *. clearbody k.
  split; minmax; lra.
Qed.

(** X27, an instance: three notches inward and outward from [playing], whose
    zoom is 1.2. *)
Lemma zoom_saturates_witness :
  (zoomLevel (Nat.iter 3 (handleMouseWheel (- (1))) playing)
     == Qmin 3 (zoomLevel playing + inject_Z (Z.of_nat 3) * (1 # 10)) ∧
   zoomLevel (Nat.iter 3 (handleMouseWheel 1) playing)
     == Qmax (1 # 2) (zoomLevel playing - inject_Z (Z.of_nat 3) * (1 # 10)))%Q.
Proof. exact (proj1 (zoom_saturates playing 3 playing_reachable)). Defined.
